(** * q_mem_tools: the process memory inspector (process_mem_tool.cpp)

    A shallow embedding of the pattern scanner [find_pattern] (region walk,
    block planner, budget gate, reader-matcher worker, result aggregator),
    of the command parser [parse_command] with the REPL loop
    [run_process_inspection], of the listings [list_processes],
    [list_process_modules] and [list_process_threads], of the byte
    frequencies behind the entropy, of the heap traversal
    [traverse_heap_list] and of the warning of [print_error], followed by
    the properties proved about them.

    Conventions.  Addresses and [size_t] quantities are integers in [Z];
    the unsigned 64-bit arithmetic of the planner is written out with
    [wrap_size_t].  Bytes are [Byte.byte].  Answers of the operating system
    (VirtualQueryEx, ReadProcessMemory, OpenThread, ...) are inputs of the
    model.  Loops whose termination depends on the data carry a fuel and
    return [None] when it runs out. *)

From Stdlib Require Import ZArith Bool Ascii String List Lia.
From Stdlib Require Import Sorted.
From Stdlib Require Strings.Byte.
Import ListNotations.
Local Open Scope Z_scope.

(* ================================================================= *)
(** * Part I: the embedding *)
(* ================================================================= *)

(** ** Machine integers *)

Definition size_t_modulus : Z := 2 ^ 64.

(** Unsigned 64-bit wrap-around of [size_t] arithmetic. *)
Definition wrap_size_t (z : Z) : Z := z mod size_t_modulus.

(** ** Windows constants and records used by the scanner *)

Definition MEM_COMMIT  : Z := 0x1000.
Definition MEM_RESERVE : Z := 0x2000.
Definition MEM_FREE    : Z := 0x10000.
Definition MEM_PRIVATE : Z := 0x20000.
Definition MEM_MAPPED  : Z := 0x40000.
Definition MEM_IMAGE   : Z := 0x1000000.

Record MEMORY_BASIC_INFORMATION : Type := mkMBI {
  BaseAddress    : Z;
  AllocationBase : Z;
  RegionSize     : Z;
  State          : Z;
  Protect        : Z;
  Type_          : Z
}.

(** [struct block { const char* ptr; size_t size; size_t info_id; }] *)
Record block : Type := mkBlock {
  ptr     : Z;
  size    : Z;
  info_id : nat
}.

(** ** Helpers declared in common.h *)

(** Modelled from the spec: [multiple_of_n] is declared in common.h, which is
    not part of the sources at hand; the spec describes its use as
    "[overlap] is rounded up to a 16-byte multiple". *)
Definition multiple_of_n (x n : Z) : Z := ((x + n - 1) / n) * n.

(** [sizeof(__m128i)] *)
Definition sizeof_m128i : Z := 16.

(** ** Scan parameters (find_pattern, lines 27-41) *)

(** The process-global tunables of common.h and the values the host reports. *)
Record scan_config : Type := mkConfig {
  g_memory_limit         : Z;     (* LONG64 max_memory_usage *)
  g_num_alloc_blocks     : Z;     (* block stride factor *)
  g_max_omp_threads      : Z;     (* worker ceiling *)
  g_show_failed_readings : bool;  (* verbose reads *)
  alloc_granularity      : Z;     (* sysinfo.dwAllocationGranularity *)
  num_procs              : Z      (* omp_get_num_procs() *)
}.

Definition extra_chunk (pattern_len : Z) : Z :=
  multiple_of_n pattern_len sizeof_m128i.

Definition block_size (cfg : scan_config) : Z :=
  wrap_size_t (alloc_granularity cfg * g_num_alloc_blocks cfg).

Definition bytes_to_read_ideal (cfg : scan_config) (pattern_len : Z) : Z :=
  wrap_size_t (block_size cfg + extra_chunk pattern_len).

(** ** Block planner (find_pattern, lines 53-66) *)

(** The inner [while (region_size)] loop.  [bs] is [block_size], [ideal] is
    [bytes_to_read_ideal], [_p] the cursor of the region walk, [id] the index
    of the region in [info].  Every iteration pushes one block. *)
Fixpoint plan_region (fuel : nat) (bs ideal _p : Z) (id : nat)
    (region_size bytes_offset : Z) : option (list block) :=
  if region_size =? 0 then Some []
  else
    match fuel with
    | O => None
    | S fuel' =>
        let bytes_to_read :=
          if ideal <=? region_size then ideal else region_size in
        let region_size' :=
          if ideal <=? region_size then wrap_size_t (region_size - bs) else 0 in
        let b := {| ptr := _p + bytes_offset; size := bytes_to_read; info_id := id |} in
        match plan_region fuel' bs ideal _p id region_size'
                (wrap_size_t (bytes_offset + bs)) with
        | None => None
        | Some rest => Some (b :: rest)
        end
    end.

(** Enough iterations for a region of [region_size] bytes walked at stride
    [bs] (one more than the quotient). *)
Definition plan_fuel (bs region_size : Z) : nat :=
  S (Z.to_nat (region_size / bs)).

(** The region walk (lines 43-69).  [queries] is the sequence of records that
    the successive calls of VirtualQueryEx filled in, up to the first call
    that failed; the cursor [_p] starts at NULL and advances by the
    [RegionSize] of each answer. *)
Fixpoint enumerate_regions (pattern_len bs ideal : Z)
    (queries : list MEMORY_BASIC_INFORMATION) (_p : Z)
    (info : list MEMORY_BASIC_INFORMATION) (blocks : list block)
    : option (list MEMORY_BASIC_INFORMATION * list block) :=
  match queries with
  | [] => Some (info, blocks)
  | _info :: rest =>
      if State _info =? MEM_COMMIT then
        let region_size := RegionSize _info in
        if region_size <? pattern_len then
          enumerate_regions pattern_len bs ideal rest (_p + RegionSize _info) info blocks
        else
          let info' := info ++ [_info] in
          match plan_region (plan_fuel bs region_size) bs ideal _p
                  (length info' - 1)%nat region_size 0 with
          | None => None
          | Some planned =>
              enumerate_regions pattern_len bs ideal rest (_p + RegionSize _info)
                info' (blocks ++ planned)
          end
      else
        enumerate_regions pattern_len bs ideal rest (_p + RegionSize _info) info blocks
  end.

Definition plan_blocks (cfg : scan_config) (pattern_len : Z)
    (queries : list MEMORY_BASIC_INFORMATION)
    : option (list MEMORY_BASIC_INFORMATION * list block) :=
  enumerate_regions pattern_len (block_size cfg)
    (bytes_to_read_ideal cfg pattern_len) queries 0 [] [].

(** Length of the intersection of the address ranges of two blocks. *)
Definition inter_len (b1 b2 : block) : Z :=
  Z.max 0 (Z.min (ptr b1 + size b1) (ptr b2 + size b2) - Z.max (ptr b1) (ptr b2)).

(** The address range of [b] contains [[a, a + n)]. *)
Definition block_contains (b : block) (a n : Z) : Prop :=
  ptr b <= a /\ a + n <= ptr b + size b.

(** The sizes the host reports stay clear of the end of the [size_t] range
    when a stride is added. *)
Definition queries_ok (bs : Z) (queries : list MEMORY_BASIC_INFORMATION) : Prop :=
  Forall (fun q => 0 <= RegionSize q /\ RegionSize q + bs < size_t_modulus) queries.

(** Where the cursor of the region walk stands after the answers [pre]. *)
Definition cursor_after (_p : Z) (pre : list MEMORY_BASIC_INFORMATION) : Z :=
  fold_left (fun a q => a + RegionSize q) pre _p.

(** What the region walk maintains about its two tables. *)
Definition plan_inv (bs ideal : Z) (info : list MEMORY_BASIC_INFORMATION)
    (blocks : list block) : Prop :=
  (forall b, In b blocks -> (info_id b < length info)%nat /\ 0 < size b <= ideal) /\
  (forall i b1 b2,
      nth_error blocks i = Some b1 -> nth_error blocks (S i) = Some b2 ->
      info_id b1 = info_id b2 -> inter_len b1 b2 = ideal - bs).

(** ** Substring search and the matching loop (find_pattern, lines 136-153) *)

Abbreviation byte := Byte.byte.

(** [pat] is a prefix of [s]. *)
Fixpoint prefix_eqb (pat s : list byte) : bool :=
  match pat, s with
  | [], _ => true
  | x :: pat', y :: s' => Byte.eqb x y && prefix_eqb pat' s'
  | _ :: _, [] => false
  end.

(** Modelled from the spec: [strstr_u8] is declared in common.h, which is not
    part of the sources at hand.  The spec asks for "any substring search
    that treats inputs as raw bytes" and lets a scalar search stand for the
    vectorised one.  The result is the offset, from [str], of the first
    occurrence of the [substr_sz] bytes of [substr] that lies inside the
    first [str_sz] bytes of [str]; [None] stands for the NULL pointer. *)
Fixpoint strstr_u8 (str : list byte) (str_sz : Z) (substr : list byte)
    (substr_sz : Z) : option Z :=
  if str_sz <? substr_sz then None
  else if prefix_eqb (firstn (Z.to_nat substr_sz) substr) str then Some 0
  else
    match str with
    | [] => None
    | _ :: str' =>
        match strstr_u8 str' (str_sz - 1) substr substr_sz with
        | None => None
        | Some r => Some (r + 1)
        end
    end.

(** The [while (buffer_size >= pattern_len)] loop.  [buffer_ptr] is kept as
    an offset from the start of [buffer]; [ptr] is the address of the block
    in the target.  The result is what the loop pushes onto [match[i]], in
    order. *)
Fixpoint match_loop (fuel : nat) (buffer pattern : list byte)
    (pattern_len ptr buffer_ptr buffer_size : Z) : option (list Z) :=
  if buffer_size <? pattern_len then Some []
  else
    match fuel with
    | O => None
    | S fuel' =>
        let old_buf_ptr := buffer_ptr in
        match strstr_u8 (skipn (Z.to_nat buffer_ptr) buffer) buffer_size
                pattern pattern_len with
        | None => Some []
        | Some r =>
            let buffer_ptr := old_buf_ptr + r in
            let buffer_offset := buffer_ptr in
            let buffer_ptr := buffer_ptr + 1 in
            match match_loop fuel' buffer pattern pattern_len ptr buffer_ptr
                    (wrap_size_t (buffer_size - (buffer_ptr - old_buf_ptr))) with
            | None => None
            | Some rest => Some (ptr + buffer_offset :: rest)
            end
        end
    end.

(** Lines 136-153: the matches of one block whose buffer holds [bytes_read]
    valid bytes. *)
Definition find_in_buffer (buffer pattern : list byte)
    (pattern_len ptr bytes_read : Z) : option (list Z) :=
  if pattern_len <=? bytes_read then
    match_loop (S (Z.to_nat bytes_read)) buffer pattern pattern_len ptr 0 bytes_read
  else Some [].

(** The pattern starts at offset [o] of [buffer]. *)
Definition matches_at (buffer pattern : list byte) (o : Z) : bool :=
  prefix_eqb pattern (skipn (Z.to_nat o) buffer).

(** The pattern occurs at offset [o] of [buffer], inside the window
    [[buffer_ptr, buffer_ptr + buffer_size)]. *)
Definition occurs_in (buffer pattern : list byte)
    (pattern_len buffer_ptr buffer_size o : Z) : Prop :=
  buffer_ptr <= o /\ o + pattern_len <= buffer_ptr + buffer_size /\
  matches_at buffer pattern o = true.

(** ** Reader-matcher worker (find_pattern, lines 81-159) *)

(** What one call of ReadProcessMemory did: the BOOL it returned, the count
    it stored in [bytes_read] and the bytes it wrote at the start of the
    caller's buffer. *)
Record read_outcome : Type := mkRead {
  res        : bool;
  bytes_read : Z;
  written    : list byte
}.

(** The buffer of a worker after a read: the bytes written, then what the
    buffer held before. *)
Definition store_buffer (written buffer : list byte) : list byte :=
  written ++ skipn (length written) buffer.

(** What a worker does that other threads or the operator can observe. *)
Inductive event : Type :=
| EvAcquire (n : Z)              (* passed the gate: g_memory_usage_bytes += n *)
| EvRead (ptr n : Z)             (* ReadProcessMemory(process, ptr, buffer, n, ..) *)
| EvDiagRegion (info_id : nat)   (* module name, region line, page type *)
| EvDiagFailed                   (* "Failed reading process memory. ..." *)
| EvDiagShort (skipped total : Z) (* "Process memory not read in it's entirety! ..." *)
| EvRelease (n : Z)              (* g_memory_usage_bytes -= n, under g_mtx *)
| EvNotifyAll.                   (* g_cv.notify_all() *)

(** How the error branch (lines 105-134) leaves: by [continue], or by falling
    through to the matching loop. *)
Inductive flow : Type := Continue | FallThrough.

Definition read_check (cfg : scan_config) (b : block) (rd : read_outcome)
    : flow * list event :=
  let bytes_to_read := size b in
  if negb (res rd) || negb (bytes_read rd =? bytes_to_read) then
    if negb (g_show_failed_readings cfg) then
      if negb (res rd) then (Continue, [EvRelease bytes_to_read])
      else (FallThrough, [])
    else
      if negb (res rd) then
        (Continue, [EvDiagRegion (info_id b); EvDiagFailed; EvRelease bytes_to_read])
      else
        (FallThrough,
         [EvDiagRegion (info_id b);
          EvDiagShort (bytes_to_read - bytes_read rd) bytes_to_read])
  else (FallThrough, []).

(** The body of the parallel loop after the gate (lines 102-158) for block
    [b]: the matches pushed onto [match[i]], the events in program order and
    the buffer left behind.  [None] only when the matching loop runs out of
    fuel. *)
Definition block_body (cfg : scan_config) (pattern : list byte) (pattern_len : Z)
    (b : block) (buffer : list byte) (rd : read_outcome)
    : option (list Z * list event * list byte) :=
  let bytes_to_read := size b in
  let buffer := store_buffer (written rd) buffer in
  let '(fl, evs) := read_check cfg b rd in
  match fl with
  | Continue => Some ([], EvRead (ptr b) bytes_to_read :: evs, buffer)
  | FallThrough =>
      match find_in_buffer buffer pattern pattern_len (ptr b) (bytes_read rd) with
      | None => None
      | Some found =>
          Some (found,
                EvRead (ptr b) bytes_to_read :: evs
                  ++ [EvRelease bytes_to_read; EvNotifyAll],
                buffer)
      end
  end.

(** Counting the events of a kind in a trace. *)
Definition is_read (e : event) : bool :=
  match e with EvRead _ _ => true | _ => false end.

Definition is_release (e : event) : bool :=
  match e with EvRelease _ => true | _ => false end.

Definition is_notify (e : event) : bool :=
  match e with EvNotifyAll => true | _ => false end.

Definition count_events (p : event -> bool) (evs : list event) : nat :=
  length (filter p evs).

(** How a run of the scanner ends. *)
Inductive outcome (A : Type) : Type :=
| Done (a : A)
| Blocked      (* a worker waits at the gate and nobody is left to release *)
| OutOfFuel.
Arguments Done {A} a.
Arguments Blocked {A}.
Arguments OutOfFuel {A}.

(** The state one worker threads through its iterations. *)
Record worker_state : Type := mkWorker {
  g_memory_usage_bytes : Z;
  buffer_of            : list byte;
  match_of             : list (list Z);   (* match[0 .. i) *)
  trace_of             : list event
}.

(** One iteration of the loop run by a single worker: the gate of lines
    91-100 (with nobody else to release, a worker that finds the predicate
    false waits for ever), then the body. *)
Definition worker_iteration (cfg : scan_config) (pattern : list byte)
    (pattern_len : Z) (ReadProcessMemory : Z -> Z -> read_outcome)
    (st : worker_state) (b : block) : outcome worker_state :=
  let max_memory_usage := g_memory_limit cfg in
  let bytes_to_read := size b in
  if g_memory_usage_bytes st <? max_memory_usage then
    let used := g_memory_usage_bytes st + bytes_to_read in
    match block_body cfg pattern pattern_len b (buffer_of st)
            (ReadProcessMemory (ptr b) bytes_to_read) with
    | None => OutOfFuel
    | Some (found, evs, buffer) =>
        Done {| g_memory_usage_bytes := used - bytes_to_read;
                buffer_of := buffer;
                match_of := match_of st ++ [found];
                trace_of := trace_of st ++ EvAcquire bytes_to_read :: evs |}
    end
  else Blocked.

(** The loop over all blocks as one worker runs it ([num_threads = 1]), in
    index order. *)
Fixpoint worker_loop (cfg : scan_config) (pattern : list byte) (pattern_len : Z)
    (ReadProcessMemory : Z -> Z -> read_outcome)
    (blocks : list block) (st : worker_state) : outcome worker_state :=
  match blocks with
  | [] => Done st
  | b :: rest =>
      match worker_iteration cfg pattern pattern_len ReadProcessMemory st b with
      | Done st' => worker_loop cfg pattern pattern_len ReadProcessMemory rest st'
      | Blocked => Blocked
      | OutOfFuel => OutOfFuel
      end
  end.

(** [_min(num_blocks, _min(g_max_omp_threads, omp_get_num_procs()))] *)
Definition num_threads (cfg : scan_config) (num_blocks : Z) : Z :=
  Z.min num_blocks (Z.min (g_max_omp_threads cfg) (num_procs cfg)).

(** The [n] bytes of the memory [mem] of the target from address [a] on. *)
Fixpoint bytes_at (mem : Z -> byte) (a : Z) (n : nat) : list byte :=
  match n with
  | O => []
  | S n' => mem a :: bytes_at mem (a + 1) n'
  end.

(** A read that returns the whole range from the memory [mem] of the target. *)
Definition read_full (mem : Z -> byte) (ptr n : Z) : read_outcome :=
  {| res := true;
     bytes_read := n;
     written := bytes_at mem ptr (Z.to_nat n) |}.

(** ** Result aggregator (find_pattern, lines 165-206) *)

Inductive output : Type :=
| OutNoMatches                          (* "*** No matches found. ***" *)
| OutApproximate (num_matches : Z)      (* "*** Approximate number of matches: ..." *)
| OutModuleName (name : string)
| OutRegion (r_info : MEMORY_BASIC_INFORMATION)
| OutMatch (m : Z)                      (* "\tMatch at address: 0x%p" *)
| OutBlank.

(** [(uint64_t)(-1)] *)
Definition no_prev_match : Z := size_t_modulus - 1.

(** The inner loop of lines 197-203; returns the lines printed and the new
    [prev_match]. *)
Fixpoint print_matches (ms : list Z) (prev_match : Z) : list output * Z :=
  match ms with
  | [] => ([], prev_match)
  | m :: ms' =>
      if prev_match =? m then print_matches ms' prev_match
      else
        let '(out, prev) := print_matches ms' m in
        (OutMatch m :: out, prev)
  end.

Definition default_info : MEMORY_BASIC_INFORMATION := mkMBI 0 0 0 0 0 0.

(** The region header of lines 184-196.  [module_name] is the answer of
    GetModuleFileNameExA for an allocation base. *)
Definition print_region (module_name : Z -> option string)
    (r_info : MEMORY_BASIC_INFORMATION) : list output :=
  (if Type_ r_info =? MEM_IMAGE then
     match module_name (AllocationBase r_info) with
     | Some name => [OutModuleName name]
     | None => []
     end
   else [])
  ++ [OutRegion r_info; OutBlank].

(** The loop of lines 182-206 over the blocks and their match lists. *)
Fixpoint print_blocks (module_name : Z -> option string)
    (info : list MEMORY_BASIC_INFORMATION) (blocks : list block)
    (match_ : list (list Z)) (prev_match : Z) : list output :=
  match blocks, match_ with
  | b :: blocks', m :: match' =>
      match m with
      | [] => print_blocks module_name info blocks' match' prev_match
      | _ :: _ =>
          let r_info := nth (info_id b) info default_info in
          let '(out, prev) := print_matches m prev_match in
          print_region module_name r_info ++ out ++ [OutBlank]
            ++ print_blocks module_name info blocks' match' prev
      end
  | _, _ => []
  end.

Definition num_matches (match_ : list (list Z)) : Z :=
  fold_left (fun n m => n + Z.of_nat (length m)) match_ 0.

(** Lines 165-206.  [too_many_results] is declared in common.h; it is taken
    as a parameter, and what it prints itself is left out. *)
Definition aggregate (too_many_results : Z -> bool)
    (module_name : Z -> option string)
    (info : list MEMORY_BASIC_INFORMATION) (blocks : list block)
    (match_ : list (list Z)) : list output :=
  let n := num_matches match_ in
  if n =? 0 then [OutNoMatches]
  else if too_many_results n then []
  else OutApproximate n :: OutBlank
         :: print_blocks module_name info blocks match_ no_prev_match.

(** The addresses printed, in order. *)
Definition printed_addresses (out : list output) : list Z :=
  flat_map (fun o => match o with OutMatch m => [m] | _ => [] end) out.

(** ** The scan as a whole *)

(** The answers of the host that a scan consumes. *)
Record host : Type := mkHost {
  VirtualQueryEx_answers : list MEMORY_BASIC_INFORMATION;
  ReadProcessMemory      : Z -> Z -> read_outcome;
  GetModuleFileNameExA   : Z -> option string;
  too_many_results       : Z -> bool;
  malloc_contents        : list byte     (* what a fresh buffer holds *)
}.

Record scan_report : Type := mkReport {
  rep_info   : list MEMORY_BASIC_INFORMATION;
  rep_blocks : list block;
  rep_match  : list (list Z);
  rep_trace  : list event;
  rep_output : list output
}.

(** [find_pattern] with the parallel loop run by one worker in index order.
    The match vector does not depend on that choice: [match[i]] is a function
    of block [i] and of the read of block [i] alone (see [block_body]). *)
Definition find_pattern (cfg : scan_config) (h : host) (pattern : list byte)
    (pattern_len : Z) : outcome scan_report :=
  match plan_blocks cfg pattern_len (VirtualQueryEx_answers h) with
  | None => OutOfFuel
  | Some (info, blocks) =>
      let st0 := {| g_memory_usage_bytes := 0;
                    buffer_of := malloc_contents h;
                    match_of := [];
                    trace_of := [] |} in
      match worker_loop cfg pattern pattern_len (ReadProcessMemory h) blocks st0 with
      | Done st =>
          Done {| rep_info := info;
                  rep_blocks := blocks;
                  rep_match := match_of st;
                  rep_trace := trace_of st;
                  rep_output := aggregate (too_many_results h) (GetModuleFileNameExA h)
                                  info blocks (match_of st) |}
      | Blocked => Blocked
      | OutOfFuel => OutOfFuel
      end
  end.

(** ** The budget gate under interleaving
       (find_pattern, lines 81-100, 109-111, 127-129 and 154-157) *)

Module Gate.

(** Where a worker thread stands with respect to the gate. *)
Inductive thread_state : Type :=
| Idle                  (* between two iterations of the parallel loop *)
| Waiting (i : nat)     (* took iteration [i]; at [g_cv.wait] *)
| Holding (i : nat).    (* admitted; [blocks[i].size] is checked out *)

Record state : Type := mkState {
  g_memory_usage_bytes : Z;
  next_iteration       : nat;               (* schedule(dynamic, 1) *)
  threads              : list thread_state
}.

(** The steps that touch the shared state; each runs under [g_mtx] or is the
    hand-out of an iteration by the OpenMP runtime. *)
Inductive action : Type :=
| Take (t : nat)        (* thread [t] takes the next iteration *)
| Admit (t : nat)       (* the wait predicate holds; the counter grows *)
| Release (t : nat).    (* the counter shrinks; any of the three exits *)

Definition init (num_threads : nat) : state :=
  {| g_memory_usage_bytes := 0;
     next_iteration := 0;
     threads := repeat Idle num_threads |}.

Fixpoint set_thread (t : nat) (x : thread_state) (l : list thread_state)
    : list thread_state :=
  match l, t with
  | [], _ => []
  | _ :: l', O => x :: l'
  | y :: l', S t' => y :: set_thread t' x l'
  end.

(** [blocks[i].size] *)
Definition bytes_to_read (blocks : list block) (i : nat) : Z :=
  match nth_error blocks i with
  | Some b => size b
  | None => 0
  end.

Definition step (max_memory_usage : Z) (blocks : list block) (s : state)
    (a : action) : option state :=
  match a with
  | Take t =>
      match nth_error (threads s) t with
      | Some Idle =>
          if (next_iteration s <? length blocks)%nat then
            Some {| g_memory_usage_bytes := g_memory_usage_bytes s;
                    next_iteration := S (next_iteration s);
                    threads := set_thread t (Waiting (next_iteration s)) (threads s) |}
          else None
      | _ => None
      end
  | Admit t =>
      match nth_error (threads s) t with
      | Some (Waiting i) =>
          if g_memory_usage_bytes s <? max_memory_usage then
            Some {| g_memory_usage_bytes := g_memory_usage_bytes s + bytes_to_read blocks i;
                    next_iteration := next_iteration s;
                    threads := set_thread t (Holding i) (threads s) |}
          else None
      | _ => None
      end
  | Release t =>
      match nth_error (threads s) t with
      | Some (Holding i) =>
          Some {| g_memory_usage_bytes := g_memory_usage_bytes s - bytes_to_read blocks i;
                  next_iteration := next_iteration s;
                  threads := set_thread t Idle (threads s) |}
      | _ => None
      end
  end.

Fixpoint run (max_memory_usage : Z) (blocks : list block) (s : state)
    (acts : list action) : option state :=
  match acts with
  | [] => Some s
  | a :: acts' =>
      match step max_memory_usage blocks s a with
      | Some s' => run max_memory_usage blocks s' acts'
      | None => None
      end
  end.

(** Bytes a thread has checked out. *)
Definition held_by (blocks : list block) (ts : thread_state) : Z :=
  match ts with
  | Holding i => bytes_to_read blocks i
  | _ => 0
  end.

(** Sum of the sizes of the blocks checked out by the workers. *)
Fixpoint checked_out (blocks : list block) (l : list thread_state) : Z :=
  match l with
  | [] => 0
  | ts :: l' => held_by blocks ts + checked_out blocks l'
  end.

End Gate.

(** What every step of the gate preserves: the counter is the sum of the
    blocks checked out, and stays within one block of the budget. *)
Definition gate_inv (max_memory_usage bound : Z) (blocks : list block)
    (s : Gate.state) : Prop :=
  Gate.g_memory_usage_bytes s = Gate.checked_out blocks (Gate.threads s) /\
  Gate.g_memory_usage_bytes s <= Z.max 0 (max_memory_usage - 1 + bound).

(** ** The command parser and the REPL (lines 219-267 and 327-354) *)

Inductive input_command : Type :=
| c_not_set
| c_quit_program
| c_continue
| c_help
| c_search_pattern
| c_search_pattern_in_registers
| c_list_pids
| c_list_modules
| c_list_threads
| c_travers_heap
| c_travers_heap_calc_entropy
| c_travers_heap_blocks.

Definition input_command_eqb (a b : input_command) : bool :=
  match a, b with
  | c_not_set, c_not_set | c_quit_program, c_quit_program
  | c_continue, c_continue | c_help, c_help
  | c_search_pattern, c_search_pattern
  | c_search_pattern_in_registers, c_search_pattern_in_registers
  | c_list_pids, c_list_pids | c_list_modules, c_list_modules
  | c_list_threads, c_list_threads | c_travers_heap, c_travers_heap
  | c_travers_heap_calc_entropy, c_travers_heap_calc_entropy
  | c_travers_heap_blocks, c_travers_heap_blocks => true
  | _, _ => false
  end.

Record common_context : Type := mkCommon {
  pattern     : option (list byte);
  pattern_len : Z
}.

Record process_context : Type := mkContext {
  common : common_context;
  pid    : Z                      (* DWORD *)
}.

(** [(DWORD)(-1)] *)
Definition no_pid : Z := 2 ^ 32 - 1.

(** The functions [parse_command] calls and does not define: [skip_to_args]
    and [is_hex] of common.h and [strtoul] of the C library.
    [skip_to_args cmd len] is the offset [args - cmd], [None] for nullptr;
    [strtoul args base] is the value and the number of characters consumed,
    [end - args]. *)
Record parser_env : Type := mkEnv {
  skip_to_args : string -> Z -> option nat;
  is_hex       : string -> Z -> bool;
  strtoul      : string -> Z -> Z * nat
}.

(** [cmd[i]] of a NUL-terminated array. *)
Definition char_at (cmd : string) (i : nat) : ascii :=
  match String.get i cmd with
  | Some c => c
  | None => zero
  end.

Definition unknown_command : string := "Unknown command.".

(** [parse_command]: the command, the context it leaves and the lines it
    puts. *)
Definition parse_command (env : parser_env) (ctx : process_context)
    (cmd : string) : input_command * process_context * list string :=
  if Ascii.eqb (char_at cmd 0) "p" then
    let pid_len := Z.of_nat (String.length cmd) in
    match skip_to_args env cmd pid_len with
    | None => (c_continue, ctx, ["PID missing."%string])
    | Some off =>
        let args := String.substring off (String.length cmd - off) cmd in
        let pid_len := pid_len - Z.of_nat off in
        let '(value, consumed) :=
          strtoul env args (if is_hex env args pid_len then 16 else 10) in
        if (consumed =? 0)%nat then
          (c_quit_program, ctx, ["Invalid PID! Exiting..."; ""]%string)
        else
          (c_continue, {| common := common ctx; pid := value mod 2 ^ 32 |},
           [""%string])
    end
  else if Ascii.eqb (char_at cmd 0) "l" then
    if Ascii.eqb (char_at cmd 1) "p" then (c_list_pids, ctx, [""%string])
    else if Ascii.eqb (char_at cmd 1) "M" then (c_list_modules, ctx, [""%string])
    else if Ascii.eqb (char_at cmd 1) "t" then (c_list_threads, ctx, [""%string])
    else (c_continue, ctx, [unknown_command; ""%string])
  else if Ascii.eqb (char_at cmd 0) "t" && Ascii.eqb (char_at cmd 1) "h" then
    if Ascii.eqb (char_at cmd 2) zero then (c_travers_heap, ctx, [""%string])
    else if Ascii.eqb (char_at cmd 2) "e" then
      (c_travers_heap_calc_entropy, ctx, [""%string])
    else if Ascii.eqb (char_at cmd 2) "b" then
      (c_travers_heap_blocks, ctx, [""%string])
    else (c_continue, ctx, [unknown_command; ""%string])
  else (c_continue, ctx, [unknown_command; ""%string]).

(** What the REPL shows: a line it puts itself, or the run of a command by
    [execute_command] (whose listings are not modelled). *)
Inductive repl_output : Type :=
| Prompt
| Puts (line : string)
| Executed (cmd : input_command) (pid : Z).

(** [execute_command]: the guard of line 270, then the dispatch. *)
Definition execute_command (cmd : input_command) (ctx : process_context)
    : list repl_output :=
  if negb (input_command_eqb cmd c_help) && negb (input_command_eqb cmd c_list_pids)
     && (pid ctx =? no_pid) then
    [Puts "Select the PID first!"]
  else
    [Executed cmd (pid ctx); Puts "===================================="].

(** One line of input as the loop sees it: what [parse_command_common] (of
    common.h) returned for it, the common context it left, and the text it
    stored in [command]. *)
Record repl_input : Type := mkInput {
  common_result  : input_command;
  common_after   : common_context;
  command_text   : string
}.

Record repl_state : Type := mkRepl {
  exit_code : option Z;          (* [Some c] once the function has returned *)
  context   : process_context;
  shown     : list repl_output
}.

(** The [while (1)] loop of [run_process_inspection] over the lines the
    operator enters; [exit_code] stays [None] while the loop still waits for
    input. *)
Fixpoint repl_loop (env : parser_env) (inputs : list repl_input)
    (ctx : process_context) (shown : list repl_output) : repl_state :=
  match inputs with
  | [] => {| exit_code := None; context := ctx; shown := shown ++ [Prompt] |}
  | line :: rest =>
      let ctx := {| common := common_after line; pid := pid ctx |} in
      let '(cmd, ctx, out) :=
        if input_command_eqb (common_result line) c_not_set then
          let '(cmd, ctx, lines) := parse_command env ctx (command_text line) in
          (cmd, ctx, map Puts lines)
        else (common_result line, ctx, [Puts ""]) in
      let shown := shown ++ Prompt :: out in
      if input_command_eqb cmd c_quit_program then
        {| exit_code := Some 0; context := ctx; shown := shown |}
      else if input_command_eqb cmd c_continue then
        repl_loop env rest ctx shown
      else
        repl_loop env rest ctx (shown ++ execute_command cmd ctx)
  end.

Definition run_process_inspection (env : parser_env) (inputs : list repl_input)
    : repl_state :=
  repl_loop env inputs
    {| common := {| pattern := None; pattern_len := 0 |}; pid := no_pid |} [].

(** ** The thread listing (lines 453-536) *)

Module ThreadList.

Record THREADENTRY32 : Type := mkEntry {
  th32ThreadID       : Z;
  th32OwnerProcessID : Z;
  tpBasePri          : Z;
  tpDeltaPri         : Z
}.

Record stack_info : Type := mkStack {
  sp   : Z;
  size : Z
}.

(** The answers of the host for one thread id: whether OpenThread gave a
    handle, and what VirtualQueryEx stored for the stack pointer read from
    the thread context ([None] when it did not return [sizeof(_info)]). *)
Record thread_host : Type := mkThreadHost {
  OpenThread     : Z -> bool;
  VirtualQueryEx : Z -> option MEMORY_BASIC_INFORMATION
}.

(** [get_thread_stack_base]: the flag returned and [*res] afterwards. *)
Definition get_thread_stack_base (answer : option MEMORY_BASIC_INFORMATION)
    (res : stack_info) : bool * stack_info :=
  match answer with
  | Some _info =>
      if (State _info =? MEM_COMMIT) && (Type_ _info =? MEM_PRIVATE) then
        (true, {| sp := BaseAddress _info; size := RegionSize _info |})
      else (false, res)
  | None => (false, res)
  end.

Inductive listing : Type :=
| FailedStackBase       (* "Failed acquiring stack base!" *)
| ThreadRow (thread_id base_pri delta_pri stack_base stack_size : Z).

(** The do-while loop of lines 512-529 over the entries of the snapshot. *)
Fixpoint thread_loop (h : thread_host) (dw_owner_pid : Z)
    (entries : list THREADENTRY32) (si : stack_info) : list listing :=
  match entries with
  | [] => []
  | te32 :: rest =>
      if th32OwnerProcessID te32 =? dw_owner_pid then
        let '(msgs, si) :=
          if OpenThread h (th32ThreadID te32) then
            let '(found, si) :=
              get_thread_stack_base (VirtualQueryEx h (th32ThreadID te32)) si in
            (if found then [] else [FailedStackBase], si)
          else ([], si) in
        msgs
          ++ ThreadRow (th32ThreadID te32) (tpBasePri te32) (tpDeltaPri te32)
               (sp si) (size si)
          :: thread_loop h dw_owner_pid rest si
      else thread_loop h dw_owner_pid rest si
  end.

(** [list_process_threads].  [snapshot] is [None] when
    CreateToolhelp32Snapshot fails, and the empty list when Thread32First
    fails; [process_opened] tells whether OpenProcess gave a handle.  The
    result is the value returned and the lines of the listing. *)
Definition list_process_threads (h : thread_host)
    (snapshot : option (list THREADENTRY32)) (process_opened : bool)
    (dw_owner_pid : Z) : bool * list listing :=
  match snapshot with
  | None => (false, [])
  | Some [] => (false, [])
  | Some entries =>
      if process_opened then
        (true, thread_loop h dw_owner_pid entries {| sp := 0; size := 0 |})
      else (false, [])
  end.

(** The lookup of the stack region of [te32] succeeds. *)
Definition lookup_succeeds (h : thread_host) (te32 : THREADENTRY32) : bool :=
  OpenThread h (th32ThreadID te32)
  && match VirtualQueryEx h (th32ThreadID te32) with
     | Some _info => (State _info =? MEM_COMMIT) && (Type_ _info =? MEM_PRIVATE)
     | None => false
     end.

(** The stack region found for the last thread of the process in [earlier]
    whose lookup succeeded; [si0] when there is none. *)
Fixpoint last_found (h : thread_host) (dw_owner_pid : Z)
    (earlier : list THREADENTRY32) (si0 : stack_info) : stack_info :=
  match earlier with
  | [] => si0
  | te32 :: rest =>
      if (th32OwnerProcessID te32 =? dw_owner_pid) && lookup_succeeds h te32 then
        match VirtualQueryEx h (th32ThreadID te32) with
        | Some _info =>
            last_found h dw_owner_pid rest
              {| sp := BaseAddress _info; size := RegionSize _info |}
        | None => last_found h dw_owner_pid rest si0
        end
      else last_found h dw_owner_pid rest si0
  end.

End ThreadList.

(** ** Sample inputs *)

(** The byte of the letter A. *)
Definition byte_A : byte := Byte.x41.

(** A host with 64 KiB allocation granularity, stride factor 1, one worker
    and a budget of 1 MiB. *)
Definition sample_cfg : scan_config :=
  {| g_memory_limit := 0x100000;
     g_num_alloc_blocks := 1;
     g_max_omp_threads := 1;
     g_show_failed_readings := false;
     alloc_granularity := 0x10000;
     num_procs := 8 |}.

(** The first 64 KiB of the sample address space: free. *)
Definition sample_free_region : MEMORY_BASIC_INFORMATION :=
  {| BaseAddress := 0; AllocationBase := 0; RegionSize := 0x10000;
     State := MEM_FREE; Protect := 1; Type_ := 0 |}.

(** Then one committed private region of 128 KiB. *)
Definition sample_committed_region : MEMORY_BASIC_INFORMATION :=
  {| BaseAddress := 0x10000; AllocationBase := 0x10000; RegionSize := 0x20000;
     State := MEM_COMMIT; Protect := 4; Type_ := MEM_PRIVATE |}.

Definition sample_queries : list MEMORY_BASIC_INFORMATION :=
  [sample_free_region; sample_committed_region].

(** The memory of the sample target: zero everywhere but for the letter A at
    the two addresses 0x20000 and 0x20001, the first bytes of the second
    block of the committed region of [sample_queries]. *)
Definition sample_mem (a : Z) : byte :=
  if (a =? 0x20000) || (a =? 0x20001) then byte_A else Byte.x00.

Definition sample_host : host :=
  {| VirtualQueryEx_answers := sample_queries;
     ReadProcessMemory := read_full sample_mem;
     GetModuleFileNameExA := fun _ => None;
     too_many_results := fun _ => false;
     malloc_contents := [] |}.

(** The first block planned for the committed region of [sample_queries]
    with a pattern of one byte. *)
Definition sample_block : block :=
  {| ptr := 0x10000; size := 0x10010; info_id := 0 |}.


(** A short read: two bytes out of the 0x10010 asked for. *)
Definition short_read : read_outcome :=
  {| res := true; bytes_read := 2; written := [byte_A; Byte.x00] |}.

(** A failed read. *)
Definition failed_read : read_outcome :=
  {| res := false; bytes_read := 0; written := [] |}.

(** A host with the default stride factor 64 (blocks of 4 MiB), a budget of
    8 MiB and up to eight workers. *)
Definition wide_cfg : scan_config :=
  {| g_memory_limit := 0x800000;
     g_num_alloc_blocks := 64;
     g_max_omp_threads := 8;
     g_show_failed_readings := false;
     alloc_granularity := 0x10000;
     num_procs := 8 |}.

(** One committed private region of 12 MiB after 64 KiB of free space. *)
Definition wide_region : MEMORY_BASIC_INFORMATION :=
  {| BaseAddress := 0x10000; AllocationBase := 0x10000; RegionSize := 0xC00000;
     State := MEM_COMMIT; Protect := 4; Type_ := MEM_PRIVATE |}.

Definition wide_queries : list MEMORY_BASIC_INFORMATION :=
  [sample_free_region; wide_region].

(** The three blocks planned for [wide_region] with a pattern of 8 bytes. *)
Definition wide_blocks : list block :=
  [ {| ptr := 0x10000;  size := 0x400010; info_id := 0 |};
    {| ptr := 0x410000; size := 0x400010; info_id := 0 |};
    {| ptr := 0x810000; size := 0x400000; info_id := 0 |} ].


(** ** An instance of [parser_env] for examples *)

Definition isspace (c : ascii) : bool :=
  let n := N_of_ascii c in
  (n =? 32)%N || ((9 <=? n)%N && (n <=? 13)%N).

(** The value of a digit or letter as [strtoul] reads it. *)
Definition digit_value (c : ascii) : option Z :=
  let n := Z.of_N (N_of_ascii c) in
  if (48 <=? n) && (n <=? 57) then Some (n - 48)
  else if (97 <=? n) && (n <=? 122) then Some (n - 87)
  else if (65 <=? n) && (n <=? 90) then Some (n - 55)
  else None.

Definition is_digit_of (base : Z) (c : ascii) : bool :=
  match digit_value c with
  | Some d => d <? base
  | None => false
  end.

Fixpoint skip_spaces (s : string) : nat :=
  match s with
  | String c rest => if isspace c then S (skip_spaces rest) else O
  | EmptyString => O
  end.

(** The digits of [s] in [base]: their value and their number. *)
Fixpoint read_digits (base : Z) (s : string) (acc : Z) : Z * nat :=
  match s with
  | String c rest =>
      match digit_value c with
      | Some d =>
          if d <? base then
            let '(v, n) := read_digits base rest (acc * base + d) in (v, S n)
          else (acc, O)
      | None => (acc, O)
      end
  | EmptyString => (acc, O)
  end.

Definition drop (n : nat) (s : string) : string :=
  String.substring n (String.length s - n) s.

(** [ULONG_MAX] of a 32-bit [unsigned long]. *)
Definition ULONG_MAX : Z := 2 ^ 32 - 1.

(** [strtoul] of the C library for base 10 or 16: white space, an optional
    sign, for base 16 an optional 0x before a hexadecimal digit, then the
    digits.  The result is the value and the number of characters consumed,
    which is 0 when there is no digit to convert. *)
Definition strtoul_model (s : string) (base : Z) : Z * nat :=
  let ws := skip_spaces s in
  let s1 := drop ws s in
  let '(negative, sign) :=
    match s1 with
    | String "-" _ => (true, 1%nat)
    | String "+" _ => (false, 1%nat)
    | _ => (false, 0%nat)
    end in
  let s2 := drop sign s1 in
  let prefix :=
    match s2 with
    | String "0" (String x (String d _)) =>
        if (base =? 16) && (Ascii.eqb x "x" || Ascii.eqb x "X") && is_digit_of 16 d
        then 2%nat else 0%nat
    | _ => 0%nat
    end in
  let '(v, n) := read_digits base (drop prefix s2) 0 in
  match n with
  | O => (0, O)
  | S _ =>
      let v := if ULONG_MAX <? v then ULONG_MAX else v in
      (if negative then (2 ^ 32 - v) mod 2 ^ 32 else v, (ws + sign + prefix + n)%nat)
  end.

Fixpoint skip_word (s : string) : nat :=
  match s with
  | String c rest => if isspace c then O else S (skip_word rest)
  | EmptyString => O
  end.

(** A [skip_to_args]: the offset of the first character after the command
    word and the white space that follows it; nullptr when the line ends
    there. *)
Definition skip_to_args_model (cmd : string) (len : Z) : option nat :=
  let w := skip_word cmd in
  let off := (w + skip_spaces (drop w cmd))%nat in
  if (Z.of_nat off <? len) then Some off else None.

Fixpoint has_hex_letter (s : string) : bool :=
  match s with
  | String c rest =>
      let n := Z.of_N (N_of_ascii c) in
      ((97 <=? n) && (n <=? 102)) || ((65 <=? n) && (n <=? 70)) || has_hex_letter rest
  | EmptyString => false
  end.

(** Modelled from the spec: [is_hex] is declared in common.h, which is not
    part of the sources at hand; "hex is recognized by a [0x] prefix or by
    the presence of any hex-only digit". *)
Definition is_hex_model (args : string) (len : Z) : bool :=
  String.prefix "0x" args || has_hex_letter args.

Definition sample_env : parser_env :=
  {| skip_to_args := skip_to_args_model;
     is_hex := is_hex_model;
     strtoul := strtoul_model |}.

(** A process whose target is pid 4660. *)
Definition sample_ctx : process_context :=
  {| common := {| pattern := None; pattern_len := 0 |}; pid := 4660 |}.

(** ** Sample thread snapshot *)

(** Three threads of process 7: the lookup succeeds for the first (thread
    101, stack region of 0x3000 bytes at 0x7ff000), thread 102 cannot be
    opened, and the stack pointer of thread 103 lies in a reserved region. *)
Definition sample_threads_before : list ThreadList.THREADENTRY32 :=
  [ ThreadList.mkEntry 101 7 8 0; ThreadList.mkEntry 102 7 8 0 ].

Definition sample_thread_103 : ThreadList.THREADENTRY32 :=
  ThreadList.mkEntry 103 7 8 0.

Definition sample_thread_host : ThreadList.thread_host :=
  {| ThreadList.OpenThread := fun id => negb (id =? 102);
     ThreadList.VirtualQueryEx := fun id =>
       if id =? 101 then Some (mkMBI 0x7ff000 0x700000 0x3000 MEM_COMMIT 4 MEM_PRIVATE)
       else if id =? 103 then Some (mkMBI 0x900000 0x900000 0x1000 MEM_RESERVE 0 MEM_PRIVATE)
       else None |}.

(* ================================================================= *)
(** * Part I, continued: further notions and the rest of the file *)
(* ================================================================= *)

(** ** More about the plan *)

(** The test of lines 47-51: the region is committed and not smaller than
    the pattern. *)
Definition retained (pattern_len : Z) (q : MEMORY_BASIC_INFORMATION) : bool :=
  (State q =? MEM_COMMIT) && negb (RegionSize q <? pattern_len).

(** What the region walk maintains about neighbours in the block table: of
    two neighbours of one region, the first is a full block and the second
    starts one stride later. *)
Definition stride_inv (bs ideal : Z) (info : list MEMORY_BASIC_INFORMATION)
    (blocks : list block) : Prop :=
  (forall b, In b blocks -> (info_id b < length info)%nat) /\
  (forall i b1 b2,
      nth_error blocks i = Some b1 -> nth_error blocks (S i) = Some b2 ->
      info_id b1 = info_id b2 ->
      size b1 = ideal /\ ptr b2 = ptr b1 + bs /\ 0 < size b2 <= ideal).

(** A region of 64 KiB, too small for a second block. *)
Definition small_region : MEMORY_BASIC_INFORMATION :=
  {| BaseAddress := 0x30000; AllocationBase := 0x30000; RegionSize := 0x10000;
     State := MEM_COMMIT; Protect := 4; Type_ := MEM_PRIVATE |}.

(** [sample_cfg] with the stride factor set to 0. *)
Definition zero_stride_cfg : scan_config :=
  {| g_memory_limit := 0x100000;
     g_num_alloc_blocks := 0;
     g_max_omp_threads := 1;
     g_show_failed_readings := false;
     alloc_granularity := 0x10000;
     num_procs := 8 |}.

(** ** More about matching and printing *)

(** Every element differs from the one before it, the first from [prev]. *)
Fixpoint distinct_from_previous (prev : Z) (l : list Z) : Prop :=
  match l with
  | [] => True
  | x :: l' => x <> prev /\ distinct_from_previous x l'
  end.

(** ** Reading the REPL and the thread listing *)

(** A command run by [execute_command] had a target, or needs none. *)
Definition ran_with_target (o : repl_output) : Prop :=
  match o with
  | Executed cmd p => cmd = c_help \/ cmd = c_list_pids \/ p <> no_pid
  | _ => True
  end.

(** The thread ids of the rows of a listing, in order. *)
Definition listed_threads (out : list ThreadList.listing) : list Z :=
  flat_map (fun l => match l with
                     | ThreadList.ThreadRow id _ _ _ _ => [id]
                     | ThreadList.FailedStackBase => []
                     end) out.

(** ** Byte frequencies (lines 538-553) *)

Module Entropy.

Definition NUM_VALUES : nat := 0x100.

(** [struct entropy_context { size_t freq[NUM_VALUES]; }] *)
Record entropy_context : Type := mkEntropy {
  freq : list Z
}.

(** [entropy_init]: the memset of [freq]. *)
Definition entropy_init : entropy_context :=
  {| freq := repeat 0 NUM_VALUES |}.

(** [a[i]++] on an array of [size_t]. *)
Fixpoint increment (i : nat) (a : list Z) : list Z :=
  match a, i with
  | [], _ => []
  | x :: a', O => wrap_size_t (x + 1) :: a'
  | x :: a', S i' => x :: increment i' a'
  end.

(** [entropy_calculate_frequencies]: the loop over [data[0 .. size)]. *)
Fixpoint entropy_calculate_frequencies (ctx : entropy_context)
    (data : list byte) (size : nat) : entropy_context :=
  match size, data with
  | S size', b :: data' =>
      entropy_calculate_frequencies
        {| freq := increment (Byte.to_nat b) (freq ctx) |} data' size'
  | _, _ => ctx
  end.

(** How often [b] stands in [data]. *)
Definition occurrences (b : byte) (data : list byte) : Z :=
  Z.of_nat (count_occ Byte.byte_eq_dec data b).

(** The sum of an array of counters. *)
Definition total (a : list Z) : Z := fold_right Z.add 0 a.

End Entropy.

(** ** The heap traversal (lines 568-669) *)

Module HeapWalk.

Record HEAPENTRY32 : Type := mkHeapEntry {
  dwAddress   : Z;
  dwBlockSize : Z
}.

(** One turn of the inner do-while: the entry the snapshot gives and the
    answers of the host for it, namely whether [realloc] gives a buffer (when
    it is called) and what ReadProcessMemory does (when entropy is asked
    for). *)
Record visit : Type := mkVisit {
  he         : HEAPENTRY32;
  realloc_ok : bool;
  read       : read_outcome
}.

(** One heap of the list: its id, and the entries Heap32First and Heap32Next
    give, none when Heap32First fails. *)
Record heap : Type := mkHeap {
  th32HeapID : Z;
  visits     : list visit
}.

Inductive line : Type :=
| SnapshotFailed              (* "CreateToolhelp32Snapshot failed (%d)" *)
| CannotListFirstHeap         (* "Cannot list first heap (%d)" *)
| OpenProcessFailed           (* "Failed opening the process. ...", "Entropy won't be computed!" *)
| HeapId (id : Z)             (* "---- Heap ID: 0x%x ----" *)
| BlockLine (address size : Z) (* "Start address: 0x%p Block size: 0x%x" *)
| ReadFailed                  (* "Failed reading process memory. ..." *)
| AllocationFailed            (* "Buffer allocation faied! ..." *)
| Range (start_address end_address size : Z)
                              (* "Start Address", "End Address", "Size" *)
| EntropyOf (freq : list Z) (size : Z)
                              (* "Entropy: %.2F" of entropy_compute(&e_ctx, size) *)
| Blank.

(** The variables of lines 590-604. *)
Record walk_state : Type := mkWalk {
  start_address     : Z;
  end_address       : Z;
  last_block_size   : Z;
  max_block_size    : Z;
  ent_buffer        : list byte;
  e_ctx             : Entropy.entropy_context;
  total_size_blocks : Z
}.

(** Lines 636-640: the address range. *)
Definition track_range (st : walk_state) (e : HEAPENTRY32) : walk_state :=
  let start := Z.min (start_address st) (dwAddress e) in
  if end_address st <? dwAddress e then
    {| start_address := start;
       end_address := dwAddress e;
       last_block_size := dwBlockSize e;
       max_block_size := max_block_size st;
       ent_buffer := ent_buffer st;
       e_ctx := e_ctx st;
       total_size_blocks := total_size_blocks st |}
  else
    {| start_address := start;
       end_address := end_address st;
       last_block_size := last_block_size st;
       max_block_size := max_block_size st;
       ent_buffer := ent_buffer st;
       e_ctx := e_ctx st;
       total_size_blocks := total_size_blocks st |}.

(** Lines 613-634: the buffer, the read and the frequencies of one block.
    [None] is the [return FALSE] after a failed [realloc]. *)
Definition sample_block_bytes (st : walk_state) (v : visit)
    : option walk_state * list line :=
  let e := he v in
  let grow := max_block_size st <? dwBlockSize e in
  let max_block_size' := if grow then dwBlockSize e else max_block_size st in
  if grow && negb (realloc_ok v) then (None, [AllocationFailed])
  else
    let buffer := store_buffer (written (read v)) (ent_buffer st) in
    if res (read v) && (bytes_read (read v) =? dwBlockSize e) then
      (Some {| start_address := start_address st;
               end_address := end_address st;
               last_block_size := last_block_size st;
               max_block_size := max_block_size';
               ent_buffer := buffer;
               e_ctx := Entropy.entropy_calculate_frequencies (e_ctx st) buffer
                          (Z.to_nat (dwBlockSize e));
               total_size_blocks := wrap_size_t (total_size_blocks st + dwBlockSize e) |},
       [])
    else
      (Some {| start_address := start_address st;
               end_address := end_address st;
               last_block_size := last_block_size st;
               max_block_size := max_block_size';
               ent_buffer := buffer;
               e_ctx := e_ctx st;
               total_size_blocks := total_size_blocks st |},
       [BlockLine (dwAddress e) (dwBlockSize e); ReadFailed]).

(** The body of the inner do-while (lines 609-642). *)
Definition visit_block (list_blocks calculate_entropy : bool) (st : walk_state)
    (v : visit) : option walk_state * list line :=
  let listed :=
    if list_blocks then [BlockLine (dwAddress (he v)) (dwBlockSize (he v))] else [] in
  if calculate_entropy then
    match sample_block_bytes st v with
    | (Some st', out) => (Some (track_range st' (he v)), listed ++ out)
    | (None, out) => (None, listed ++ out)
    end
  else (Some (track_range st (he v)), listed).

(** The inner do-while over the entries of one heap. *)
Fixpoint walk_blocks (list_blocks calculate_entropy : bool) (st : walk_state)
    (vs : list visit) : option walk_state * list line :=
  match vs with
  | [] => (Some st, [])
  | v :: vs' =>
      match visit_block list_blocks calculate_entropy st v with
      | (Some st', out) =>
          let '(r, out') := walk_blocks list_blocks calculate_entropy st' vs' in
          (r, out ++ out')
      | (None, out) => (None, out)
      end
  end.

(** One turn of the outer do-while (lines 593-654) for the heap [h]; the
    state that survives from heap to heap is [e_ctx] and
    [total_size_blocks].  [None] is the [return FALSE]. *)
Definition walk_heap (list_blocks calculate_entropy : bool)
    (ctx : Entropy.entropy_context) (total : Z) (h : heap)
    : option (Entropy.entropy_context * Z) * list line :=
  match visits h with
  | [] => (Some (ctx, total), [])
  | first :: _ =>
      let st0 :=
        {| start_address := dwAddress (he first);
           end_address := dwAddress (he first);
           last_block_size := 0;
           max_block_size := 0;
           ent_buffer := [];
           e_ctx := if calculate_entropy then Entropy.entropy_init else ctx;
           total_size_blocks := total |} in
      match walk_blocks list_blocks calculate_entropy st0 (visits h) with
      | (Some st, out) =>
          let end_address := wrap_size_t (end_address st + last_block_size st) in
          (Some (e_ctx st, total_size_blocks st),
           HeapId (th32HeapID h) :: out
             ++ Range (start_address st) end_address
                  (wrap_size_t (end_address - start_address st))
             :: (if calculate_entropy
                 then [EntropyOf (Entropy.freq (e_ctx st)) (total_size_blocks st)]
                 else []))
      | (None, out) => (None, HeapId (th32HeapID h) :: out)
      end
  end.

(** The outer do-while over the heaps of the snapshot. *)
Fixpoint walk_heaps (list_blocks calculate_entropy : bool)
    (ctx : Entropy.entropy_context) (total : Z) (heaps : list heap)
    : bool * list line :=
  match heaps with
  | [] => (true, [])
  | h :: heaps' =>
      match walk_heap list_blocks calculate_entropy ctx total h with
      | (Some (ctx', total'), out) =>
          let '(completed, out') :=
            walk_heaps list_blocks calculate_entropy ctx' total' heaps' in
          (completed, out ++ out')
      | (None, out) => (false, out)
      end
  end.

(** [traverse_heap_list].  [snapshot] is [None] when the snapshot cannot be
    taken and the empty list when Heap32ListFirst fails; [process_opened]
    tells whether OpenProcess gives a handle (it is asked only for the
    entropy); [garbage] is what the uninitialised [e_ctx] holds.  The
    result is the value returned and the lines printed. *)
Definition traverse_heap_list (snapshot : option (list heap))
    (process_opened : bool) (garbage : Entropy.entropy_context)
    (list_blocks calculate_entropy : bool) : Z * list line :=
  match snapshot with
  | None => (1, [SnapshotFailed])
  | Some [] => (0, [CannotListFirstHeap; Blank])
  | Some heaps =>
      let '(calculate_entropy, opening) :=
        if calculate_entropy then
          if process_opened then (true, []) else (false, [OpenProcessFailed])
        else (false, []) in
      match walk_heaps list_blocks calculate_entropy garbage 0 heaps with
      | (true, out) => (0, opening ++ out ++ [Blank])
      | (false, out) => (0, opening ++ out)
      end
  end.

(** The bytes of the blocks of [vs] whose read returned in full. *)
Definition bytes_sampled (vs : list visit) : Z :=
  fold_right
    (fun v n =>
       (if res (read v) && (bytes_read (read v) =? dwBlockSize (he v))
        then dwBlockSize (he v) else 0) + n)
    0 vs.

End HeapWalk.

(** ** Notions used to state the properties of the heap traversal *)

(** The buffer can be had for every block that asks for one. *)
Definition never_out_of_memory (calculate_entropy : bool)
    (vs : list HeapWalk.visit) : Prop :=
  calculate_entropy = false \/ Forall (fun v => HeapWalk.realloc_ok v = true) vs.

(** The host answers consistently for the block: [realloc] gives a buffer,
    the size is a [size_t], and the read wrote as many bytes as it
    reports. *)
Definition visit_ok (v : HeapWalk.visit) : Prop :=
  HeapWalk.realloc_ok v = true /\
  0 <= HeapWalk.dwBlockSize (HeapWalk.he v) /\
  length (written (HeapWalk.read v)) = Z.to_nat (bytes_read (HeapWalk.read v)).

(** The bytes sampled over the heaps of a list. *)
Definition heaps_sampled (heaps : list HeapWalk.heap) : Z :=
  fold_right (fun h n => HeapWalk.bytes_sampled (HeapWalk.visits h) + n) 0 heaps.

(** The bytes that the reads of the blocks of [vs] returned, for the blocks
    read in full, in the order of the walk. *)
Definition sampled_data (vs : list HeapWalk.visit) : list byte :=
  flat_map
    (fun v =>
       if res (HeapWalk.read v)
          && (bytes_read (HeapWalk.read v) =? HeapWalk.dwBlockSize (HeapWalk.he v))
       then written (HeapWalk.read v) else [])
    vs.

(** A heap of three blocks given lowest first, and a heap of one block. *)
Definition sample_heap : HeapWalk.heap :=
  HeapWalk.mkHeap 1
    [ HeapWalk.mkVisit (HeapWalk.mkHeapEntry 0x1000 0x20) true
        (mkRead true 0x20 (repeat byte_A 0x20));
      HeapWalk.mkVisit (HeapWalk.mkHeapEntry 0x3000 0x40) true
        (mkRead true 0x40 (repeat Byte.x00 0x40));
      HeapWalk.mkVisit (HeapWalk.mkHeapEntry 0x2000 0x10) true
        (mkRead false 0 []) ].

Definition one_block_heap : HeapWalk.heap :=
  HeapWalk.mkHeap 2
    [ HeapWalk.mkVisit (HeapWalk.mkHeapEntry 0x5000 0x100) true
        (mkRead true 0x100 (repeat byte_A 0x100)) ].

(** A line printed for a single block. *)
Definition block_line (l : HeapWalk.line) : Prop :=
  match l with
  | HeapWalk.BlockLine _ _ | HeapWalk.ReadFailed | HeapWalk.AllocationFailed => True
  | _ => False
  end.


(** A heap whose second block needs a larger buffer that cannot be had. *)
Definition starved_heap : HeapWalk.heap :=
  HeapWalk.mkHeap 3
    [ HeapWalk.mkVisit (HeapWalk.mkHeapEntry 0x1000 0x20) true
        (mkRead true 0x20 (repeat byte_A 0x20));
      HeapWalk.mkVisit (HeapWalk.mkHeapEntry 0x2000 0x40) false
        (mkRead true 0x40 (repeat Byte.x00 0x40));
      HeapWalk.mkVisit (HeapWalk.mkHeapEntry 0x3000 0x10) true
        (mkRead true 0x10 (repeat Byte.x00 0x10)) ].

(** ** More about the trace of a scan *)




(** ** The warning of print_error (lines 671-691) *)

Module PrintError.

(** The tests of the two loops of lines 684-687, on the value of a TCHAR. *)
Definition in_line (c : Z) : bool := (31 <? c) || (c =? 9).

Definition trimmed (c : Z) : bool := (c =? 46) || (c <? 33).

(** The loop of lines 684-685, which advances [p] while [in_line] holds of
    the character under it, with [p] at the head of [buf]; [None] when the
    loop runs off the buffer. *)
Fixpoint skip_line (buf : list Z) (p : nat) : option nat :=
  match buf with
  | [] => None
  | c :: buf' => if in_line c then skip_line buf' (S p) else Some p
  end.

(** [sysMsg[p] = 0] *)
Fixpoint poke (p : nat) (sysMsg : list Z) : list Z :=
  match sysMsg, p with
  | [], _ => []
  | _ :: rest, O => 0 :: rest
  | c :: rest, S p' => c :: poke p' rest
  end.

(** The do-while of lines 686-687, with [p] an index into [sysMsg]: a null
    is stored at [p] and [p] steps back, as long as [p] is still inside the
    buffer and [trimmed] holds of the character under it. *)
Fixpoint trim_end (sysMsg : list Z) (p : nat) : list Z :=
  let sysMsg := poke p sysMsg in
  match p with
  | O => sysMsg
  | S p' => if trimmed (nth p' sysMsg 0) then trim_end sysMsg p' else sysMsg
  end.

(** What [%s] shows of a buffer: the characters before the first null. *)
Fixpoint c_string (buf : list Z) : list Z :=
  match buf with
  | [] => []
  | c :: buf' => if c =? 0 then [] else c :: c_string buf'
  end.

(** "WARNING: %s failed with error %d (%s)" *)
Record warning : Type := mkWarning {
  w_msg    : string;
  w_eNum   : Z;
  w_sysMsg : list Z
}.

(** [print_error]; [eNum] is what GetLastError returns and [sysMsg] the
    buffer as FormatMessage leaves it. *)
Definition print_error (msg : string) (eNum : Z) (sysMsg : list Z)
    : option warning :=
  match skip_line sysMsg 0 with
  | None => None
  | Some p =>
      Some {| w_msg := msg; w_eNum := eNum;
              w_sysMsg := c_string (trim_end sysMsg p) |}
  end.

End PrintError.

(** "Access is denied", the same followed by a period, and the buffer that
    FormatMessage fills for error 5: the message, a line break, the null. *)
Definition access_is_denied : list Z :=
  [65; 99; 99; 101; 115; 115; 32; 105; 115; 32; 100; 101; 110; 105; 101; 100].

Definition access_is_denied_line : list Z := access_is_denied ++ [46].

Definition access_is_denied_buffer : list Z := access_is_denied_line ++ [13; 10; 0].

(** ** The process listing (lines 356-410) *)

Module ProcessList.

Record PROCESSENTRY32 : Type := mkProcessEntry {
  szExeFile           : string;
  th32ProcessID       : Z;
  cntThreads          : Z;
  th32ParentProcessID : Z;
  pcPriClassBase      : Z
}.

(** One turn of the loop: the entry of the snapshot and the answers of the
    host for it, namely whether OpenProcess gives a handle and what
    GetPriorityClass returns for it. *)
Record visit : Type := mkVisit {
  pe32             : PROCESSENTRY32;
  opened           : bool;
  GetPriorityClass : Z
}.

Inductive line : Type :=
| Failed (what : string)                 (* print_error(what) *)
| ProcessName (name : string)
| ProcessInfo (pid threads parent base : Z)
| PriorityClass (dwPriorityClass : Z).

(** The body of the do-while (lines 383-404).  [dwPriorityClass] is declared
    outside the loop and set to 0 at the head of every turn. *)
Definition process_body (v : visit) : list line :=
  let dwPriorityClass := 0 in
  let '(dwPriorityClass, errors) :=
    if negb (opened v) then (dwPriorityClass, [Failed "OpenProcess"%string])
    else
      let dwPriorityClass := GetPriorityClass v in
      (dwPriorityClass,
       if dwPriorityClass =? 0 then [Failed "GetPriorityClass"%string] else []) in
  ProcessName (szExeFile (pe32 v)) :: errors
    ++ ProcessInfo (th32ProcessID (pe32 v)) (cntThreads (pe32 v))
         (th32ParentProcessID (pe32 v)) (pcPriClassBase (pe32 v))
    :: (if negb (dwPriorityClass =? 0) then [PriorityClass dwPriorityClass] else []).

(** [list_processes]: [None] when the snapshot cannot be taken, the empty
    list when Process32First fails. *)
Definition list_processes (snapshot : option (list visit)) : bool * list line :=
  match snapshot with
  | None => (false, [Failed "CreateToolhelp32Snapshot (of processes)"%string])
  | Some [] => (false, [Failed "Process32First"%string])
  | Some vs => (true, flat_map process_body vs)
  end.

Definition is_failed (l : line) : bool :=
  match l with Failed _ => true | _ => false end.

(** The values of the "Priority class" lines, in order. *)
Definition priority_classes (out : list line) : list Z :=
  flat_map (fun l => match l with PriorityClass c => [c] | _ => [] end) out.

(** The names of the "PROCESS NAME" lines, in order. *)
Definition process_names (out : list line) : list string :=
  flat_map (fun l => match l with ProcessName n => [n] | _ => [] end) out.

(** The priority class the host gives for a process, 0 when it gives none. *)
Definition class_of (v : visit) : Z :=
  if opened v then GetPriorityClass v else 0.

End ProcessList.

(** ** The module listing (lines 412-451) *)

Module ModuleList.

Record MODULEENTRY32 : Type := mkModuleEntry {
  szModule      : string;
  szExePath     : string;
  th32ProcessID : Z;
  GlblcntUsage  : Z;
  ProccntUsage  : Z;
  modBaseAddr   : Z;
  modBaseSize   : Z
}.

Inductive line : Type :=
| Failed (what : string)                 (* print_error(what) *)
| ModuleRow (name path : string) (pid glbl proc base size : Z)
| Blank.

(** [(DWORD)me32.modBaseAddr] *)
Definition to_DWORD (p : Z) : Z := p mod 2 ^ 32.

(** The body of the do-while (lines 437-443). *)
Definition module_row (me32 : MODULEENTRY32) : line :=
  ModuleRow (szModule me32) (szExePath me32) (th32ProcessID me32)
    (GlblcntUsage me32) (ProccntUsage me32) (to_DWORD (modBaseAddr me32))
    (modBaseSize me32).

(** [list_process_modules]: [None] when the snapshot cannot be taken, the
    empty list when Module32First fails. *)
Definition list_process_modules (snapshot : option (list MODULEENTRY32))
    : bool * list line :=
  match snapshot with
  | None => (false, [Failed "CreateToolhelp32Snapshot (of modules)"%string])
  | Some [] => (false, [Failed "Module32First"%string])
  | Some ms => (true, map module_row ms ++ [Blank])
  end.

(** The base addresses shown, in order. *)
Definition shown_bases (out : list line) : list Z :=
  flat_map (fun l => match l with ModuleRow _ _ _ _ _ base _ => [base] | _ => [] end) out.

End ModuleList.

(** A module loaded above 4 GiB, as images of 64-bit processes are. *)
Definition high_module : ModuleList.MODULEENTRY32 :=
  ModuleList.mkModuleEntry "app.exe"%string "C:\app.exe"%string 42 1 1 0x7FF612340000 0x5000.
(* ================================================================= *)
(** * Part II: properties *)
(* ================================================================= *)

(** ** Arithmetic of the helpers *)

Lemma wrap_size_t_small z : 0 <= z < size_t_modulus -> wrap_size_t z = z.
Proof. intros H. unfold wrap_size_t. now apply Z.mod_small. Qed.

Lemma multiple_of_n_ge x n : 0 < n -> x <= multiple_of_n x n.
Proof.
  intros Hn. unfold multiple_of_n.
  pose proof (Z.div_mod (x + n - 1) n ltac:(lia)) as Hdm.
  pose proof (Z.mod_pos_bound (x + n - 1) n Hn) as Hb.
  nia.
Qed.

Lemma multiple_of_n_lt x n : 0 < n -> multiple_of_n x n < x + n.
Proof.
  intros Hn. unfold multiple_of_n.
  pose proof (Z.div_mod (x + n - 1) n ltac:(lia)) as Hdm.
  pose proof (Z.mod_pos_bound (x + n - 1) n Hn) as Hb.
  nia.
Qed.

Lemma multiple_of_n_divides x n : 0 < n -> (multiple_of_n x n) mod n = 0.
Proof. intros Hn. unfold multiple_of_n. apply Z.mod_mul. lia. Qed.

Lemma extra_chunk_ge pattern_len : pattern_len <= extra_chunk pattern_len.
Proof. apply multiple_of_n_ge. reflexivity. Qed.

(** ** The block planner *)

Section PlanRegion.

Variables (bs ideal _p : Z) (id : nat).
Hypothesis Hbs : 0 < bs.
Hypothesis Hideal : bs <= ideal.


(** One iteration on a region that still holds a full block. *)
Lemma plan_region_full fuel region_size bytes_offset :
  ideal <= region_size ->
  0 <= bytes_offset -> bytes_offset + region_size + bs < size_t_modulus ->
  plan_region (S fuel) bs ideal _p id region_size bytes_offset =
  match plan_region fuel bs ideal _p id (region_size - bs) (bytes_offset + bs) with
  | None => None
  | Some rest =>
      Some ({| ptr := _p + bytes_offset; size := ideal; info_id := id |} :: rest)
  end.
Proof.
  intros Hge Hoff Hmax. cbn [plan_region].
  destruct (Z.eqb_spec region_size 0) as [E|_]; [lia|].
  destruct (Z.leb_spec ideal region_size) as [_|C]; [|lia].
  rewrite !wrap_size_t_small by lia. reflexivity.
Qed.

(** The last iteration: what remains is shorter than a full block. *)
Lemma plan_region_last fuel region_size bytes_offset :
  0 < region_size < ideal ->
  plan_region (S fuel) bs ideal _p id region_size bytes_offset =
  Some [{| ptr := _p + bytes_offset; size := region_size; info_id := id |}].
Proof.
  intros Hlt. cbn [plan_region].
  destruct (Z.eqb_spec region_size 0) as [E|_]; [lia|].
  destruct (Z.leb_spec ideal region_size) as [C|_]; [lia|].
  destruct fuel; reflexivity.
Qed.

Lemma plan_region_zero fuel bytes_offset :
  plan_region fuel bs ideal _p id 0 bytes_offset = Some [].
Proof. destruct fuel; reflexivity. Qed.

Lemma plan_fuel_step region_size :
  bs <= region_size ->
  Z.to_nat (region_size / bs) = S (Z.to_nat ((region_size - bs) / bs)).
Proof.
  intros Hge.
  replace region_size with ((region_size - bs) + 1 * bs) at 1 by lia.
  rewrite Z.div_add by lia.
  assert (0 <= (region_size - bs) / bs) by (apply Z.div_pos; lia).
  lia.
Qed.

(** The loop ends: [plan_fuel] iterations are enough. *)
Lemma plan_region_terminates fuel : forall region_size bytes_offset,
  0 <= region_size -> 0 <= bytes_offset ->
  bytes_offset + region_size + bs < size_t_modulus ->
  (Z.to_nat (region_size / bs) < fuel)%nat ->
  exists planned, plan_region fuel bs ideal _p id region_size bytes_offset = Some planned.
Proof.
  induction fuel as [|fuel IH]; intros R off HR Hoff Hmax Hfuel; [lia|].
  destruct (Z.eq_dec R 0) as [->|Hnz].
  - rewrite plan_region_zero. eauto.
  - destruct (Z_le_gt_dec ideal R) as [Hge|Hlt].
    + rewrite plan_region_full by lia.
      destruct (IH (R - bs) (off + bs)) as [rest ->]; try lia.
      * rewrite (plan_fuel_step R) in Hfuel by lia. lia.
      * eauto.
    + rewrite plan_region_last by lia. eauto.
Qed.

(** Every planned block lies inside the region, is not empty, is at most
    [ideal] bytes long and points back to the region. *)
Lemma plan_region_blocks fuel : forall region_size bytes_offset planned,
  0 <= region_size -> 0 <= bytes_offset ->
  bytes_offset + region_size + bs < size_t_modulus ->
  plan_region fuel bs ideal _p id region_size bytes_offset = Some planned ->
  forall b, In b planned ->
    _p + bytes_offset <= ptr b /\
    ptr b + size b <= _p + bytes_offset + region_size /\
    0 < size b <= ideal /\ info_id b = id.
Proof.
  induction fuel as [|fuel IH]; intros R off planned HR Hoff Hmax Hplan b Hin.
  - cbn [plan_region] in Hplan.
    destruct (Z.eqb_spec R 0); [|discriminate].
    injection Hplan as <-. destruct Hin.
  - destruct (Z.eq_dec R 0) as [->|Hnz].
    { rewrite plan_region_zero in Hplan. injection Hplan as <-. destruct Hin. }
    destruct (Z_le_gt_dec ideal R) as [Hge|Hlt].
    + rewrite plan_region_full in Hplan by lia.
      destruct (plan_region fuel bs ideal _p id (R - bs) (off + bs)) as [rest|] eqn:Hrest;
        [|discriminate].
      injection Hplan as <-. destruct Hin as [<-|Hin]; cbn [ptr size info_id].
      * repeat split; lia.
      * specialize (IH (R - bs) (off + bs) rest ltac:(lia) ltac:(lia) ltac:(lia) Hrest b Hin). lia.
    + rewrite plan_region_last in Hplan by lia. injection Hplan as <-.
      destruct Hin as [<-|[]]; cbn [ptr size info_id]. repeat split; lia.
Qed.

(** The first planned block starts at the cursor. *)
Lemma plan_region_head fuel region_size bytes_offset b rest :
  0 <= region_size -> 0 <= bytes_offset ->
  bytes_offset + region_size + bs < size_t_modulus ->
  plan_region fuel bs ideal _p id region_size bytes_offset = Some (b :: rest) ->
  ptr b = _p + bytes_offset /\ size b = Z.min ideal region_size.
Proof.
  intros HR Hoff Hmax Hplan. destruct fuel as [|fuel].
  - cbn [plan_region] in Hplan. destruct (Z.eqb_spec region_size 0); discriminate.
  - destruct (Z.eq_dec region_size 0) as [->|Hnz].
    { rewrite plan_region_zero in Hplan. discriminate. }
    destruct (Z_le_gt_dec ideal region_size) as [Hge|Hlt].
    + rewrite plan_region_full in Hplan by lia.
      destruct (plan_region fuel bs ideal _p id _ _); [|discriminate].
      injection Hplan as <- _. cbn [ptr size]. lia.
    + rewrite plan_region_last in Hplan by lia.
      injection Hplan as <- _. cbn [ptr size]. lia.
Qed.

(** A range of at most [ideal - bs] bytes inside the region lies inside one
    planned block. *)
Lemma plan_region_covers fuel : forall region_size bytes_offset planned o n,
  0 <= region_size -> 0 <= bytes_offset ->
  bytes_offset + region_size + bs < size_t_modulus ->
  plan_region fuel bs ideal _p id region_size bytes_offset = Some planned ->
  0 <= o -> 0 < n <= ideal - bs -> o + n <= region_size ->
  exists b, In b planned /\ block_contains b (_p + bytes_offset + o) n.
Proof.
  induction fuel as [|fuel IH]; intros R off planned o n HR Hoff Hmax Hplan Ho Hn Hfit.
  - cbn [plan_region] in Hplan. destruct (Z.eqb_spec R 0); [lia|discriminate].
  - destruct (Z_le_gt_dec ideal R) as [Hge|Hlt].
    + rewrite plan_region_full in Hplan by lia.
      destruct (plan_region fuel bs ideal _p id (R - bs) (off + bs)) as [rest|] eqn:Hrest;
        [|discriminate].
      injection Hplan as <-.
      destruct (Z_lt_ge_dec o bs) as [Hfirst|Hlater].
      * eexists. split; [left; reflexivity|].
        unfold block_contains; cbn [ptr size]. lia.
      * destruct (IH (R - bs) (off + bs) rest (o - bs) n ltac:(lia) ltac:(lia) ltac:(lia) Hrest
                    ltac:(lia) Hn ltac:(lia)) as (b & Hin & Hc).
        exists b. split; [right; exact Hin|].
        unfold block_contains in *. lia.
    + rewrite plan_region_last in Hplan by lia. injection Hplan as <-.
      eexists. split; [left; reflexivity|].
      unfold block_contains; cbn [ptr size]. lia.
Qed.

(** Two consecutive planned blocks share exactly [ideal - bs] bytes. *)
Lemma plan_region_adjacent fuel : forall region_size bytes_offset planned i b1 b2,
  0 <= region_size -> 0 <= bytes_offset ->
  bytes_offset + region_size + bs < size_t_modulus ->
  plan_region fuel bs ideal _p id region_size bytes_offset = Some planned ->
  nth_error planned i = Some b1 -> nth_error planned (S i) = Some b2 ->
  inter_len b1 b2 = ideal - bs.
Proof.
  induction fuel as [|fuel IH]; intros R off planned i b1 b2 HR Hoff Hmax Hplan H1 H2.
  - cbn [plan_region] in Hplan. destruct (Z.eqb_spec R 0); [|discriminate].
    injection Hplan as <-. destruct i; discriminate.
  - destruct (Z.eq_dec R 0) as [->|Hnz].
    { rewrite plan_region_zero in Hplan. injection Hplan as <-. destruct i; discriminate. }
    destruct (Z_le_gt_dec ideal R) as [Hge|Hlt].
    + rewrite plan_region_full in Hplan by lia.
      destruct (plan_region fuel bs ideal _p id (R - bs) (off + bs)) as [rest|] eqn:Hrest;
        [|discriminate].
      injection Hplan as <-. destruct i as [|i]; cbn [nth_error] in H1, H2.
      * injection H1 as <-. destruct rest as [|b rest]; [discriminate|].
        cbn [nth_error] in H2. injection H2 as ->.
        destruct (plan_region_head fuel (R - bs) (off + bs) b2 rest ltac:(lia) ltac:(lia) ltac:(lia) Hrest)
          as [Hp Hs].
        unfold inter_len; cbn [ptr size]. rewrite Hp, Hs. lia.
      * eapply (IH (R - bs) (off + bs)); eauto; lia.
    + rewrite plan_region_last in Hplan by lia. injection Hplan as <-.
      destruct i as [|[|i]]; discriminate.
Qed.

End PlanRegion.

(** ** The region walk *)

Section RegionWalk.

Variables (pattern_len bs ideal : Z).
Hypothesis Hbs : 0 < bs.
Hypothesis Hideal : bs <= ideal.

Lemma enumerate_regions_terminates queries : forall _p info blocks,
  queries_ok bs queries ->
  exists r, enumerate_regions pattern_len bs ideal queries _p info blocks = Some r.
Proof.
  induction queries as [|q rest IH]; intros p info blocks Hok; cbn [enumerate_regions].
  - eauto.
  - inversion Hok as [|? ? [Hq0 Hq1] Hrest]; subst.
    destruct (State q =? MEM_COMMIT); [|now apply IH].
    destruct (RegionSize q <? pattern_len); [now apply IH|].
    destruct (plan_region_terminates bs ideal p (length (info ++ [q]) - 1) Hbs Hideal
                (plan_fuel bs (RegionSize q)) (RegionSize q) 0) as [planned ->];
      try lia.
    + unfold plan_fuel. lia.
    + now apply IH.
Qed.

(** The walk only appends to its tables. *)
Lemma enumerate_regions_extends queries : forall _p info blocks info' blocks',
  enumerate_regions pattern_len bs ideal queries _p info blocks = Some (info', blocks') ->
  exists i2 b2, info' = info ++ i2 /\ blocks' = blocks ++ b2.
Proof.
  induction queries as [|q rest IH]; intros p info blocks info' blocks' H;
    cbn [enumerate_regions] in H.
  - injection H as <- <-. exists [], []. now rewrite !app_nil_r.
  - destruct (State q =? MEM_COMMIT); [|now apply IH in H].
    destruct (RegionSize q <? pattern_len); [now apply IH in H|].
    destruct (plan_region _ _ _ _ _ _ _) as [planned|]; [|discriminate].
    apply IH in H. destruct H as (i2 & b2 & -> & ->).
    exists (q :: i2), (planned ++ b2). now rewrite <- !app_assoc.
Qed.

Lemma nth_error_app_pair {A} (l1 l2 : list A) i x y :
  nth_error (l1 ++ l2) i = Some x -> nth_error (l1 ++ l2) (S i) = Some y ->
  (nth_error l1 i = Some x /\ nth_error l1 (S i) = Some y) \/
  (In x l1 /\ In y l2) \/
  (exists j, nth_error l2 j = Some x /\ nth_error l2 (S j) = Some y).
Proof.
  intros Hx Hy.
  destruct (Nat.lt_ge_cases (S i) (length l1)) as [Hlt|Hge].
  - left. rewrite nth_error_app1 in Hx, Hy by lia. auto.
  - destruct (Nat.lt_ge_cases i (length l1)) as [Hlt|Hge'].
    + right; left. rewrite nth_error_app1 in Hx by lia.
      rewrite nth_error_app2 in Hy by lia.
      split; eapply nth_error_In; eauto.
    + right; right. rewrite nth_error_app2 in Hx, Hy by lia.
      exists (i - length l1)%nat. split; [exact Hx|].
      replace (S (i - length l1)) with (S i - length l1)%nat by lia. exact Hy.
Qed.

(** The walk keeps [plan_inv]. *)
Lemma enumerate_regions_inv queries : forall _p info blocks info' blocks',
  queries_ok bs queries ->
  plan_inv bs ideal info blocks ->
  enumerate_regions pattern_len bs ideal queries _p info blocks = Some (info', blocks') ->
  plan_inv bs ideal info' blocks'.
Proof.
  induction queries as [|q rest IH]; intros p info blocks info' blocks' Hok Hinv H;
    cbn [enumerate_regions] in H.
  - now injection H as <- <-.
  - inversion Hok as [|? ? [Hq0 Hq1] Hrest]; subst.
    destruct (State q =? MEM_COMMIT); [|now eapply IH; eauto].
    destruct (RegionSize q <? pattern_len); [now eapply IH; eauto|].
    destruct (plan_region _ _ _ _ _ _ _) as [planned|] eqn:Hplan; [|discriminate].
    eapply IH; [exact Hrest| |exact H].
    pose proof (fun HR Ho Hm => plan_region_blocks bs ideal p _ Hbs Hideal _ _ _ _
                  HR Ho Hm Hplan) as Hbl.
    specialize (Hbl ltac:(lia) ltac:(lia) ltac:(lia)).
    destruct Hinv as [Hin Hadj]. rewrite length_app in *. cbn [length] in *.
    split.
    + intros b Hb. apply in_app_or in Hb. destruct Hb as [Hb|Hb].
      * destruct (Hin b Hb). split; [|assumption].
        rewrite length_app; cbn [length]; lia.
      * destruct (Hbl b Hb) as (_ & _ & Hs & Hid). split; [|exact Hs].
        rewrite length_app; cbn [length]; lia.
    + intros i b1 b2 H1 H2 Hsame.
      destruct (nth_error_app_pair _ _ _ _ _ H1 H2)
        as [[G1 G2]|[[G1 G2]|(j & G1 & G2)]].
      * eapply Hadj; eauto.
      * destruct (Hin b1 G1) as [Hlt _]. destruct (Hbl b2 G2) as (_ & _ & _ & Hid). lia.
      * eapply (plan_region_adjacent bs ideal p _ Hbs Hideal _ (RegionSize q) 0 planned j);
          [| | |exact Hplan|exact G1|exact G2]; lia.
Qed.

Lemma cursor_after_cons _p q pre :
  cursor_after _p (q :: pre) = cursor_after (_p + RegionSize q) pre.
Proof. reflexivity. Qed.

(** A short range inside a retained region lies inside one block planned for
    that region. *)
Lemma enumerate_regions_covers pre : forall _p info blocks info' blocks' r post o n,
  queries_ok bs (pre ++ r :: post) ->
  enumerate_regions pattern_len bs ideal (pre ++ r :: post) _p info blocks
    = Some (info', blocks') ->
  State r = MEM_COMMIT -> pattern_len <= RegionSize r ->
  0 <= o -> 0 < n <= ideal - bs -> o + n <= RegionSize r ->
  exists b, In b blocks' /\ block_contains b (cursor_after _p pre + o) n /\
            nth_error info' (info_id b) = Some r.
Proof.
  induction pre as [|q pre IH]; intros p info blocks info' blocks' r post o n
    Hok H Hst Hlen Ho Hn Hfit.
  - cbn [app enumerate_regions] in H. rewrite Hst, Z.eqb_refl in H.
    destruct (Z.ltb_spec (RegionSize r) pattern_len) as [C|_]; [lia|].
    inversion Hok as [|? ? [Hq0 Hq1] Hrest]; subst.
    destruct (plan_region _ _ _ _ _ _ _) as [planned|] eqn:Hplan; [|discriminate].
    pose proof (fun HR Ho' Hm => plan_region_covers bs ideal p _ Hbs Hideal _ _ _ _ o n
                HR Ho' Hm Hplan Ho Hn Hfit) as Hcov.
    destruct (Hcov ltac:(lia) ltac:(lia) ltac:(lia)) as (b & Hb & Hc).
    pose proof (fun HR Ho' Hm => plan_region_blocks bs ideal p _ Hbs Hideal _ _ _ _
                  HR Ho' Hm Hplan b Hb) as Hbl.
    destruct (Hbl ltac:(lia) ltac:(lia) ltac:(lia)) as (_ & _ & _ & Hid).
    apply enumerate_regions_extends in H. destruct H as (i2 & b2 & -> & ->).
    exists b. split; [|split].
    + apply in_or_app. left. apply in_or_app. now right.
    + unfold cursor_after. cbn [fold_left]. now rewrite Z.add_0_r in Hc.
    + rewrite Hid, length_app. cbn [length].
      replace (length info + 1 - 1)%nat with (length info) by lia.
      rewrite <- app_assoc. rewrite nth_error_app2 by lia.
      now rewrite Nat.sub_diag.
  - cbn [app] in H, Hok. inversion Hok as [|? ? _ Hrest]; subst.
    rewrite cursor_after_cons. cbn [enumerate_regions] in H.
    destruct (State q =? MEM_COMMIT); [|now eapply IH; eauto].
    destruct (RegionSize q <? pattern_len); [now eapply IH; eauto|].
    destruct (plan_region _ _ _ _ _ _ _) as [planned|]; [|discriminate].
    eapply IH; eauto.
Qed.

End RegionWalk.

(** ** The plan of a scan *)

Section Plan.

Variables (cfg : scan_config) (pattern_len : Z).
Hypothesis Hstride : 0 < alloc_granularity cfg * g_num_alloc_blocks cfg.
Hypothesis Hlen : 0 <= pattern_len.
Hypothesis Hrange :
  alloc_granularity cfg * g_num_alloc_blocks cfg + extra_chunk pattern_len
    < size_t_modulus.

Lemma extra_chunk_nonneg : 0 <= extra_chunk pattern_len.
Proof. pose proof (extra_chunk_ge pattern_len). lia. Qed.

Lemma block_size_exact :
  block_size cfg = alloc_granularity cfg * g_num_alloc_blocks cfg.
Proof.
  unfold block_size. apply wrap_size_t_small.
  pose proof extra_chunk_nonneg. lia.
Qed.

Lemma bytes_to_read_ideal_exact :
  bytes_to_read_ideal cfg pattern_len = block_size cfg + extra_chunk pattern_len.
Proof.
  unfold bytes_to_read_ideal. rewrite block_size_exact.
  apply wrap_size_t_small. pose proof extra_chunk_nonneg. lia.
Qed.

Lemma block_size_pos : 0 < block_size cfg.
Proof. rewrite block_size_exact. exact Hstride. Qed.

Lemma ideal_ge_block_size : block_size cfg <= bytes_to_read_ideal cfg pattern_len.
Proof. rewrite bytes_to_read_ideal_exact. pose proof extra_chunk_nonneg. lia. Qed.

Lemma plan_inv_nil bs ideal : plan_inv bs ideal [] [].
Proof.
  split.
  - intros b [].
  - intros [|i] b1 b2 H; discriminate.
Qed.

(** The planner ends and its tables satisfy [plan_inv]. *)
Lemma plan_blocks_ok queries :
  queries_ok (block_size cfg) queries ->
  exists info blocks,
    plan_blocks cfg pattern_len queries = Some (info, blocks) /\
    plan_inv (block_size cfg) (bytes_to_read_ideal cfg pattern_len) info blocks.
Proof.
  intros Hok. unfold plan_blocks.
  destruct (enumerate_regions_terminates pattern_len _ _ block_size_pos
              ideal_ge_block_size queries 0 [] [] Hok) as [[info blocks] Hrun].
  exists info, blocks. split; [exact Hrun|].
  eapply enumerate_regions_inv; eauto using block_size_pos, ideal_ge_block_size,
    plan_inv_nil.
Qed.

End Plan.

(** The arithmetic facts about the stride and the ideal block size that the
    proofs below hand to [lia]. *)
Ltac plan_facts cfg pattern_len Hstride Hlen Hrange :=
  pose proof (bytes_to_read_ideal_exact cfg pattern_len Hstride Hlen Hrange);
  pose proof (block_size_exact cfg pattern_len Hstride Hlen Hrange);
  pose proof (extra_chunk_ge pattern_len).

(** C4.  For every pair of consecutive blocks planned for one region (two
    neighbours of the block table with the same [info_id]), the two address
    ranges share exactly [overlap] bytes, where [overlap] is [pattern_len]
    rounded up to a multiple of 16: a multiple of 16 that is at least
    [pattern_len] and less than [pattern_len + 16].  This includes the case
    where the second block is the last, shorter block of the region.  The
    planner is run on any sequence of answers of the region query; it ends
    and returns its two tables. *)
Theorem adjacent_blocks_overlap_exactly
    (cfg : scan_config) (pattern_len : Z) (queries : list MEMORY_BASIC_INFORMATION)
    (Hstride : 0 < alloc_granularity cfg * g_num_alloc_blocks cfg)
    (Hlen : 0 <= pattern_len)
    (Hrange : alloc_granularity cfg * g_num_alloc_blocks cfg + extra_chunk pattern_len
                < size_t_modulus)
    (Hok : queries_ok (block_size cfg) queries) :
  exists info blocks,
    plan_blocks cfg pattern_len queries = Some (info, blocks) /\
    forall i b1 b2,
      nth_error blocks i = Some b1 -> nth_error blocks (S i) = Some b2 ->
      info_id b1 = info_id b2 ->
      inter_len b1 b2 = extra_chunk pattern_len /\
      extra_chunk pattern_len mod 16 = 0 /\
      pattern_len <= extra_chunk pattern_len < pattern_len + 16.
Proof.
  destruct (plan_blocks_ok cfg pattern_len Hstride Hlen Hrange queries Hok)
    as (info & blocks & Hplan & _ & Hadj).
  exists info, blocks. split; [exact Hplan|].
  intros i b1 b2 H1 H2 Hsame. split; [|split].
  - rewrite (Hadj i b1 b2 H1 H2 Hsame).
    rewrite (bytes_to_read_ideal_exact cfg pattern_len Hstride Hlen Hrange). lia.
  - apply multiple_of_n_divides. reflexivity.
  - split; [apply extra_chunk_ge|apply multiple_of_n_lt; reflexivity].
Qed.

Lemma adjacent_blocks_overlap_exactly_witness :
  exists info blocks,
    plan_blocks sample_cfg 1 sample_queries = Some (info, blocks) /\
    forall i b1 b2,
      nth_error blocks i = Some b1 -> nth_error blocks (S i) = Some b2 ->
      info_id b1 = info_id b2 ->
      inter_len b1 b2 = extra_chunk 1 /\
      extra_chunk 1 mod 16 = 0 /\
      1 <= extra_chunk 1 < 1 + 16.
Proof.
  apply (adjacent_blocks_overlap_exactly sample_cfg 1 sample_queries).
  - reflexivity.
  - lia.
  - reflexivity.
  - repeat constructor; vm_compute; congruence.
Defined.

(** ** Substring search *)

Lemma prefix_eqb_firstn pat : forall s,
  prefix_eqb pat s = true <-> firstn (length pat) s = pat.
Proof.
  induction pat as [|x pat IH]; intros s; cbn [prefix_eqb length firstn].
  - tauto.
  - destruct s as [|y s].
    + split; discriminate.
    + rewrite andb_true_iff, IH. split.
      * intros [Hxy ->]. apply Byte.byte_dec_bl in Hxy. now subst.
      * intros H. injection H as -> H. split; [now apply Byte.byte_dec_lb|exact H].
Qed.

Lemma matches_at_cons x buffer pat r :
  0 <= r -> matches_at (x :: buffer) pat (r + 1) = matches_at buffer pat r.
Proof.
  intros Hr. unfold matches_at.
  replace (Z.to_nat (r + 1)) with (S (Z.to_nat r)) by lia. reflexivity.
Qed.

Lemma matches_at_skipn buffer pat pos r :
  0 <= pos -> 0 <= r ->
  matches_at (skipn (Z.to_nat pos) buffer) pat r = matches_at buffer pat (pos + r).
Proof.
  intros Hpos Hr. unfold matches_at. rewrite skipn_skipn.
  now replace (Z.to_nat r + Z.to_nat pos)%nat with (Z.to_nat (pos + r)) by lia.
Qed.

Section Search.

Variables (substr : list byte) (substr_sz : Z).
Hypothesis Hsz : substr_sz = Z.of_nat (length substr).

Lemma firstn_whole : firstn (Z.to_nat substr_sz) substr = substr.
Proof. apply firstn_all2. lia. Qed.

(** A result of [strstr_u8] is the first occurrence inside the window. *)
Lemma strstr_u8_some str : forall str_sz r,
  strstr_u8 str str_sz substr substr_sz = Some r ->
  0 <= r /\ r + substr_sz <= str_sz /\ matches_at str substr r = true /\
  forall r', 0 <= r' < r -> matches_at str substr r' = false.
Proof.
  induction str as [|x str IH]; intros n r H; cbn [strstr_u8] in H;
    rewrite firstn_whole in H;
    destruct (Z.ltb_spec n substr_sz) as [|Hn]; try discriminate.
  - destruct (prefix_eqb substr []) eqn:Hp; [|discriminate].
    injection H as <-. repeat split; try lia. exact Hp.
  - destruct (prefix_eqb substr (x :: str)) eqn:Hp.
    + injection H as <-. repeat split; try lia. exact Hp.
    + destruct (strstr_u8 str (n - 1) substr substr_sz) as [r0|] eqn:Hrec;
        [|discriminate].
      injection H as <-. destruct (IH _ _ Hrec) as (H0 & H1 & H2 & H3).
      repeat split; try lia.
      * now rewrite matches_at_cons.
      * intros r' Hr'. destruct (Z.eq_dec r' 0) as [->|Hnz]; [exact Hp|].
        replace r' with ((r' - 1) + 1) by lia.
        rewrite matches_at_cons by lia. apply H3. lia.
Qed.

(** When [strstr_u8] returns NULL the window holds no occurrence. *)
Lemma strstr_u8_none str : forall str_sz,
  strstr_u8 str str_sz substr substr_sz = None ->
  forall r', 0 <= r' -> r' + substr_sz <= str_sz -> matches_at str substr r' = false.
Proof.
  induction str as [|x str IH]; intros n H r' Hr' Hfit; cbn [strstr_u8] in H;
    rewrite firstn_whole in H;
    destruct (Z.ltb_spec n substr_sz) as [Hlt|Hn]; try lia.
  - destruct (prefix_eqb substr []) eqn:Hp; [discriminate|].
    unfold matches_at. now rewrite skipn_nil.
  - destruct (prefix_eqb substr (x :: str)) eqn:Hp; [discriminate|].
    destruct (strstr_u8 str (n - 1) substr substr_sz) as [r0|] eqn:Hrec;
      [discriminate|].
    destruct (Z.eq_dec r' 0) as [->|Hnz]; [exact Hp|].
    replace r' with ((r' - 1) + 1) by lia.
    rewrite matches_at_cons by lia. apply (IH _ Hrec); lia.
Qed.

End Search.

(** ** The matching loop *)

Section MatchLoop.

Variables (buffer pattern : list byte) (pattern_len ptr : Z).
Hypothesis Hsz : pattern_len = Z.of_nat (length pattern).
Hypothesis Hlen : 1 <= pattern_len.

(** The loop ends and pushes exactly the addresses of the occurrences that
    lie in its window. *)
Lemma match_loop_spec fuel : forall buffer_ptr buffer_size,
  0 <= buffer_ptr -> 0 <= buffer_size < size_t_modulus ->
  (Z.to_nat buffer_size < fuel)%nat ->
  exists found,
    match_loop fuel buffer pattern pattern_len ptr buffer_ptr buffer_size = Some found /\
    forall o, In (ptr + o) found <-> occurs_in buffer pattern pattern_len buffer_ptr buffer_size o.
Proof.
  induction fuel as [|fuel IH]; intros pos n Hpos Hn Hfuel; [lia|].
  cbn [match_loop].
  destruct (Z.ltb_spec n pattern_len) as [Hshort|Hge].
  { exists []. split; [reflexivity|]. intros o. split; [intros []|].
    unfold occurs_in. lia. }
  destruct (strstr_u8 (skipn (Z.to_nat pos) buffer) n pattern pattern_len)
    as [r|] eqn:Hsearch.
  - destruct (strstr_u8_some pattern pattern_len Hsz _ _ _ Hsearch)
      as (Hr0 & Hr1 & Hr2 & Hr3).
    rewrite matches_at_skipn in Hr2 by lia.
    replace (pos + r + 1 - pos) with (r + 1) by lia.
    rewrite wrap_size_t_small by lia.
    destruct (IH (pos + r + 1) (n - (r + 1))) as (rest & -> & Hrest); try lia.
    eexists. split; [reflexivity|].
    intros o. cbn [In]. rewrite Hrest. unfold occurs_in. split.
    + intros [Heq|(H1 & H2 & H3)].
      * assert (o = pos + r) by lia. subst o. repeat split; try lia. exact Hr2.
      * repeat split; try lia. exact H3.
    + intros (H1 & H2 & H3).
      destruct (Z.lt_trichotomy o (pos + r)) as [Hlt|[->|Hgt]].
      * exfalso. specialize (Hr3 (o - pos) ltac:(lia)).
        rewrite matches_at_skipn in Hr3 by lia.
        replace (pos + (o - pos)) with o in Hr3 by lia. congruence.
      * now left.
      * right. repeat split; try lia. exact H3.
  - exists []. split; [reflexivity|]. intros o. split; [intros []|].
    intros (H1 & H2 & H3). exfalso.
    pose proof (strstr_u8_none pattern pattern_len Hsz _ _ Hsearch (o - pos)
                  ltac:(lia) ltac:(lia)) as Hno.
    rewrite matches_at_skipn in Hno by lia.
    replace (pos + (o - pos)) with o in Hno by lia. congruence.
Qed.

(** Lines 136-153 push exactly the addresses [ptr + o] of the offsets [o] at
    which the pattern occurs within the bytes read. *)
Lemma find_in_buffer_spec bytes_read :
  0 <= bytes_read < size_t_modulus ->
  exists found,
    find_in_buffer buffer pattern pattern_len ptr bytes_read = Some found /\
    forall o, In (ptr + o) found <-> occurs_in buffer pattern pattern_len 0 bytes_read o.
Proof.
  intros Hn. unfold find_in_buffer.
  destruct (Z.leb_spec pattern_len bytes_read) as [Hge|Hlt].
  - apply match_loop_spec; lia.
  - exists []. split; [reflexivity|]. intros o. split; [intros []|].
    unfold occurs_in. lia.
Qed.

End MatchLoop.

(** C8.  Pattern "AA" over a fully read buffer holding "AAAA" records the
    matches at buffer offsets 0, 1 and 2 and no other (the block is taken at
    address 0, so that addresses are buffer offsets).  In general, for a
    pattern of at least one byte, the loop of lines 136-153 ends and records
    [ptr + o] exactly for the offsets [o] at which the pattern occurs within
    the bytes read: it resumes one byte past each match start, so
    occurrences that overlap one another are all recorded. *)
Theorem self_overlapping_occurrences_recorded :
  find_in_buffer [byte_A; byte_A; byte_A; byte_A] [byte_A; byte_A] 2 0 4
    = Some [0; 1; 2] /\
  forall (buffer pattern : list byte) (ptr bytes_read : Z),
    (1 <= length pattern)%nat -> 0 <= bytes_read < size_t_modulus ->
    exists found,
      find_in_buffer buffer pattern (Z.of_nat (length pattern)) ptr bytes_read
        = Some found /\
      forall o, In (ptr + o) found <->
                (0 <= o /\ o + Z.of_nat (length pattern) <= bytes_read /\
                 matches_at buffer pattern o = true).
Proof.
  split; [reflexivity|].
  intros buffer pattern ptr bytes_read Hlen Hn.
  destruct (find_in_buffer_spec buffer pattern (Z.of_nat (length pattern)) ptr
              eq_refl ltac:(lia) bytes_read Hn) as (found & Hrun & Hspec).
  exists found. split; [exact Hrun|].
  intros o. rewrite Hspec. unfold occurs_in. rewrite Z.add_0_l. reflexivity.
Qed.

Lemma self_overlapping_occurrences_recorded_witness :
  exists found,
    find_in_buffer [byte_A; byte_A; byte_A; byte_A; byte_A] [byte_A; byte_A]
      (Z.of_nat (length [byte_A; byte_A])) 0x20000 5 = Some found /\
    forall o, In (0x20000 + o) found <->
              (0 <= o /\ o + Z.of_nat (length [byte_A; byte_A]) <= 5 /\
               matches_at [byte_A; byte_A; byte_A; byte_A; byte_A]
                 [byte_A; byte_A] o = true).
Proof.
  apply (proj2 self_overlapping_occurrences_recorded
           [byte_A; byte_A; byte_A; byte_A; byte_A] [byte_A; byte_A] 0x20000 5).
  - cbn [length]. lia.
  - split; [lia|reflexivity].
Defined.

(** ** Reading the target *)

Lemma bytes_at_length mem n : forall a, length (bytes_at mem a n) = n.
Proof. induction n as [|n IH]; intros a; cbn [bytes_at length]; [|rewrite IH]; reflexivity. Qed.

Lemma bytes_at_skipn mem k : forall a n,
  (k <= n)%nat ->
  skipn k (bytes_at mem a n) = bytes_at mem (a + Z.of_nat k) (n - k).
Proof.
  induction k as [|k IH]; intros a n Hk.
  - cbn [skipn]. now rewrite Z.add_0_r, Nat.sub_0_r.
  - destruct n as [|n]; [lia|]. cbn [bytes_at skipn].
    rewrite IH by lia. f_equal. lia.
Qed.

Lemma bytes_at_firstn mem m : forall a n,
  (m <= n)%nat -> firstn m (bytes_at mem a n) = bytes_at mem a m.
Proof.
  induction m as [|m IH]; intros a n Hm; [reflexivity|].
  destruct n as [|n]; [lia|]. cbn [bytes_at firstn]. now rewrite IH by lia.
Qed.

(** After a full read of [n] bytes at [p], the buffer matches wherever the
    memory of the target does. *)
Lemma matches_at_read_full mem p n stale pat o :
  0 <= o -> o + Z.of_nat (length pat) <= n ->
  bytes_at mem (p + o) (length pat) = pat ->
  matches_at (store_buffer (bytes_at mem p (Z.to_nat n)) stale) pat o = true.
Proof.
  intros Ho Hfit Hocc. unfold matches_at, store_buffer.
  apply prefix_eqb_firstn.
  rewrite skipn_app, bytes_at_length, bytes_at_skipn by lia.
  rewrite firstn_app, bytes_at_length, bytes_at_firstn by lia.
  replace (length pat - (Z.to_nat n - Z.to_nat o))%nat with 0%nat by lia.
  cbn [firstn]. rewrite app_nil_r, Z2Nat.id by lia. exact Hocc.
Qed.

(** ** The worker *)


Lemma read_check_hard_failure cfg b rd :
  res rd = false ->
  read_check cfg b rd =
  (Continue,
   (if g_show_failed_readings cfg then [EvDiagRegion (info_id b); EvDiagFailed] else [])
     ++ [EvRelease (size b)]).
Proof.
  intros Hres. unfold read_check. rewrite Hres. cbn [negb orb].
  destruct (g_show_failed_readings cfg); reflexivity.
Qed.

Lemma read_check_short cfg b rd :
  res rd = true -> bytes_read rd <> size b ->
  read_check cfg b rd =
  (FallThrough,
   if g_show_failed_readings cfg then
     [EvDiagRegion (info_id b); EvDiagShort (size b - bytes_read rd) (size b)]
   else []).
Proof.
  intros Hres Hshort. unfold read_check. rewrite Hres.
  destruct (Z.eqb_spec (bytes_read rd) (size b)) as [|_]; [contradiction|].
  cbn [negb orb]. destruct (g_show_failed_readings cfg); reflexivity.
Qed.



(** ** What a worker does with a block, by outcome of the read *)

(** A read that fails leaves by [continue]: nothing is matched, the budget
    is given back, and [notify_all] is not reached. *)
Lemma block_body_hard_failure cfg pattern pattern_len b buffer rd :
  res rd = false ->
  block_body cfg pattern pattern_len b buffer rd =
  Some ([],
        EvRead (ptr b) (size b)
          :: (if g_show_failed_readings cfg
              then [EvDiagRegion (info_id b); EvDiagFailed] else [])
          ++ [EvRelease (size b)],
        store_buffer (written rd) buffer).
Proof.
  intros Hres. unfold block_body. now rewrite read_check_hard_failure.
Qed.

(** A read that succeeds, in full or short, is matched over the bytes read;
    the budget is given back and the waiters are notified. *)
Lemma block_body_read cfg pattern pattern_len b buffer rd :
  res rd = true ->
  (1 <= length pattern)%nat -> pattern_len = Z.of_nat (length pattern) ->
  0 <= bytes_read rd < size_t_modulus ->
  exists found diag,
    block_body cfg pattern pattern_len b buffer rd =
    Some (found,
          EvRead (ptr b) (size b) :: diag ++ [EvRelease (size b); EvNotifyAll],
          store_buffer (written rd) buffer) /\
    (forall e, In e diag -> is_read e = false /\ is_release e = false /\ is_notify e = false) /\
    forall o, In (ptr b + o) found <->
              occurs_in (store_buffer (written rd) buffer) pattern pattern_len
                0 (bytes_read rd) o.
Proof.
  intros Hres Hlen Hsz Hn. unfold block_body.
  destruct (find_in_buffer_spec (store_buffer (written rd) buffer) pattern pattern_len
              (ptr b) Hsz ltac:(lia) (bytes_read rd) Hn) as (found & Hrun & Hspec).
  destruct (Z.eq_dec (bytes_read rd) (size b)) as [Hfull|Hshort].
  - unfold read_check. rewrite Hres, Hfull, Z.eqb_refl. cbn [negb orb].
    rewrite Hfull in Hrun. rewrite Hrun. exists found, []. split; [reflexivity|].
    split; [intros e []|]. now rewrite <- Hfull.
  - rewrite read_check_short by assumption. rewrite Hrun.
    exists found. eexists. split; [reflexivity|]. split; [|exact Hspec].
    intros e He. destruct (g_show_failed_readings cfg); [|destruct He].
    destruct He as [<-|[<-|[]]]; repeat split.
Qed.

Lemma filter_none {A} (p : A -> bool) l :
  (forall x, In x l -> p x = false) -> filter p l = [].
Proof.
  induction l as [|x l IH]; intros H; cbn [filter]; [reflexivity|].
  rewrite (H x (or_introl eq_refl)). apply IH. intros y Hy. apply H. now right.
Qed.

Lemma count_events_read_path p diag (n : Z) (a : Z) :
  (forall e, In e diag -> p e = false) ->
  count_events p (EvRead a n :: diag ++ [EvRelease n; EvNotifyAll]) =
  ((if p (EvRead a n) then 1 else 0) + (if p (EvRelease n) then 1 else 0)
   + (if p EvNotifyAll then 1 else 0))%nat.
Proof.
  intros Hdiag. unfold count_events. cbn [filter].
  rewrite filter_app, (filter_none p diag Hdiag). cbn [filter app].
  destruct (p (EvRead a n)), (p (EvRelease n)), (p EvNotifyAll); reflexivity.
Qed.

(** C5, at the failing input.  When ReadProcessMemory fails, the worker
    gives the bytes of the block back to the counter once, and leaves the
    iteration without reaching [g_cv.notify_all()]: the trace of the block
    holds one release and no notification, with verbose reads on or off. *)
Theorem hard_failure_releases_without_notify :
  forall cfg pattern pattern_len b buffer,
  exists evs,
    block_body cfg pattern pattern_len b buffer failed_read = Some ([], evs, buffer) /\
    In (EvRelease (size b)) evs /\
    count_events is_release evs = 1%nat /\
    count_events is_notify evs = 0%nat.
Proof.
  intros cfg pattern pattern_len b buffer.
  rewrite block_body_hard_failure by reflexivity.
  eexists. split; [reflexivity|].
  destruct (g_show_failed_readings cfg); cbn; repeat split; auto.
Qed.

(** A read that succeeds, in full or short, ends with the release followed
    by the notification. *)
Lemma completed_read_notifies cfg pattern b buffer rd :
  res rd = true -> (1 <= length pattern)%nat ->
  0 <= bytes_read rd < size_t_modulus ->
  exists found evs buffer',
    block_body cfg pattern (Z.of_nat (length pattern)) b buffer rd
      = Some (found, evs, buffer') /\
    count_events is_release evs = 1%nat /\ count_events is_notify evs = 1%nat.
Proof.
  intros Hres Hlen Hn.
  destruct (block_body_read cfg pattern _ b buffer rd Hres Hlen eq_refl Hn)
    as (found & diag & Hrun & Hdiag & _).
  do 3 eexists. split; [exact Hrun|].
  split; rewrite count_events_read_path; try reflexivity; intros e He;
    apply (Hdiag e He).
Qed.


(** ** The budget gate *)

Section GateInvariant.

Variables (max_memory_usage bound : Z) (blocks : list block).
Hypothesis Hsizes : forall b, In b blocks -> 0 <= size b <= bound.
Hypothesis Hbound : 0 <= bound.

Lemma bytes_to_read_range i : 0 <= Gate.bytes_to_read blocks i <= bound.
Proof.
  unfold Gate.bytes_to_read. destruct (nth_error blocks i) as [b|] eqn:Hb; [|lia].
  apply Hsizes. eapply nth_error_In; eauto.
Qed.

Lemma checked_out_set_thread l : forall t x y,
  nth_error l t = Some y ->
  Gate.checked_out blocks (Gate.set_thread t x l) =
  Gate.checked_out blocks l - Gate.held_by blocks y + Gate.held_by blocks x.
Proof.
  induction l as [|z l IH]; intros [|t] x y H; cbn [nth_error] in H; try discriminate.
  - injection H as ->. cbn [Gate.set_thread Gate.checked_out]. lia.
  - cbn [Gate.set_thread Gate.checked_out]. rewrite (IH t x y H). lia.
Qed.

Lemma checked_out_idle n : Gate.checked_out blocks (repeat Gate.Idle n) = 0.
Proof. induction n as [|n IH]; cbn [repeat Gate.checked_out Gate.held_by]; lia. Qed.

Lemma gate_inv_init n : gate_inv max_memory_usage bound blocks (Gate.init n).
Proof.
  unfold gate_inv, Gate.init; cbn [Gate.g_memory_usage_bytes Gate.threads].
  rewrite checked_out_idle. lia.
Qed.

Lemma gate_inv_step s a s' :
  gate_inv max_memory_usage bound blocks s ->
  Gate.step max_memory_usage blocks s a = Some s' ->
  gate_inv max_memory_usage bound blocks s'.
Proof.
  intros [Hsum Hmax] Hstep. unfold gate_inv.
  destruct a as [t|t|t]; cbn [Gate.step] in Hstep;
    destruct (nth_error (Gate.threads s) t) as [[|i|i]|] eqn:Ht; try discriminate.
  - destruct (_ <? _)%nat; [|discriminate]. injection Hstep as <-.
    cbn [Gate.g_memory_usage_bytes Gate.threads].
    rewrite (checked_out_set_thread _ _ _ _ Ht). cbn [Gate.held_by]. lia.
  - destruct (Z.ltb_spec (Gate.g_memory_usage_bytes s) max_memory_usage) as [Hlt|];
      [|discriminate].
    injection Hstep as <-. cbn [Gate.g_memory_usage_bytes Gate.threads].
    rewrite (checked_out_set_thread _ _ _ _ Ht). cbn [Gate.held_by].
    pose proof (bytes_to_read_range i). lia.
  - injection Hstep as <-. cbn [Gate.g_memory_usage_bytes Gate.threads].
    rewrite (checked_out_set_thread _ _ _ _ Ht). cbn [Gate.held_by].
    pose proof (bytes_to_read_range i). lia.
Qed.

Lemma gate_inv_run acts : forall s s',
  gate_inv max_memory_usage bound blocks s ->
  Gate.run max_memory_usage blocks s acts = Some s' ->
  gate_inv max_memory_usage bound blocks s'.
Proof.
  induction acts as [|a acts IH]; intros s s' Hinv Hrun; cbn [Gate.run] in Hrun.
  - now injection Hrun as <-.
  - destruct (Gate.step max_memory_usage blocks s a) as [s1|] eqn:Hstep; [|discriminate].
    eapply IH; [|exact Hrun]. eapply gate_inv_step; eauto.
Qed.

End GateInvariant.

(** C1 fails as stated: with a budget of 8 MiB and blocks of 4 MiB + 16
    bytes, the second worker is admitted while the counter stands at
    0x400010, below the budget, although 0x400010 + 0x400010 exceeds it; the
    counter, and with it the sum of the blocks checked out, then stands at
    0x800020, above the budget 0x800000. *)
Lemma gate_admits_past_the_budget :
  plan_blocks wide_cfg 8 wide_queries = Some ([wide_region], wide_blocks) /\
  Gate.run (g_memory_limit wide_cfg) wide_blocks (Gate.init 3)
    [Gate.Take 0; Gate.Admit 0; Gate.Take 1; Gate.Admit 1]
  = Some {| Gate.g_memory_usage_bytes := 0x800020;
            Gate.next_iteration := 2;
            Gate.threads := [Gate.Holding 0; Gate.Holding 1; Gate.Idle] |} /\
  Gate.checked_out wide_blocks [Gate.Holding 0; Gate.Holding 1; Gate.Idle] = 0x800020 /\
  g_memory_limit wide_cfg < 0x800020.
Proof. repeat split. Qed.

(** C1, amended.  During a scan, after any sequence of steps of any number
    of workers, the shared counter [g_memory_usage_bytes] equals the sum of
    the sizes of the blocks checked out by the workers, and it is at most
    [limit - 1 + (S + overlap)] (at most 0 when that is negative).  A worker
    is admitted only when the counter is below [limit], and on admission the
    size of its block is added to the counter. *)
Theorem gate_counter_invariant
    (cfg : scan_config) (pattern_len : Z) (queries : list MEMORY_BASIC_INFORMATION)
    (info : list MEMORY_BASIC_INFORMATION) (blocks : list block)
    (workers : nat) (acts : list Gate.action) (s : Gate.state)
    (Hstride : 0 < alloc_granularity cfg * g_num_alloc_blocks cfg)
    (Hlen : 0 <= pattern_len)
    (Hrange : alloc_granularity cfg * g_num_alloc_blocks cfg + extra_chunk pattern_len
                < size_t_modulus)
    (Hok : queries_ok (block_size cfg) queries)
    (Hplan : plan_blocks cfg pattern_len queries = Some (info, blocks))
    (Hrun : Gate.run (g_memory_limit cfg) blocks (Gate.init workers) acts = Some s) :
  Gate.g_memory_usage_bytes s = Gate.checked_out blocks (Gate.threads s) /\
  Gate.g_memory_usage_bytes s
    <= Z.max 0 (g_memory_limit cfg - 1 + bytes_to_read_ideal cfg pattern_len) /\
  forall t s',
    Gate.step (g_memory_limit cfg) blocks s (Gate.Admit t) = Some s' ->
    Gate.g_memory_usage_bytes s < g_memory_limit cfg /\
    exists i, nth_error (Gate.threads s) t = Some (Gate.Waiting i) /\
              Gate.g_memory_usage_bytes s' =
              Gate.g_memory_usage_bytes s + Gate.bytes_to_read blocks i.
Proof.
  destruct (plan_blocks_ok cfg pattern_len Hstride Hlen Hrange queries Hok)
    as (info0 & blocks0 & Hplan0 & Hsizes & _).
  rewrite Hplan in Hplan0. injection Hplan0 as <- <-.
  plan_facts cfg pattern_len Hstride Hlen Hrange.
  assert (Hinv : gate_inv (g_memory_limit cfg) (bytes_to_read_ideal cfg pattern_len)
                   blocks s).
  { eapply gate_inv_run; [| |apply gate_inv_init|exact Hrun].
    - intros b Hb. destruct (Hsizes b Hb). lia.
    - lia. }
  destruct Hinv as [Hsum Hmax]. split; [exact Hsum|]. split; [exact Hmax|].
  intros t s' Hstep. cbn [Gate.step] in Hstep.
  destruct (nth_error (Gate.threads s) t) as [[|i|i]|]; try discriminate.
  destruct (Z.ltb_spec (Gate.g_memory_usage_bytes s) (g_memory_limit cfg)) as [Hlt|];
    [|discriminate].
  injection Hstep as <-. split; [exact Hlt|]. exists i. split; reflexivity.
Qed.

Lemma gate_counter_invariant_witness :
  Gate.g_memory_usage_bytes
    {| Gate.g_memory_usage_bytes := 0x800020;
       Gate.next_iteration := 2;
       Gate.threads := [Gate.Holding 0; Gate.Holding 1; Gate.Idle] |}
  = Gate.checked_out wide_blocks [Gate.Holding 0; Gate.Holding 1; Gate.Idle] /\
  0x800020 <= Z.max 0 (g_memory_limit wide_cfg - 1 + bytes_to_read_ideal wide_cfg 8) /\
  forall t s',
    Gate.step (g_memory_limit wide_cfg) wide_blocks
      {| Gate.g_memory_usage_bytes := 0x800020;
         Gate.next_iteration := 2;
         Gate.threads := [Gate.Holding 0; Gate.Holding 1; Gate.Idle] |}
      (Gate.Admit t) = Some s' ->
    0x800020 < g_memory_limit wide_cfg /\
    exists i, nth_error [Gate.Holding 0; Gate.Holding 1; Gate.Idle] t
                = Some (Gate.Waiting i) /\
              Gate.g_memory_usage_bytes s' = 0x800020 + Gate.bytes_to_read wide_blocks i.
Proof.
  apply (gate_counter_invariant wide_cfg 8 wide_queries [wide_region] wide_blocks 3
           [Gate.Take 0; Gate.Admit 0; Gate.Take 1; Gate.Admit 1]).
  - reflexivity.
  - lia.
  - reflexivity.
  - repeat constructor; vm_compute; congruence.
  - reflexivity.
  - reflexivity.
Defined.

(** ** The scan run by one worker *)

Section OneWorker.

Variables (cfg : scan_config) (pattern : list byte).
Variable ReadProcessMemory : Z -> Z -> read_outcome.
Hypothesis Hlen : (1 <= length pattern)%nat.
Hypothesis Hreads : forall p n,
  0 <= n < size_t_modulus -> 0 <= bytes_read (ReadProcessMemory p n) < size_t_modulus.

Lemma block_body_total b buffer :
  0 <= size b < size_t_modulus ->
  exists found evs buffer',
    block_body cfg pattern (Z.of_nat (length pattern)) b buffer
      (ReadProcessMemory (ptr b) (size b))
    = Some (found, EvRead (ptr b) (size b) :: evs, buffer').
Proof.
  intros Hsize.
  destruct (res (ReadProcessMemory (ptr b) (size b))) eqn:Hres.
  - destruct (block_body_read cfg pattern _ b buffer _ Hres Hlen eq_refl
                (Hreads _ _ Hsize)) as (found & diag & Hrun & _).
    do 3 eexists. exact Hrun.
  - do 3 eexists. now apply block_body_hard_failure.
Qed.

(** With the counter below the budget, one worker takes every block in
    turn: each is admitted and read, and the counter comes back to where it
    stood. *)
Lemma worker_loop_done blocks : forall st,
  (forall b, In b blocks -> 0 <= size b < size_t_modulus) ->
  g_memory_usage_bytes st < g_memory_limit cfg ->
  exists st',
    worker_loop cfg pattern (Z.of_nat (length pattern)) ReadProcessMemory blocks st
      = Done st' /\
    g_memory_usage_bytes st' = g_memory_usage_bytes st /\
    length (match_of st') = (length (match_of st) + length blocks)%nat /\
    (forall e, In e (trace_of st) -> In e (trace_of st')) /\
    forall b, In b blocks ->
      In (EvAcquire (size b)) (trace_of st') /\
      In (EvRead (ptr b) (size b)) (trace_of st').
Proof.
  induction blocks as [|b blocks IH]; intros st Hsizes Hgate; cbn [worker_loop].
  - exists st. split; [reflexivity|]. split; [reflexivity|].
    split; [cbn [length]; lia|]. split; [auto|]. intros b [].
  - unfold worker_iteration.
    destruct (Z.ltb_spec (g_memory_usage_bytes st) (g_memory_limit cfg)); [|lia].
    destruct (block_body_total b (buffer_of st) (Hsizes b (or_introl eq_refl)))
      as (found & evs & buffer' & ->).
    match goal with |- context [worker_loop _ _ _ _ _ ?s] => set (st1 := s) end.
    destruct (IH st1) as (st' & Hrun & Hused & Hmatch & Hkeep & Hall).
    { intros b' Hb'. apply Hsizes. now right. }
    { subst st1. cbn [g_memory_usage_bytes]. lia. }
    exists st'. split; [exact Hrun|]. subst st1.
    cbn [g_memory_usage_bytes match_of trace_of] in *.
    split; [lia|]. split; [rewrite Hmatch, length_app; cbn [length]; lia|].
    split.
    + intros e He. apply Hkeep. apply in_or_app. now left.
    + intros b' [<-|Hb'].
      * split; apply Hkeep; apply in_or_app; right; cbn [In]; auto.
      * now apply Hall.
Qed.

End OneWorker.






(** ** The aggregator *)

(** C2, at the failing input.  The committed region of the sample target
    holds the one-byte pattern at 0x20000 and 0x20001, both inside the 16
    bytes that its two blocks share.  Both blocks record both addresses, and
    the aggregator, which compares an address with the one printed just
    before, prints each of the two addresses twice.  The configuration has
    one worker, so the scan is the one [find_pattern] describes. *)
Theorem two_matches_in_one_overlap_are_printed_twice :
  num_threads sample_cfg 2 = 1 /\
  exists rep,
    find_pattern sample_cfg sample_host [byte_A] 1 = Done rep /\
    rep_blocks rep = [ {| ptr := 0x10000; size := 0x10010; info_id := 0 |};
                       {| ptr := 0x20000; size := 0x10000; info_id := 0 |} ] /\
    rep_match rep = [[0x20000; 0x20001]; [0x20000; 0x20001]] /\
    printed_addresses (rep_output rep) = [0x20000; 0x20001; 0x20000; 0x20001].
Proof.
  split; [reflexivity|].
  eexists. split; [vm_compute; reflexivity|].
  repeat split.
Qed.

(** The check against the previous address does remove a duplicate that
    directly follows its original. *)
Lemma print_matches_skips_repeat m ms :
  print_matches (m :: ms) m = print_matches ms m.
Proof. cbn [print_matches]. now rewrite Z.eqb_refl. Qed.

(** ** The command parser and the REPL *)

(** C9.  When the argument of the [p] command cannot be parsed as a number
    at all ([strtoul] consumes no character), [parse_command] puts
    "Invalid PID! Exiting..." and returns [c_quit_program] with the context
    as it was; the loop of [run_process_inspection] then returns 0 without
    reading another command, whatever input follows, and the target id is
    the one selected before.  A normal quit returns the same exit code 0. *)
Theorem unparsable_pid_ends_the_program
    (env : parser_env) (ctx : process_context) (cmd : string) (off : nat)
    (Hp : char_at cmd 0 = "p"%char)
    (Hargs : skip_to_args env cmd (Z.of_nat (String.length cmd)) = Some off)
    (Hnone :
       let args := String.substring off (String.length cmd - off) cmd in
       snd (strtoul env args
              (if is_hex env args (Z.of_nat (String.length cmd) - Z.of_nat off)
               then 16 else 10)) = 0%nat) :
  parse_command env ctx cmd
    = (c_quit_program, ctx, ["Invalid PID! Exiting..."; ""]%string) /\
  (forall line rest shown,
      common_result line = c_not_set -> command_text line = cmd ->
      repl_loop env (line :: rest) ctx shown =
      {| exit_code := Some 0;
         context := {| common := common_after line; pid := pid ctx |};
         shown := shown ++ [Prompt; Puts "Invalid PID! Exiting..."; Puts ""] |}) /\
  (forall line rest shown,
      common_result line = c_quit_program ->
      exit_code (repl_loop env (line :: rest) ctx shown) = Some 0).
Proof.
  assert (Hparse : forall c,
    parse_command env c cmd
      = (c_quit_program, c, ["Invalid PID! Exiting..."; ""]%string)).
  { intros c. unfold parse_command. rewrite Hp. cbn [Ascii.eqb Bool.eqb].
    rewrite Hargs. cbv zeta in Hnone.
    destruct (strtoul env _ _) as [value consumed]. cbn [snd] in Hnone.
    now rewrite Hnone. }
  split; [apply Hparse|]. split.
  - intros line rest shown Hres Htext. cbn [repl_loop].
    rewrite Hres, Htext. cbn [input_command_eqb]. rewrite Hparse.
    cbn [input_command_eqb map]. reflexivity.
  - intros line rest shown Hres. cbn [repl_loop]. rewrite Hres. reflexivity.
Qed.

Lemma unparsable_pid_ends_the_program_witness :
  parse_command sample_env sample_ctx "p zzz"
    = (c_quit_program, sample_ctx, ["Invalid PID! Exiting..."; ""]%string) /\
  (forall line rest shown,
      common_result line = c_not_set -> command_text line = "p zzz"%string ->
      repl_loop sample_env (line :: rest) sample_ctx shown =
      {| exit_code := Some 0;
         context := {| common := common_after line; pid := pid sample_ctx |};
         shown := shown ++ [Prompt; Puts "Invalid PID! Exiting..."; Puts ""] |}) /\
  (forall line rest shown,
      common_result line = c_quit_program ->
      exit_code (repl_loop sample_env (line :: rest) sample_ctx shown) = Some 0).
Proof.
  apply (unparsable_pid_ends_the_program sample_env sample_ctx "p zzz" 2).
  - reflexivity.
  - reflexivity.
  - reflexivity.
Defined.

(** ** The thread listing *)

Section ThreadListing.

Import ThreadList.

Variables (h : thread_host) (dw_owner_pid : Z).

(** The loop over a snapshot cut in two: the second part starts from the
    stack record the first part leaves, which is the one found last. *)
Lemma thread_loop_app pre : forall rest si,
  thread_loop h dw_owner_pid (pre ++ rest) si =
  thread_loop h dw_owner_pid pre si
    ++ thread_loop h dw_owner_pid rest (last_found h dw_owner_pid pre si).
Proof.
  induction pre as [|te pre IH]; intros rest si; [reflexivity|].
  cbn [app thread_loop last_found]. unfold lookup_succeeds.
  destruct (th32OwnerProcessID te =? dw_owner_pid); cbn [andb]; [|apply IH].
  destruct (OpenThread h (th32ThreadID te)); cbn [andb].
  - unfold get_thread_stack_base.
    destruct (VirtualQueryEx h (th32ThreadID te)) as [_info|].
    + destruct ((State _info =? MEM_COMMIT) && (Type_ _info =? MEM_PRIVATE));
        rewrite IH, <- ?app_assoc; reflexivity.
    + rewrite IH, <- ?app_assoc. reflexivity.
  - rewrite IH. reflexivity.
Qed.

(** A thread of the process whose lookup fails leaves the record as it is. *)
Lemma thread_loop_failed te rest si :
  th32OwnerProcessID te = dw_owner_pid -> lookup_succeeds h te = false ->
  thread_loop h dw_owner_pid (te :: rest) si =
  (if OpenThread h (th32ThreadID te) then [FailedStackBase] else [])
    ++ ThreadRow (th32ThreadID te) (tpBasePri te) (tpDeltaPri te) (sp si) (size si)
    :: thread_loop h dw_owner_pid rest si.
Proof.
  intros Howner Hfail. cbn [thread_loop]. rewrite Howner, Z.eqb_refl.
  unfold lookup_succeeds in Hfail. unfold get_thread_stack_base.
  destruct (OpenThread h (th32ThreadID te)); cbn [andb] in Hfail; [|reflexivity].
  destruct (VirtualQueryEx h (th32ThreadID te)) as [_info|]; [|reflexivity].
  now rewrite Hfail.
Qed.

Lemma last_found_none pre : forall si,
  (forall te, In te pre -> th32OwnerProcessID te = dw_owner_pid ->
              lookup_succeeds h te = false) ->
  last_found h dw_owner_pid pre si = si.
Proof.
  induction pre as [|te pre IH]; intros si Hnone; [reflexivity|].
  cbn [last_found].
  destruct (Z.eqb_spec (th32OwnerProcessID te) dw_owner_pid) as [Ho|_]; cbn [andb].
  - rewrite (Hnone te (or_introl eq_refl) Ho). apply IH.
    intros te' Hin. apply Hnone. now right.
  - apply IH. intros te' Hin. apply Hnone. now right.
Qed.

Lemma last_found_app pre1 : forall pre2 si,
  last_found h dw_owner_pid (pre1 ++ pre2) si =
  last_found h dw_owner_pid pre2 (last_found h dw_owner_pid pre1 si).
Proof.
  induction pre1 as [|te pre1 IH]; intros pre2 si; [reflexivity|].
  cbn [app last_found].
  destruct ((th32OwnerProcessID te =? dw_owner_pid) && lookup_succeeds h te);
    [destruct (VirtualQueryEx h (th32ThreadID te))|]; apply IH.
Qed.

End ThreadListing.

(** C10.  The stack record of the thread listing is shared by the
    iterations and never reset.  For a thread [te32] of the listed process
    whose lookup fails (the thread cannot be opened, the region query fails,
    or the region is not a committed private one), the row printed shows the
    record left by the threads before it: the region found for the most
    recent earlier thread of the process whose lookup succeeded, and zero
    for both fields when no earlier lookup succeeded. *)
Theorem failed_lookup_prints_stale_stack
    (h : ThreadList.thread_host) (dw_owner_pid : Z)
    (pre post : list ThreadList.THREADENTRY32) (te32 : ThreadList.THREADENTRY32)
    (Howner : ThreadList.th32OwnerProcessID te32 = dw_owner_pid)
    (Hfail : ThreadList.lookup_succeeds h te32 = false) :
  let zero := {| ThreadList.sp := 0; ThreadList.size := 0 |} in
  let stale := ThreadList.last_found h dw_owner_pid pre zero in
  ThreadList.list_process_threads h (Some (pre ++ te32 :: post)) true dw_owner_pid =
    (true,
     ThreadList.thread_loop h dw_owner_pid pre zero
       ++ (if ThreadList.OpenThread h (ThreadList.th32ThreadID te32)
           then [ThreadList.FailedStackBase] else [])
       ++ ThreadList.ThreadRow (ThreadList.th32ThreadID te32)
            (ThreadList.tpBasePri te32) (ThreadList.tpDeltaPri te32)
            (ThreadList.sp stale) (ThreadList.size stale)
       :: ThreadList.thread_loop h dw_owner_pid post stale) /\
  ((forall te, In te pre -> ThreadList.th32OwnerProcessID te = dw_owner_pid ->
               ThreadList.lookup_succeeds h te = false) ->
   stale = zero) /\
  (forall pre1 te pre2 _info,
      pre = pre1 ++ te :: pre2 ->
      ThreadList.th32OwnerProcessID te = dw_owner_pid ->
      ThreadList.OpenThread h (ThreadList.th32ThreadID te) = true ->
      ThreadList.VirtualQueryEx h (ThreadList.th32ThreadID te) = Some _info ->
      State _info = MEM_COMMIT -> Type_ _info = MEM_PRIVATE ->
      (forall te', In te' pre2 -> ThreadList.th32OwnerProcessID te' = dw_owner_pid ->
                   ThreadList.lookup_succeeds h te' = false) ->
      stale = {| ThreadList.sp := BaseAddress _info;
                 ThreadList.size := RegionSize _info |}).
Proof.
  intros zero stale. split; [|split].
  - unfold ThreadList.list_process_threads.
    destruct (pre ++ te32 :: post) eqn:Hentries.
    { destruct pre; discriminate. }
    rewrite <- Hentries. f_equal.
    rewrite thread_loop_app, (thread_loop_failed h dw_owner_pid te32 post _ Howner Hfail).
    reflexivity.
  - intros Hnone. now apply last_found_none.
  - intros pre1 te pre2 _info -> Ho Hopen Hquery Hstate Htype Hnone.
    subst stale. rewrite last_found_app. cbn [ThreadList.last_found].
    unfold ThreadList.lookup_succeeds at 1.
    rewrite Ho, Z.eqb_refl, Hopen, Hquery, Hstate, Htype, !Z.eqb_refl. cbn [andb].
    now apply last_found_none.
Qed.

Lemma failed_lookup_prints_stale_stack_witness :
  ThreadList.list_process_threads sample_thread_host
    (Some (sample_threads_before ++ sample_thread_103 :: [])) true 7 =
    (true,
     [ ThreadList.ThreadRow 101 8 0 0x7ff000 0x3000;
       ThreadList.ThreadRow 102 8 0 0x7ff000 0x3000;
       ThreadList.FailedStackBase;
       ThreadList.ThreadRow 103 8 0 0x7ff000 0x3000 ]).
Proof.
  apply (proj1 (failed_lookup_prints_stale_stack sample_thread_host 7
                  sample_threads_before [] sample_thread_103 eq_refl eq_refl)).
Defined.

(* ================================================================= *)
(** * Part III: further properties of the code *)
(* ================================================================= *)

(** ** The plan: which regions, which ranges *)

Section RegionWalkMore.

Variables (pattern_len bs ideal : Z).
Hypothesis Hbs : 0 < bs.
Hypothesis Hideal : bs <= ideal.

(** The walk appends to [info] the retained answers, in order. *)
Lemma enumerate_regions_info queries : forall _p info blocks info' blocks',
  enumerate_regions pattern_len bs ideal queries _p info blocks = Some (info', blocks') ->
  info' = info ++ filter (retained pattern_len) queries.
Proof.
  induction queries as [|q rest IH]; intros p info blocks info' blocks' H;
    cbn [enumerate_regions filter] in *.
  - injection H as <- _. now rewrite app_nil_r.
  - unfold retained at 1.
    destruct (State q =? MEM_COMMIT); cbn [andb]; [|now apply IH in H].
    destruct (RegionSize q <? pattern_len); cbn [negb]; [now apply IH in H|].
    destruct (plan_region _ _ _ _ _ _ _) as [planned|]; [|discriminate].
    apply IH in H. now rewrite H, <- app_assoc.
Qed.

(** Every block the walk adds lies inside the retained region it points to. *)
Lemma enumerate_regions_within queries : forall _p info blocks info' blocks',
  queries_ok bs queries ->
  enumerate_regions pattern_len bs ideal queries _p info blocks = Some (info', blocks') ->
  forall b, In b blocks' ->
    In b blocks \/
    exists pre r post,
      queries = pre ++ r :: post /\ retained pattern_len r = true /\
      nth_error info' (info_id b) = Some r /\
      cursor_after _p pre <= ptr b /\
      ptr b + size b <= cursor_after _p pre + RegionSize r.
Proof.
  induction queries as [|q rest IH]; intros p info blocks info' blocks' Hok H b Hb;
    cbn [enumerate_regions] in H.
  - injection H as <- <-. now left.
  - inversion Hok as [|? ? [Hq0 Hq1] Hrest]; subst.
    assert (Hlater : forall pre r post,
      rest = pre ++ r :: post -> q :: rest = (q :: pre) ++ r :: post)
      by (intros; subst; reflexivity).
    destruct (State q =? MEM_COMMIT) eqn:Hst.
    2:{ destruct (IH _ _ _ _ _ Hrest H b Hb) as [Hin|(pre & r & post & E & Hr)];
          [now left|right].
        exists (q :: pre), r, post. split; [now apply Hlater|exact Hr]. }
    destruct (RegionSize q <? pattern_len) eqn:Hsz.
    { destruct (IH _ _ _ _ _ Hrest H b Hb) as [Hin|(pre & r & post & E & Hr)];
        [now left|right].
      exists (q :: pre), r, post. split; [now apply Hlater|exact Hr]. }
    destruct (plan_region _ _ _ _ _ _ _) as [planned|] eqn:Hplan; [|discriminate].
    destruct (IH _ _ _ _ _ Hrest H b Hb) as [Hin|(pre & r & post & E & Hr)].
    + apply in_app_or in Hin. destruct Hin as [Hin|Hin]; [now left|right].
      pose proof (fun HR Ho Hm => plan_region_blocks bs ideal p _ Hbs Hideal _ _ _ _
                    HR Ho Hm Hplan b Hin) as Hbl.
      destruct (Hbl ltac:(lia) ltac:(lia) ltac:(lia)) as (Hlo & Hhi & _ & Hid).
      exists [], q, rest. split; [reflexivity|].
      split; [unfold retained; now rewrite Hst, Hsz|].
      apply enumerate_regions_extends in H. destruct H as (i2 & b2 & -> & _).
      split; [|unfold cursor_after; cbn [fold_left]; lia].
      rewrite Hid, length_app. cbn [length].
      replace (length info + 1 - 1)%nat with (length info) by lia.
      rewrite <- app_assoc, nth_error_app2 by lia. now rewrite Nat.sub_diag.
    + right. exists (q :: pre), r, post. split; [now apply Hlater|exact Hr].
Qed.

(** Of two neighbours planned for one region, the first is a full block and
    the second starts one stride later. *)
Lemma plan_region_stride _p id fuel : forall region_size bytes_offset planned i b1 b2,
  0 <= region_size -> 0 <= bytes_offset ->
  bytes_offset + region_size + bs < size_t_modulus ->
  plan_region fuel bs ideal _p id region_size bytes_offset = Some planned ->
  nth_error planned i = Some b1 -> nth_error planned (S i) = Some b2 ->
  size b1 = ideal /\ ptr b2 = ptr b1 + bs /\ 0 < size b2 <= ideal.
Proof.
  induction fuel as [|fuel IH]; intros R off planned i b1 b2 HR Hoff Hmax Hplan H1 H2.
  - cbn [plan_region] in Hplan. destruct (Z.eqb_spec R 0); [|discriminate].
    injection Hplan as <-. destruct i; discriminate.
  - destruct (Z.eq_dec R 0) as [->|Hnz].
    { rewrite plan_region_zero in Hplan. injection Hplan as <-. destruct i; discriminate. }
    destruct (Z_le_gt_dec ideal R) as [Hge|Hlt].
    + rewrite plan_region_full in Hplan by lia.
      destruct (plan_region fuel bs ideal _p id (R - bs) (off + bs)) as [rest|] eqn:Hrest;
        [|discriminate].
      injection Hplan as <-. destruct i as [|i]; cbn [nth_error] in H1, H2.
      * injection H1 as <-. destruct rest as [|b rest]; [discriminate|].
        cbn [nth_error] in H2. injection H2 as ->.
        destruct (plan_region_head bs ideal _p id Hbs Hideal fuel (R - bs) (off + bs)
                    b2 rest ltac:(lia) ltac:(lia) ltac:(lia) Hrest) as [Hp Hs].
        assert (R - bs <> 0).
        { intros E. rewrite E, plan_region_zero in Hrest. discriminate. }
        cbn [ptr size]. rewrite Hp, Hs. lia.
      * eapply (IH (R - bs) (off + bs) rest i); [| | |exact Hrest|exact H1|exact H2]; lia.
    + rewrite plan_region_last in Hplan by lia. injection Hplan as <-.
      destruct i as [|[|i]]; discriminate.
Qed.

Lemma enumerate_regions_stride queries : forall _p info blocks info' blocks',
  queries_ok bs queries ->
  stride_inv bs ideal info blocks ->
  enumerate_regions pattern_len bs ideal queries _p info blocks = Some (info', blocks') ->
  stride_inv bs ideal info' blocks'.
Proof.
  induction queries as [|q rest IH]; intros p info blocks info' blocks' Hok Hinv H;
    cbn [enumerate_regions] in H.
  - now injection H as <- <-.
  - inversion Hok as [|? ? [Hq0 Hq1] Hrest]; subst.
    destruct (State q =? MEM_COMMIT); [|now eapply IH; eauto].
    destruct (RegionSize q <? pattern_len); [now eapply IH; eauto|].
    destruct (plan_region _ _ _ _ _ _ _) as [planned|] eqn:Hplan; [|discriminate].
    eapply IH; [exact Hrest| |exact H].
    pose proof (fun HR Ho Hm => plan_region_blocks bs ideal p _ Hbs Hideal _ _ _ _
                  HR Ho Hm Hplan) as Hbl.
    specialize (Hbl ltac:(lia) ltac:(lia) ltac:(lia)).
    destruct Hinv as [Hin Hadj]. split.
    + intros b Hb. rewrite length_app; cbn [length].
      apply in_app_or in Hb. destruct Hb as [Hb|Hb].
      * specialize (Hin b Hb). lia.
      * destruct (Hbl b Hb) as (_ & _ & _ & Hid). rewrite length_app in Hid.
        cbn [length] in Hid. lia.
    + intros i b1 b2 H1 H2 Hsame.
      destruct (nth_error_app_pair _ _ _ _ _ H1 H2)
        as [[G1 G2]|[[G1 G2]|(j & G1 & G2)]].
      * eapply Hadj; eauto.
      * specialize (Hin b1 G1). destruct (Hbl b2 G2) as (_ & _ & _ & Hid).
        rewrite length_app in Hid. cbn [length] in Hid. lia.
      * eapply (plan_region_stride p _ _ (RegionSize q) 0 planned j);
          [| | |exact Hplan|exact G1|exact G2]; lia.
Qed.

End RegionWalkMore.

Lemma stride_inv_nil bs ideal : stride_inv bs ideal [] [].
Proof.
  split.
  - intros b [].
  - intros [|i] b1 b2 H; discriminate.
Qed.

(** X1.  The region table of a scan holds exactly the answers of the region
    query that are committed and not smaller than the pattern, in the order
    of the walk; free, reserved and too small regions are dropped. *)
Theorem plan_keeps_the_committed_regions
    (cfg : scan_config) (pattern_len : Z) (queries : list MEMORY_BASIC_INFORMATION)
    (Hstride : 0 < alloc_granularity cfg * g_num_alloc_blocks cfg)
    (Hlen : 0 <= pattern_len)
    (Hrange : alloc_granularity cfg * g_num_alloc_blocks cfg + extra_chunk pattern_len
                < size_t_modulus)
    (Hok : queries_ok (block_size cfg) queries) :
  exists blocks,
    plan_blocks cfg pattern_len queries
      = Some (filter (retained pattern_len) queries, blocks).
Proof.
  destruct (plan_blocks_ok cfg pattern_len Hstride Hlen Hrange queries Hok)
    as (info & blocks & Hplan & _).
  exists blocks. rewrite Hplan.
  apply enumerate_regions_info in Hplan. now subst info.
Qed.

Lemma plan_keeps_the_committed_regions_witness :
  exists blocks,
    plan_blocks sample_cfg 1 (sample_queries ++ [small_region])
      = Some (filter (retained 1) (sample_queries ++ [small_region]), blocks).
Proof.
  apply (plan_keeps_the_committed_regions sample_cfg 1 (sample_queries ++ [small_region])).
  - reflexivity.
  - lia.
  - reflexivity.
  - repeat constructor; vm_compute; congruence.
Defined.

(** X2.  Every planned block lies inside a region the walk retained (a
    committed answer of at least [pattern_len] bytes), which is the region
    its [info_id] points to; no block reaches past the end of its region, no
    block is empty and none is longer than [S + overlap]. *)
Theorem blocks_stay_inside_their_region
    (cfg : scan_config) (pattern_len : Z) (queries : list MEMORY_BASIC_INFORMATION)
    (info : list MEMORY_BASIC_INFORMATION) (blocks : list block) (b : block)
    (Hstride : 0 < alloc_granularity cfg * g_num_alloc_blocks cfg)
    (Hlen : 0 <= pattern_len)
    (Hrange : alloc_granularity cfg * g_num_alloc_blocks cfg + extra_chunk pattern_len
                < size_t_modulus)
    (Hok : queries_ok (block_size cfg) queries)
    (Hplan : plan_blocks cfg pattern_len queries = Some (info, blocks))
    (Hb : In b blocks) :
  exists pre r post,
    queries = pre ++ r :: post /\
    State r = MEM_COMMIT /\ pattern_len <= RegionSize r /\
    nth_error info (info_id b) = Some r /\
    cursor_after 0 pre <= ptr b /\
    ptr b + size b <= cursor_after 0 pre + RegionSize r /\
    0 < size b <= block_size cfg + extra_chunk pattern_len.
Proof.
  destruct (plan_blocks_ok cfg pattern_len Hstride Hlen Hrange queries Hok)
    as (info0 & blocks0 & Hplan0 & Hsizes & _).
  rewrite Hplan in Hplan0. injection Hplan0 as <- <-.
  plan_facts cfg pattern_len Hstride Hlen Hrange.
  destruct (enumerate_regions_within pattern_len (block_size cfg)
              (bytes_to_read_ideal cfg pattern_len)
              (block_size_pos cfg pattern_len Hstride Hlen Hrange)
              (ideal_ge_block_size cfg pattern_len Hstride Hlen Hrange)
              queries 0 [] [] info blocks Hok Hplan b Hb)
    as [[]|(pre & r & post & E & Hr & Hinfo & Hlo & Hhi)].
  exists pre, r, post. unfold retained in Hr.
  apply andb_true_iff in Hr. destruct Hr as [Hst Hsz].
  apply Z.eqb_eq in Hst. apply negb_true_iff, Z.ltb_ge in Hsz.
  destruct (Hsizes b Hb) as [_ Hs].
  repeat split; try assumption; lia.
Qed.

Lemma blocks_stay_inside_their_region_witness :
  exists pre r post,
    sample_queries = pre ++ r :: post /\
    State r = MEM_COMMIT /\ 1 <= RegionSize r /\
    nth_error [sample_committed_region] (info_id sample_block) = Some r /\
    cursor_after 0 pre <= ptr sample_block /\
    ptr sample_block + size sample_block <= cursor_after 0 pre + RegionSize r /\
    0 < size sample_block <= block_size sample_cfg + extra_chunk 1.
Proof.
  apply (blocks_stay_inside_their_region sample_cfg 1 sample_queries
           [sample_committed_region]
           [sample_block; {| ptr := 0x20000; size := 0x10000; info_id := 0 |}]).
  - reflexivity.
  - lia.
  - reflexivity.
  - repeat constructor; vm_compute; congruence.
  - reflexivity.
  - left. reflexivity.
Defined.

(** X3.  Every byte of every retained region lies inside at least one block
    planned for that region (patterns of at least one byte). *)
Theorem every_byte_is_in_a_block
    (cfg : scan_config) (pattern_len : Z)
    (pre post : list MEMORY_BASIC_INFORMATION) (r : MEMORY_BASIC_INFORMATION)
    (a : Z)
    (Hstride : 0 < alloc_granularity cfg * g_num_alloc_blocks cfg)
    (Hlen : 1 <= pattern_len)
    (Hrange : alloc_granularity cfg * g_num_alloc_blocks cfg + extra_chunk pattern_len
                < size_t_modulus)
    (Hok : queries_ok (block_size cfg) (pre ++ r :: post))
    (Hcommit : State r = MEM_COMMIT)
    (Hsize : pattern_len <= RegionSize r)
    (Ha : cursor_after 0 pre <= a < cursor_after 0 pre + RegionSize r) :
  exists info blocks b,
    plan_blocks cfg pattern_len (pre ++ r :: post) = Some (info, blocks) /\
    In b blocks /\ nth_error info (info_id b) = Some r /\
    ptr b <= a < ptr b + size b.
Proof.
  assert (Hlen0 : 0 <= pattern_len) by lia.
  destruct (plan_blocks_ok cfg pattern_len Hstride Hlen0 Hrange _ Hok)
    as (info & blocks & Hplan & _).
  plan_facts cfg pattern_len Hstride Hlen0 Hrange.
  destruct (enumerate_regions_covers pattern_len (block_size cfg)
              (bytes_to_read_ideal cfg pattern_len)
              (block_size_pos cfg pattern_len Hstride Hlen0 Hrange)
              (ideal_ge_block_size cfg pattern_len Hstride Hlen0 Hrange)
              pre 0 [] [] info blocks r post (a - cursor_after 0 pre) 1
              Hok Hplan Hcommit Hsize ltac:(lia) ltac:(lia) ltac:(lia))
    as (b & Hin & [Hlo Hhi] & Hinfo).
  exists info, blocks, b. repeat split; try assumption; lia.
Qed.

Lemma every_byte_is_in_a_block_witness :
  exists info blocks b,
    plan_blocks sample_cfg 1 ([sample_free_region] ++ sample_committed_region :: [])
      = Some (info, blocks) /\
    In b blocks /\ nth_error info (info_id b) = Some sample_committed_region /\
    ptr b <= 0x2ffff < ptr b + size b.
Proof.
  apply (every_byte_is_in_a_block sample_cfg 1 [sample_free_region] []
           sample_committed_region 0x2ffff).
  - reflexivity.
  - lia.
  - reflexivity.
  - repeat constructor; vm_compute; congruence.
  - reflexivity.
  - vm_compute; congruence.
  - split; vm_compute; congruence.
Defined.

(** X4.  Of two neighbours of the block table that belong to one region,
    the first has the full size [S + overlap] and the second starts exactly
    one stride [S] after it: the blocks of a region follow one another in
    ascending address order, and only the last one can be shorter. *)
Theorem blocks_follow_at_stride
    (cfg : scan_config) (pattern_len : Z) (queries : list MEMORY_BASIC_INFORMATION)
    (info : list MEMORY_BASIC_INFORMATION) (blocks : list block)
    (i : nat) (b1 b2 : block)
    (Hstride : 0 < alloc_granularity cfg * g_num_alloc_blocks cfg)
    (Hlen : 0 <= pattern_len)
    (Hrange : alloc_granularity cfg * g_num_alloc_blocks cfg + extra_chunk pattern_len
                < size_t_modulus)
    (Hok : queries_ok (block_size cfg) queries)
    (Hplan : plan_blocks cfg pattern_len queries = Some (info, blocks))
    (H1 : nth_error blocks i = Some b1)
    (H2 : nth_error blocks (S i) = Some b2)
    (Hsame : info_id b1 = info_id b2) :
  size b1 = block_size cfg + extra_chunk pattern_len /\
  ptr b2 = ptr b1 + block_size cfg /\
  0 < size b2 <= size b1.
Proof.
  plan_facts cfg pattern_len Hstride Hlen Hrange.
  destruct (enumerate_regions_stride pattern_len (block_size cfg)
              (bytes_to_read_ideal cfg pattern_len)
              (block_size_pos cfg pattern_len Hstride Hlen Hrange)
              (ideal_ge_block_size cfg pattern_len Hstride Hlen Hrange)
              queries 0 [] [] info blocks Hok (stride_inv_nil _ _) Hplan)
    as [_ Hadj].
  destruct (Hadj i b1 b2 H1 H2 Hsame) as (Hs1 & Hp & Hs2). lia.
Qed.

Lemma blocks_follow_at_stride_witness :
  size (nth 0 wide_blocks sample_block) = block_size wide_cfg + extra_chunk 8 /\
  ptr (nth 1 wide_blocks sample_block)
    = ptr (nth 0 wide_blocks sample_block) + block_size wide_cfg /\
  0 < size (nth 1 wide_blocks sample_block) <= size (nth 0 wide_blocks sample_block).
Proof.
  apply (blocks_follow_at_stride wide_cfg 8 wide_queries [wide_region] wide_blocks 0).
  - reflexivity.
  - lia.
  - reflexivity.
  - repeat constructor; vm_compute; congruence.
  - reflexivity.
  - reflexivity.
  - reflexivity.
  - reflexivity.
Defined.

(** X5.  With a stride of zero (stride factor 0) the planning loop of a
    region that holds a full block never ends: [region_size -= block_size]
    leaves the size as it is, so no number of iterations completes the
    plan. *)
Theorem zero_stride_never_ends
    (cfg : scan_config) (pattern_len _p : Z) (id : nat)
    (region_size bytes_offset : Z) (fuel : nat)
    (Hzero : g_num_alloc_blocks cfg = 0)
    (Hlen : 0 <= pattern_len)
    (Hregion : 0 < region_size < size_t_modulus)
    (Hfull : extra_chunk pattern_len <= region_size) :
  plan_region fuel (block_size cfg) (bytes_to_read_ideal cfg pattern_len) _p id
    region_size bytes_offset = None.
Proof.
  assert (Hbs : block_size cfg = 0).
  { unfold block_size. rewrite Hzero, Z.mul_0_r. reflexivity. }
  assert (Hideal : bytes_to_read_ideal cfg pattern_len = extra_chunk pattern_len).
  { unfold bytes_to_read_ideal. rewrite Hbs, Z.add_0_l.
    apply wrap_size_t_small. pose proof (extra_chunk_ge pattern_len). lia. }
  rewrite Hbs, Hideal. revert bytes_offset.
  induction fuel as [|fuel IH]; intros off; cbn [plan_region];
    (destruct (Z.eqb_spec region_size 0); [lia|]); [reflexivity|].
  destruct (Z.leb_spec (extra_chunk pattern_len) region_size); [|lia].
  rewrite Z.sub_0_r, (wrap_size_t_small region_size) by lia.
  now rewrite IH.
Qed.

Lemma zero_stride_never_ends_witness :
  plan_region 1000 (block_size zero_stride_cfg) (bytes_to_read_ideal zero_stride_cfg 1)
    0x10000 0 0x20000 0 = None.
Proof.
  apply (zero_stride_never_ends zero_stride_cfg 1 0x10000 0 0x20000 0 1000).
  - reflexivity.
  - lia.
  - split; reflexivity.
  - vm_compute; congruence.
Defined.

(** ** The matches of a block *)

Section MatchOrder.

Variables (buffer pattern : list byte) (pattern_len ptr : Z).
Hypothesis Hsz : pattern_len = Z.of_nat (length pattern).
Hypothesis Hlen : 1 <= pattern_len.

(** The loop records strictly ascending addresses, each of an occurrence
    that fits in its window. *)
Lemma match_loop_ascending fuel : forall buffer_ptr buffer_size found,
  0 <= buffer_ptr -> 0 <= buffer_size < size_t_modulus ->
  match_loop fuel buffer pattern pattern_len ptr buffer_ptr buffer_size = Some found ->
  StronglySorted Z.lt found /\
  Forall (fun a => ptr + buffer_ptr <= a /\
                   a + pattern_len <= ptr + buffer_ptr + buffer_size) found.
Proof.
  induction fuel as [|fuel IH]; intros pos n found Hpos Hn Hrun;
    cbn [match_loop] in Hrun;
    destruct (Z.ltb_spec n pattern_len) as [Hshort|Hge];
    try (injection Hrun as <-; split; constructor); try discriminate.
  destruct (strstr_u8 (skipn (Z.to_nat pos) buffer) n pattern pattern_len)
    as [r|] eqn:Hsearch; [|injection Hrun as <-; split; constructor].
  destruct (strstr_u8_some pattern pattern_len Hsz _ _ _ Hsearch) as (Hr0 & Hr1 & _).
  replace (pos + r + 1 - pos) with (r + 1) in Hrun by lia.
  rewrite wrap_size_t_small in Hrun by lia.
  destruct (match_loop fuel buffer pattern pattern_len ptr (pos + r + 1) (n - (r + 1)))
    as [rest|] eqn:Hrest; [|discriminate].
  injection Hrun as <-.
  destruct (IH (pos + r + 1) (n - (r + 1)) rest ltac:(lia) ltac:(lia) Hrest)
    as [Hsorted Hall].
  split.
  - constructor; [exact Hsorted|].
    eapply Forall_impl; [|exact Hall]. cbn beta. intros a Ha. lia.
  - constructor; [lia|].
    eapply Forall_impl; [|exact Hall]. cbn beta. intros a Ha. lia.
Qed.

Lemma find_in_buffer_ascending bytes_read found :
  0 <= bytes_read < size_t_modulus ->
  find_in_buffer buffer pattern pattern_len ptr bytes_read = Some found ->
  StronglySorted Z.lt found /\
  Forall (fun a => ptr <= a /\ a + pattern_len <= ptr + bytes_read) found.
Proof.
  intros Hn Hrun. unfold find_in_buffer in Hrun.
  destruct (pattern_len <=? bytes_read).
  - destruct (match_loop_ascending _ 0 bytes_read found ltac:(lia) Hn Hrun) as [Hs Hall].
    split; [exact Hs|]. eapply Forall_impl; [|exact Hall]. cbn beta. intros a Ha. lia.
  - injection Hrun as <-. split; constructor.
Qed.

End MatchOrder.

(** X6.  The match list of a block is strictly ascending, so it holds no
    address twice, and every address in it is that of an occurrence lying
    wholly within the bytes the read returned: the address lies in that
    range with the whole pattern, and the pattern stands at its offset in
    the buffer the read left.  This holds for full, short and failed reads
    alike (after a failed read the list is empty). *)
Theorem block_matches_ascend_within_the_read
    (cfg : scan_config) (pattern : list byte) (b : block) (buffer : list byte)
    (rd : read_outcome) (found : list Z) (evs : list event) (buffer' : list byte)
    (Hlen : (1 <= length pattern)%nat)
    (Hcount : 0 <= bytes_read rd < size_t_modulus)
    (Hrun : block_body cfg pattern (Z.of_nat (length pattern)) b buffer rd
              = Some (found, evs, buffer')) :
  StronglySorted Z.lt found /\
  Forall (fun a => ptr b <= a /\
                   a + Z.of_nat (length pattern) <= ptr b + bytes_read rd /\
                   matches_at buffer' pattern (a - ptr b) = true) found /\
  buffer' = store_buffer (written rd) buffer /\
  (res rd = false -> found = []).
Proof.
  assert (Hbuf : buffer' = store_buffer (written rd) buffer).
  { unfold block_body in Hrun. destruct (read_check cfg b rd) as [[|] diag].
    - now injection Hrun as _ _ <-.
    - destruct (find_in_buffer _ _ _ _ _); [|discriminate].
      now injection Hrun as _ _ <-. }
  assert (Hfail : res rd = false -> found = []).
  { intros Hres. rewrite block_body_hard_failure in Hrun by exact Hres.
    now injection Hrun as <- _ _. }
  split; [|split; [|split; [exact Hbuf|exact Hfail]]];
    unfold block_body in Hrun; destruct (read_check cfg b rd) as [[|] diag];
    try (injection Hrun as <- _ _; constructor);
    (destruct (find_in_buffer _ _ _ _ _) as [found0|] eqn:Hfind; [|discriminate]);
    injection Hrun as <- _ _.
  - eapply find_in_buffer_ascending; eauto. lia.
  - assert (HlenZ : 1 <= Z.of_nat (length pattern)) by lia.
    destruct (find_in_buffer_ascending (store_buffer (written rd) buffer) pattern
                (Z.of_nat (length pattern)) (ptr b) eq_refl HlenZ
                (bytes_read rd) found0 Hcount Hfind) as [_ Hrange].
    destruct (find_in_buffer_spec (store_buffer (written rd) buffer) pattern
                (Z.of_nat (length pattern)) (ptr b) eq_refl HlenZ
                (bytes_read rd) Hcount) as (found1 & Hfind1 & Hspec).
    rewrite Hfind in Hfind1. injection Hfind1 as <-.
    rewrite Hbuf. apply Forall_forall. intros a Ha.
    rewrite Forall_forall in Hrange. destruct (Hrange a Ha) as [R1 R2].
    split; [exact R1|]. split; [exact R2|].
    replace a with (ptr b + (a - ptr b)) in Ha by lia.
    apply Hspec in Ha. apply Ha.
Qed.

Lemma block_matches_ascend_within_the_read_witness :
  StronglySorted Z.lt [0x10000] /\
  Forall (fun a => ptr sample_block <= a /\
                   a + Z.of_nat (length [byte_A])
                     <= ptr sample_block + bytes_read short_read /\
                   matches_at [byte_A; Byte.x00] [byte_A] (a - ptr sample_block) = true)
         [0x10000] /\
  [byte_A; Byte.x00] = store_buffer (written short_read) [] /\
  (res short_read = false -> [0x10000] = []).
Proof.
  apply (block_matches_ascend_within_the_read sample_cfg [byte_A] sample_block []
           short_read [0x10000]
           [EvRead 0x10000 0x10010; EvRelease 0x10010; EvNotifyAll]
           [byte_A; Byte.x00]).
  - cbn [length]. lia.
  - split; [vm_compute; congruence|reflexivity].
  - reflexivity.
Defined.

(** ** The scan over a target whose reads return in full *)

Lemma matches_at_read_full_inv mem p n stale pat o :
  0 <= o -> o + Z.of_nat (length pat) <= n ->
  matches_at (store_buffer (bytes_at mem p (Z.to_nat n)) stale) pat o = true ->
  bytes_at mem (p + o) (length pat) = pat.
Proof.
  intros Ho Hfit Hm. unfold matches_at, store_buffer in Hm.
  apply prefix_eqb_firstn in Hm.
  rewrite skipn_app, bytes_at_length, bytes_at_skipn in Hm by lia.
  rewrite firstn_app, bytes_at_length, bytes_at_firstn in Hm by lia.
  replace (length pat - (Z.to_nat n - Z.to_nat o))%nat with 0%nat in Hm by lia.
  cbn [firstn] in Hm. rewrite app_nil_r, Z2Nat.id in Hm by lia. exact Hm.
Qed.

(** What a worker records for a block read in full: exactly the addresses
    inside the block at which the pattern stands in the target. *)
Lemma block_body_read_full cfg pattern mem b buffer :
  (1 <= length pattern)%nat -> 0 <= size b < size_t_modulus ->
  exists found evs buffer',
    block_body cfg pattern (Z.of_nat (length pattern)) b buffer
      (read_full mem (ptr b) (size b)) = Some (found, evs, buffer') /\
    forall a, In a found <->
              (block_contains b a (Z.of_nat (length pattern)) /\
               bytes_at mem a (length pattern) = pattern).
Proof.
  intros Hlen Hsize.
  destruct (block_body_read cfg pattern _ b buffer (read_full mem (ptr b) (size b))
              eq_refl Hlen eq_refl Hsize) as (found & diag & Hrun & _ & Hspec).
  do 3 eexists. split; [exact Hrun|].
  cbn [read_full written bytes_read] in Hspec.
  intros a. replace a with (ptr b + (a - ptr b)) at 1 by lia.
  rewrite Hspec. unfold occurs_in, block_contains. split.
  - intros (H0 & H1 & Hm). split; [lia|].
    apply matches_at_read_full_inv in Hm; try lia.
    now replace (ptr b + (a - ptr b)) with a in Hm by lia.
  - intros ([Hlo Hhi] & Hocc). repeat split; try lia.
    apply matches_at_read_full; try lia.
    now replace (ptr b + (a - ptr b)) with a by lia.
Qed.

Lemma Forall2_nth_error_r {A B} (R : A -> B -> Prop) l1 l2 :
  Forall2 R l1 l2 ->
  forall i y, nth_error l2 i = Some y -> exists x, nth_error l1 i = Some x /\ R x y.
Proof.
  induction 1 as [|x y l1 l2 Hxy _ IH]; intros [|i] z Hz; cbn [nth_error] in *;
    try discriminate.
  - injection Hz as <-. eauto.
  - now apply IH.
Qed.

Lemma Forall2_nth_error_l {A B} (R : A -> B -> Prop) l1 l2 :
  Forall2 R l1 l2 ->
  forall i x, nth_error l1 i = Some x -> exists y, nth_error l2 i = Some y /\ R x y.
Proof.
  induction 1 as [|x y l1 l2 Hxy _ IH]; intros [|i] z Hz; cbn [nth_error] in *;
    try discriminate.
  - injection Hz as <-. eauto.
  - now apply IH.
Qed.

(** The match vector a worker leaves holds, slot by slot, what the body of
    the loop records for the block of that index. *)
Lemma worker_loop_matches cfg pattern pattern_len rpm blocks : forall st st',
  worker_loop cfg pattern pattern_len rpm blocks st = Done st' ->
  exists founds,
    match_of st' = match_of st ++ founds /\
    Forall2 (fun b found => exists buffer evs buffer',
               block_body cfg pattern pattern_len b buffer (rpm (ptr b) (size b))
                 = Some (found, evs, buffer'))
            blocks founds.
Proof.
  induction blocks as [|b blocks IH]; intros st st' Hrun; cbn [worker_loop] in Hrun.
  - injection Hrun as <-. exists []. split; [now rewrite app_nil_r|constructor].
  - unfold worker_iteration in Hrun.
    destruct (g_memory_usage_bytes st <? g_memory_limit cfg); [|discriminate].
    destruct (block_body cfg pattern pattern_len b (buffer_of st) (rpm (ptr b) (size b)))
      as [[[found evs] buffer']|] eqn:Hbody; [|discriminate].
    apply IH in Hrun. destruct Hrun as (founds & Hm & Hall).
    cbn [match_of] in Hm. exists (found :: founds).
    split; [now rewrite Hm, <- app_assoc|].
    constructor; [|exact Hall]. eauto.
Qed.

(** X7.  When every read returns the bytes of the target in full, an
    address recorded in slot [i] of the match vector lies, with the whole
    pattern, inside block [i], and the pattern does stand at that address in
    the memory of the target: the scan records no false match. *)
Theorem recorded_matches_are_occurrences
    (cfg : scan_config) (h : host) (pattern : list byte) (mem : Z -> byte)
    (rep : scan_report) (i : nat) (found : list Z) (a : Z)
    (Hstride : 0 < alloc_granularity cfg * g_num_alloc_blocks cfg)
    (Hlen : (1 <= length pattern)%nat)
    (Hrange : alloc_granularity cfg * g_num_alloc_blocks cfg
                + extra_chunk (Z.of_nat (length pattern)) < size_t_modulus)
    (Hok : queries_ok (block_size cfg) (VirtualQueryEx_answers h))
    (Hreads : forall p n, ReadProcessMemory h p n = read_full mem p n)
    (Hscan : find_pattern cfg h pattern (Z.of_nat (length pattern)) = Done rep)
    (Hslot : nth_error (rep_match rep) i = Some found)
    (Ha : In a found) :
  exists b,
    nth_error (rep_blocks rep) i = Some b /\
    block_contains b a (Z.of_nat (length pattern)) /\
    bytes_at mem a (length pattern) = pattern.
Proof.
  assert (Hlen0 : 0 <= Z.of_nat (length pattern)) by lia.
  destruct (plan_blocks_ok cfg _ Hstride Hlen0 Hrange _ Hok)
    as (info & blocks & Hplan & Hsizes & _).
  plan_facts cfg (Z.of_nat (length pattern)) Hstride Hlen0 Hrange.
  unfold find_pattern in Hscan. rewrite Hplan in Hscan.
  destruct (worker_loop _ _ _ _ _ _) as [st| |] eqn:Hloop; try discriminate.
  injection Hscan as <-. cbn [rep_match rep_blocks] in *.
  destruct (worker_loop_matches _ _ _ _ _ _ _ Hloop) as (founds & Hm & Hall).
  cbn [match_of app] in Hm. rewrite Hm in Hslot.
  destruct (Forall2_nth_error_r _ _ _ Hall i found Hslot)
    as (b & Hb & buffer & evs & buffer' & Hbody).
  exists b. split; [exact Hb|].
  rewrite Hreads in Hbody.
  destruct (Hsizes b (nth_error_In _ _ Hb)) as [_ Hs].
  destruct (block_body_read_full cfg pattern mem b buffer Hlen ltac:(lia))
    as (found' & evs' & buffer'' & Hbody' & Hspec).
  rewrite Hbody in Hbody'. injection Hbody' as <- _ _.
  now apply Hspec.
Qed.

Lemma recorded_matches_are_occurrences_witness :
  exists b,
    nth_error
      [ {| ptr := 0x10000; size := 0x10010; info_id := 0 |};
        {| ptr := 0x20000; size := 0x10000; info_id := 0 |} ] 1 = Some b /\
    block_contains b 0x20001 (Z.of_nat (length [byte_A])) /\
    bytes_at sample_mem 0x20001 (length [byte_A]) = [byte_A].
Proof.
  apply (recorded_matches_are_occurrences sample_cfg sample_host [byte_A] sample_mem
           {| rep_info := [sample_committed_region];
              rep_blocks := [ {| ptr := 0x10000; size := 0x10010; info_id := 0 |};
                              {| ptr := 0x20000; size := 0x10000; info_id := 0 |} ];
              rep_match := [[0x20000; 0x20001]; [0x20000; 0x20001]];
              rep_trace :=
                [ EvAcquire 0x10010; EvRead 0x10000 0x10010; EvRelease 0x10010;
                  EvNotifyAll;
                  EvAcquire 0x10000; EvRead 0x20000 0x10000; EvRelease 0x10000;
                  EvNotifyAll ];
              rep_output :=
                [ OutApproximate 4; OutBlank;
                  OutRegion sample_committed_region; OutBlank;
                  OutMatch 0x20000; OutMatch 0x20001; OutBlank;
                  OutRegion sample_committed_region; OutBlank;
                  OutMatch 0x20000; OutMatch 0x20001; OutBlank ] |}
           1 [0x20000; 0x20001] 0x20001).
  - reflexivity.
  - cbn [length]. lia.
  - reflexivity.
  - repeat constructor; vm_compute; congruence.
  - intros p n. reflexivity.
  - vm_compute. reflexivity.
  - reflexivity.
  - right. left. reflexivity.
Defined.

(** ** What the aggregator prints *)

Lemma printed_addresses_app l1 l2 :
  printed_addresses (l1 ++ l2) = printed_addresses l1 ++ printed_addresses l2.
Proof. apply flat_map_app. Qed.

Lemma printed_addresses_region module_name r_info :
  printed_addresses (print_region module_name r_info) = [].
Proof.
  unfold print_region. rewrite printed_addresses_app.
  destruct (Type_ r_info =? MEM_IMAGE); [destruct (module_name _)|]; reflexivity.
Qed.

Lemma last_cons_default (l : list Z) : forall x d, last (x :: l) d = last l x.
Proof.
  induction l as [|y l IH]; intros x d; [reflexivity|].
  change (last (x :: y :: l) d) with (last (y :: l) d).
  now rewrite !IH.
Qed.

(** The inner printing loop: what it prints comes from its list; every
    element of the list is printed unless it equals the address printed
    just before; no address follows itself; and the loop leaves in
    [prev_match] the last address it printed. *)
Lemma print_matches_spec ms : forall prev out prev',
  print_matches ms prev = (out, prev') ->
  (forall a, In a (printed_addresses out) -> In a ms) /\
  (forall a, In a ms -> a = prev \/ In a (printed_addresses out)) /\
  distinct_from_previous prev (printed_addresses out) /\
  prev' = last (printed_addresses out) prev.
Proof.
  induction ms as [|m ms IH]; intros prev out prev' H; cbn [print_matches] in H.
  - injection H as <- <-. cbn. repeat split; auto.
  - destruct (Z.eqb_spec prev m) as [->|Hne].
    + destruct (IH _ _ _ H) as (H1 & H2 & H3 & H4). repeat split; auto.
      * intros a Ha. right. now apply H1.
      * intros a [<-|Ha]; [now left|now apply H2].
    + destruct (print_matches ms m) as [out0 prev0] eqn:Hrec.
      injection H as <- <-. destruct (IH _ _ _ Hrec) as (H1 & H2 & H3 & H4).
      cbn [printed_addresses flat_map app] in *.
      fold (printed_addresses out0) in *. repeat split; auto.
      * intros a [<-|Ha]; [now left|right; now apply H1].
      * intros a [<-|Ha]; [right; now left|].
        destruct (H2 a Ha) as [->|Hin]; right; [now left|now right].
      * rewrite H4. symmetry. apply last_cons_default.
Qed.

Lemma last_or_default (l : list Z) d : last l d = d \/ In (last l d) l.
Proof.
  destruct l as [|x l]; [now left|right].
  revert x. induction l as [|y l IH]; intros x.
  - now left.
  - right. apply (IH y).
Qed.

Lemma distinct_from_previous_app l1 : forall prev l2,
  distinct_from_previous prev l1 ->
  distinct_from_previous (last l1 prev) l2 ->
  distinct_from_previous prev (l1 ++ l2).
Proof.
  induction l1 as [|x l1 IH]; intros prev l2 H1 H2; cbn [app]; [exact H2|].
  destruct H1 as [Hx H1]. split; [exact Hx|]. apply IH; [exact H1|].
  now rewrite <- (last_cons_default l1 x prev).
Qed.

Lemma distinct_from_previous_nth l : forall prev i x y,
  distinct_from_previous prev l ->
  nth_error l i = Some x -> nth_error l (S i) = Some y -> x <> y.
Proof.
  induction l as [|z l IH]; intros prev i x y H Hx Hy; [destruct i; discriminate|].
  destruct H as [_ H]. destruct i as [|i]; cbn [nth_error] in Hx, Hy.
  - injection Hx as ->. destruct l as [|w l]; [discriminate|].
    injection Hy as ->. destruct H as [Hw _]. congruence.
  - eapply IH; eauto.
Qed.

(** The printing loop over the blocks. *)
Lemma print_blocks_spec module_name info blocks : forall match_ prev,
  let out := printed_addresses (print_blocks module_name info blocks match_ prev) in
  (forall a, In a out -> exists m, In m match_ /\ In a m) /\
  distinct_from_previous prev out /\
  (length blocks = length match_ ->
   forall m a, In m match_ -> In a m -> a = prev \/ In a out).
Proof.
  induction blocks as [|b blocks IH]; intros match_ prev; cbn zeta.
  - cbn [print_blocks]. split; [intros a []|]. split; [exact I|].
    intros Hlen m a Hm. destruct match_; [destruct Hm|discriminate].
  - destruct match_ as [|m match_]; cbn [print_blocks].
    { split; [intros a []|]. split; [exact I|]. discriminate. }
    destruct m as [|m0 m].
    + destruct (IH match_ prev) as (H1 & H2 & H3). split; [|split].
      * intros a Ha. destruct (H1 a Ha) as (m & Hm & Hin). exists m. split; [now right|auto].
      * exact H2.
      * intros Hlen m a [<-|Hm] Ha; [destruct Ha|].
        apply (H3 ltac:(cbn [length] in Hlen; lia) m a Hm Ha).
    + destruct (print_matches (m0 :: m) prev) as [out0 prev0] eqn:Hpm.
      destruct (print_matches_spec _ _ _ _ Hpm) as (P1 & P2 & P3 & P4).
      destruct (IH match_ prev0) as (H1 & H2 & H3).
      rewrite !printed_addresses_app, printed_addresses_region. cbn [app].
      change (printed_addresses [OutBlank]) with (@nil Z). cbn [app].
      split; [|split].
      * intros a Ha. apply in_app_or in Ha. destruct Ha as [Ha|Ha].
        -- exists (m0 :: m). split; [now left|now apply P1].
        -- destruct (H1 a Ha) as (m' & Hm & Hin). exists m'. split; [now right|auto].
      * apply distinct_from_previous_app; [exact P3|]. now rewrite <- P4.
      * intros Hlen m' a [<-|Hm] Ha.
        -- destruct (P2 a Ha) as [->|Hin]; [now left|right].
           apply in_or_app. now left.
        -- destruct (H3 ltac:(cbn [length] in Hlen; lia) m' a Hm Ha) as [->|Hin].
           ++ destruct (last_or_default (printed_addresses out0) prev) as [E|E];
                rewrite P4; [left; exact E|right; apply in_or_app; now left].
           ++ right. apply in_or_app. now right.
Qed.

(** X8.  Whatever the match vector, the aggregator prints only addresses
    that some block recorded, and never prints the same address twice in a
    row. *)
Theorem printed_addresses_are_recorded_and_never_repeat_in_a_row :
  forall (too_many : Z -> bool) (module_name : Z -> option string)
         (info : list MEMORY_BASIC_INFORMATION) (blocks : list block)
         (match_ : list (list Z)),
    let out := printed_addresses (aggregate too_many module_name info blocks match_) in
    (forall a, In a out -> exists m, In m match_ /\ In a m) /\
    (forall i x y, nth_error out i = Some x -> nth_error out (S i) = Some y -> x <> y).
Proof.
  intros too_many module_name info blocks match_. cbn zeta. unfold aggregate.
  destruct (num_matches match_ =? 0).
  { split; [intros a []|intros [|i] x y H; discriminate]. }
  destruct (too_many (num_matches match_)).
  { split; [intros a []|intros [|i] x y H; discriminate]. }
  change (printed_addresses (OutApproximate (num_matches match_) :: OutBlank
            :: print_blocks module_name info blocks match_ no_prev_match))
    with (printed_addresses (print_blocks module_name info blocks match_ no_prev_match)).
  destruct (print_blocks_spec module_name info blocks match_ no_prev_match)
    as (H1 & H2 & _).
  split; [exact H1|].
  intros i x y. apply (distinct_from_previous_nth _ _ _ _ _ H2).
Qed.

Lemma num_matches_from l : forall n,
  fold_left (fun n (m : list Z) => n + Z.of_nat (length m)) l n
  = n + fold_left (fun n (m : list Z) => n + Z.of_nat (length m)) l 0.
Proof.
  induction l as [|m l IH]; intros n; cbn [fold_left]; [lia|].
  rewrite IH, (IH (0 + _)). lia.
Qed.

(** The count of line 168 is the total length of the match lists; it is 0
    only when every list is empty. *)
Lemma num_matches_cons m match_ :
  num_matches (m :: match_) = Z.of_nat (length m) + num_matches match_.
Proof. unfold num_matches. cbn [fold_left]. now rewrite num_matches_from. Qed.

Lemma num_matches_nonneg match_ : 0 <= num_matches match_.
Proof.
  induction match_ as [|m match_ IH]; [reflexivity|].
  rewrite num_matches_cons. lia.
Qed.

Lemma num_matches_pos match_ m a :
  In m match_ -> In a m -> 0 < num_matches match_.
Proof.
  induction match_ as [|m0 match_ IH]; intros Hm Ha; [destruct Hm|].
  rewrite num_matches_cons. pose proof (num_matches_nonneg match_).
  destruct Hm as [->|Hm].
  - destruct m; [destruct Ha|]. cbn [length]. lia.
  - specialize (IH Hm Ha). lia.
Qed.

(** X9.  End to end, for a scan run by one worker over a target whose reads
    return in full: when the pattern stands at an address of a region the
    walk retains, the budget is at least one byte and the result ceiling does
    not suppress the listing, the scan completes and the listing shows that
    address. *)
Theorem every_occurrence_is_printed
    (cfg : scan_config) (h : host) (pattern : list byte) (mem : Z -> byte)
    (pre post : list MEMORY_BASIC_INFORMATION) (r : MEMORY_BASIC_INFORMATION)
    (o : Z)
    (Hstride : 0 < alloc_granularity cfg * g_num_alloc_blocks cfg)
    (Hlen : (1 <= length pattern)%nat)
    (Hrange : alloc_granularity cfg * g_num_alloc_blocks cfg
                + extra_chunk (Z.of_nat (length pattern)) < size_t_modulus)
    (Hwalk : VirtualQueryEx_answers h = pre ++ r :: post)
    (Hok : queries_ok (block_size cfg) (pre ++ r :: post))
    (Hcommit : State r = MEM_COMMIT)
    (Hsize : Z.of_nat (length pattern) <= RegionSize r)
    (Hend : cursor_after 0 pre + RegionSize r < size_t_modulus)
    (Ho : 0 <= o)
    (Hfit : o + Z.of_nat (length pattern) <= RegionSize r)
    (Hocc : bytes_at mem (cursor_after 0 pre + o) (length pattern) = pattern)
    (Hreads : forall p n, ReadProcessMemory h p n = read_full mem p n)
    (Hlimit : 1 <= g_memory_limit cfg)
    (Hlisted : forall n, too_many_results h n = false) :
  exists rep,
    find_pattern cfg h pattern (Z.of_nat (length pattern)) = Done rep /\
    In (cursor_after 0 pre + o) (printed_addresses (rep_output rep)).
Proof.
  set (pattern_len := Z.of_nat (length pattern)) in *.
  set (a := cursor_after 0 pre + o) in *.
  assert (Hlen0 : 0 <= pattern_len) by (subst pattern_len; lia).
  destruct (plan_blocks_ok cfg pattern_len Hstride Hlen0 Hrange _ Hok)
    as (info & blocks & Hplan & Hsizes & _).
  plan_facts cfg pattern_len Hstride Hlen0 Hrange.
  destruct (enumerate_regions_covers pattern_len (block_size cfg)
              (bytes_to_read_ideal cfg pattern_len)
              (block_size_pos cfg pattern_len Hstride Hlen0 Hrange)
              (ideal_ge_block_size cfg pattern_len Hstride Hlen0 Hrange)
              pre 0 [] [] info blocks r post o pattern_len Hok Hplan Hcommit Hsize Ho
              ltac:(subst pattern_len; lia) Hfit)
    as (b & Hin & Hcontains & _).
  fold a in Hcontains.
  assert (Hsizes' : forall b', In b' blocks -> 0 <= size b' < size_t_modulus).
  { intros b' Hb'. destruct (Hsizes b' Hb'). lia. }
  unfold find_pattern. rewrite Hwalk, Hplan.
  match goal with |- context [worker_loop _ _ _ _ _ ?s] => set (st0 := s) end.
  destruct (worker_loop_done cfg pattern (ReadProcessMemory h) Hlen
              ltac:(intros p n Hn; rewrite Hreads; exact Hn) blocks st0 Hsizes')
    as (st' & Hloop & _).
  { subst st0. cbn [g_memory_usage_bytes]. lia. }
  fold pattern_len in Hloop. rewrite Hloop.
  eexists. split; [reflexivity|]. cbn [rep_output].
  destruct (worker_loop_matches _ _ _ _ _ _ _ Hloop) as (founds & Hm & Hall).
  subst st0. cbn [match_of app] in Hm. rewrite Hm.
  destruct (In_nth_error _ _ Hin) as [i Hi].
  destruct (Forall2_nth_error_l _ _ _ Hall i b Hi)
    as (found & Hfound & buffer & evs & buffer' & Hbody).
  rewrite Hreads in Hbody.
  destruct (block_body_read_full cfg pattern mem b buffer Hlen (Hsizes' b Hin))
    as (found' & evs' & buffer'' & Hbody' & Hspec).
  fold pattern_len in Hbody'. rewrite Hbody in Hbody'. injection Hbody' as <- _ _.
  assert (Ha : In a found) by (apply Hspec; split; [exact Hcontains|exact Hocc]).
  pose proof (nth_error_In _ _ Hfound) as Hfin.
  unfold aggregate.
  pose proof (num_matches_pos founds found a Hfin Ha) as Hpos.
  destruct (Z.eqb_spec (num_matches founds) 0); [lia|].
  rewrite Hlisted.
  change (printed_addresses (OutApproximate (num_matches founds) :: OutBlank
            :: print_blocks (GetModuleFileNameExA h) info blocks founds no_prev_match))
    with (printed_addresses
            (print_blocks (GetModuleFileNameExA h) info blocks founds no_prev_match)).
  destruct (print_blocks_spec (GetModuleFileNameExA h) info blocks founds no_prev_match)
    as (_ & _ & H3).
  destruct (H3 (Forall2_length Hall) found a Hfin Ha) as [E|Hprinted];
    [|exact Hprinted].
  exfalso. unfold no_prev_match in E. subst a pattern_len. lia.
Qed.

Lemma every_occurrence_is_printed_witness :
  exists rep,
    find_pattern sample_cfg sample_host [byte_A] (Z.of_nat (length [byte_A])) = Done rep /\
    In (cursor_after 0 [sample_free_region] + 0x10001)
       (printed_addresses (rep_output rep)).
Proof.
  apply (every_occurrence_is_printed sample_cfg sample_host [byte_A] sample_mem
           [sample_free_region] [] sample_committed_region 0x10001).
  - reflexivity.
  - cbn [length]. lia.
  - reflexivity.
  - reflexivity.
  - repeat constructor; vm_compute; congruence.
  - reflexivity.
  - vm_compute; congruence.
  - reflexivity.
  - lia.
  - vm_compute; congruence.
  - reflexivity.
  - intros p n. reflexivity.
  - vm_compute; congruence.
  - intros n. reflexivity.
Defined.

(** ** The command parser, the guard and the loop *)

Lemma input_command_eqb_eq a b : input_command_eqb a b = true <-> a = b.
Proof. destruct a, b; cbn; split; intros H; congruence. Qed.

(** X10.  [parse_command] returns [c_quit_program] exactly when the line
    starts with [p], has an argument, and [strtoul] consumes nothing of it;
    it never touches the pattern part of the context, changes the target id
    only on a [p] line, and otherwise yields one of the list or heap
    commands or [c_continue] (never help, search or "not set"). *)
Theorem parse_command_quits_only_on_unparsable_pid :
  forall (env : parser_env) (ctx : process_context) (cmd : string),
    let result := parse_command env ctx cmd in
    let c := fst (fst result) in
    let ctx' := snd (fst result) in
    (c = c_quit_program <->
     (char_at cmd 0 = "p"%char /\
      exists off,
        skip_to_args env cmd (Z.of_nat (String.length cmd)) = Some off /\
        snd (strtoul env (String.substring off (String.length cmd - off) cmd)
               (if is_hex env (String.substring off (String.length cmd - off) cmd)
                     (Z.of_nat (String.length cmd) - Z.of_nat off)
                then 16 else 10)) = 0%nat)) /\
    common ctx' = common ctx /\
    (pid ctx' <> pid ctx -> char_at cmd 0 = "p"%char) /\
    (c = c_quit_program \/ c = c_continue \/ c = c_list_pids \/ c = c_list_modules \/
     c = c_list_threads \/ c = c_travers_heap \/ c = c_travers_heap_calc_entropy \/
     c = c_travers_heap_blocks).
Proof.
  intros env ctx cmd. cbv zeta. unfold parse_command.
  destruct (Ascii.eqb_spec (char_at cmd 0) "p") as [Hp|Hp].
  - destruct (skip_to_args env cmd (Z.of_nat (String.length cmd))) as [off|] eqn:Hargs.
    + destruct (strtoul env _ _) as [value consumed] eqn:Hconv.
      destruct (Nat.eqb_spec consumed 0) as [->|Hc]; cbn [fst snd common pid].
      * split; [|split; [reflexivity|split; [congruence|tauto]]].
        split; [intros _|reflexivity]. split; [exact Hp|].
        exists off. split; [reflexivity|]. now rewrite Hconv.
      * split; [|split; [reflexivity|split; [intros _; exact Hp|tauto]]].
        split; [discriminate|].
        intros (_ & off' & E & Hz). injection E as <-.
        rewrite Hconv in Hz. cbn [snd] in Hz. contradiction.
    + cbn [fst snd]. split; [|split; [reflexivity|split; [congruence|tauto]]].
      split; [discriminate|]. intros (_ & off & E & _). discriminate.
  - assert (Hno : forall P : Prop, (char_at cmd 0 = "p"%char /\ P) -> False)
      by (intros P [E _]; contradiction).
    repeat match goal with
           | |- context [if ?b then _ else _] => destruct b
           end; cbn [fst snd];
      (split; [split; [discriminate|intros H; exfalso; eapply Hno; exact H]|]);
      (split; [reflexivity|]); (split; [congruence|]); tauto.
Qed.

Lemma execute_command_checks_target cmd ctx :
  Forall ran_with_target (execute_command cmd ctx).
Proof.
  unfold execute_command.
  destruct (input_command_eqb cmd c_help) eqn:Hh; cbn [negb andb].
  { apply input_command_eqb_eq in Hh.
    constructor; [now left|]. constructor; [exact I|constructor]. }
  destruct (input_command_eqb cmd c_list_pids) eqn:Hl; cbn [negb andb].
  { apply input_command_eqb_eq in Hl.
    constructor; [right; now left|]. constructor; [exact I|constructor]. }
  destruct (Z.eqb_spec (pid ctx) no_pid).
  - constructor; [exact I|constructor].
  - constructor; [right; now right|]. constructor; [exact I|constructor].
Qed.

Lemma repl_loop_checks_target env inputs : forall ctx shown0,
  Forall ran_with_target shown0 ->
  Forall ran_with_target (shown (repl_loop env inputs ctx shown0)).
Proof.
  induction inputs as [|line rest IH]; intros ctx shown0 H0; cbn [repl_loop].
  - cbn [shown]. apply Forall_app. split; [exact H0|repeat constructor].
  - set (ctx0 := {| common := common_after line; pid := pid ctx |}).
    assert (Hstep : exists cmd ctx1 out,
      (if input_command_eqb (common_result line) c_not_set
       then let '(cmd, ctx, lines) := parse_command env ctx0 (command_text line) in
            (cmd, ctx, map Puts lines)
       else (common_result line, ctx0, [Puts ""])) = (cmd, ctx1, out) /\
      Forall ran_with_target out).
    { destruct (input_command_eqb (common_result line) c_not_set).
      - destruct (parse_command env ctx0 (command_text line)) as [[cmd ctx1] lines].
        do 3 eexists. split; [reflexivity|].
        apply Forall_forall. intros o Ho. apply in_map_iff in Ho.
        destruct Ho as (l & <- & _). exact I.
      - do 3 eexists. split; [reflexivity|]. repeat constructor. }
    destruct Hstep as (cmd & ctx1 & out & -> & Hout).
    assert (H1 : Forall ran_with_target (shown0 ++ Prompt :: out)).
    { apply Forall_app. split; [exact H0|]. constructor; [exact I|exact Hout]. }
    destruct (input_command_eqb cmd c_quit_program); [exact H1|].
    destruct (input_command_eqb cmd c_continue); [now apply IH|].
    apply IH. apply Forall_app. split; [exact H1|].
    apply execute_command_checks_target.
Qed.

(** X11.  Whatever the operator enters, the loop never runs a command that
    needs a target while none is selected: every command it executes is
    help, the process list, or runs against a target id other than
    [(DWORD)(-1)]. *)
Theorem repl_never_runs_without_a_target :
  forall (env : parser_env) (inputs : list repl_input),
    Forall ran_with_target (shown (run_process_inspection env inputs)).
Proof.
  intros env inputs. unfold run_process_inspection.
  apply repl_loop_checks_target. constructor.
Qed.



(** ** The thread listing, continued *)

Lemma listed_threads_app l1 l2 :
  listed_threads (l1 ++ l2) = listed_threads l1 ++ listed_threads l2.
Proof. apply flat_map_app. Qed.

Lemma thread_loop_rows h dw_owner_pid entries : forall si,
  listed_threads (ThreadList.thread_loop h dw_owner_pid entries si) =
  map ThreadList.th32ThreadID
    (filter (fun te => ThreadList.th32OwnerProcessID te =? dw_owner_pid) entries).
Proof.
  induction entries as [|te entries IH]; intros si; [reflexivity|].
  cbn [ThreadList.thread_loop filter].
  destruct (ThreadList.th32OwnerProcessID te =? dw_owner_pid); [|apply IH].
  destruct (ThreadList.OpenThread h (ThreadList.th32ThreadID te)).
  - destruct (ThreadList.get_thread_stack_base _ si) as [[|] si'];
      cbn [app listed_threads flat_map map]; fold (listed_threads);
      now rewrite IH.
  - cbn [app listed_threads flat_map map]. fold (listed_threads). now rewrite IH.
Qed.

(** X13.  The thread listing shows one row for each entry of the snapshot
    owned by the listed process, in snapshot order and with the entry's own
    thread id, whether or not any stack lookup succeeds; threads of other
    processes get no row.  It returns FALSE without any row when the
    snapshot cannot be taken, when it is empty, or when the process cannot
    be opened. *)
Theorem thread_listing_rows :
  forall (h : ThreadList.thread_host)
         (snapshot : option (list ThreadList.THREADENTRY32))
         (process_opened : bool) (dw_owner_pid : Z),
    let result := ThreadList.list_process_threads h snapshot process_opened dw_owner_pid in
    listed_threads (snd result) =
      match snapshot with
      | Some entries =>
          if process_opened then
            map ThreadList.th32ThreadID
              (filter (fun te => ThreadList.th32OwnerProcessID te =? dw_owner_pid)
                      entries)
          else []
      | None => []
      end /\
    (fst result = false ->
     snd result = [] /\
     (snapshot = None \/ snapshot = Some [] \/ process_opened = false)).
Proof.
  intros h snapshot process_opened dw_owner_pid. cbv zeta.
  unfold ThreadList.list_process_threads.
  destruct snapshot as [[|te entries]|].
  - destruct process_opened; cbn [fst snd]; split; auto.
  - destruct process_opened; cbn [fst snd].
    + split; [apply thread_loop_rows|discriminate].
    + split; [reflexivity|]. intros _. split; [reflexivity|]. right; now right.
  - cbn [fst snd]. split; [reflexivity|]. intros _. split; [reflexivity|]. now left.
Qed.

(** X14.  For a thread of the listed process that can be opened and whose
    stack pointer lies in a committed private region, the row shows the base
    and the size of that region, without the failure message, and the
    record passed on to the threads after it holds the same two values. *)
Theorem successful_lookup_prints_its_region
    (h : ThreadList.thread_host) (dw_owner_pid : Z)
    (pre post : list ThreadList.THREADENTRY32) (te32 : ThreadList.THREADENTRY32)
    (_info : MEMORY_BASIC_INFORMATION)
    (Howner : ThreadList.th32OwnerProcessID te32 = dw_owner_pid)
    (Hopen : ThreadList.OpenThread h (ThreadList.th32ThreadID te32) = true)
    (Hquery : ThreadList.VirtualQueryEx h (ThreadList.th32ThreadID te32) = Some _info)
    (Hstate : State _info = MEM_COMMIT)
    (Htype : Type_ _info = MEM_PRIVATE) :
  let zero := {| ThreadList.sp := 0; ThreadList.size := 0 |} in
  let found := {| ThreadList.sp := BaseAddress _info;
                  ThreadList.size := RegionSize _info |} in
  ThreadList.list_process_threads h (Some (pre ++ te32 :: post)) true dw_owner_pid =
    (true,
     ThreadList.thread_loop h dw_owner_pid pre zero
       ++ ThreadList.ThreadRow (ThreadList.th32ThreadID te32)
            (ThreadList.tpBasePri te32) (ThreadList.tpDeltaPri te32)
            (BaseAddress _info) (RegionSize _info)
       :: ThreadList.thread_loop h dw_owner_pid post found).
Proof.
  intros zero found. unfold ThreadList.list_process_threads.
  destruct (pre ++ te32 :: post) eqn:Hentries.
  { destruct pre; discriminate. }
  rewrite <- Hentries. f_equal. rewrite thread_loop_app.
  f_equal. cbn [ThreadList.thread_loop].
  rewrite Howner, Z.eqb_refl, Hopen. unfold ThreadList.get_thread_stack_base.
  rewrite Hquery, Hstate, Htype, !Z.eqb_refl. reflexivity.
Qed.

Lemma successful_lookup_prints_its_region_witness :
  ThreadList.list_process_threads sample_thread_host
    (Some ([] ++ ThreadList.mkEntry 101 7 8 0 :: [sample_thread_103])) true 7 =
    (true,
     ThreadList.thread_loop sample_thread_host 7 []
       {| ThreadList.sp := 0; ThreadList.size := 0 |}
       ++ ThreadList.ThreadRow (ThreadList.th32ThreadID (ThreadList.mkEntry 101 7 8 0))
            (ThreadList.tpBasePri (ThreadList.mkEntry 101 7 8 0))
            (ThreadList.tpDeltaPri (ThreadList.mkEntry 101 7 8 0))
            (BaseAddress (mkMBI 0x7ff000 0x700000 0x3000 MEM_COMMIT 4 MEM_PRIVATE))
            (RegionSize (mkMBI 0x7ff000 0x700000 0x3000 MEM_COMMIT 4 MEM_PRIVATE))
       :: ThreadList.thread_loop sample_thread_host 7 [sample_thread_103]
            {| ThreadList.sp :=
                 BaseAddress (mkMBI 0x7ff000 0x700000 0x3000 MEM_COMMIT 4 MEM_PRIVATE);
               ThreadList.size :=
                 RegionSize (mkMBI 0x7ff000 0x700000 0x3000 MEM_COMMIT 4 MEM_PRIVATE) |}).
Proof.
  apply (successful_lookup_prints_its_region sample_thread_host 7 []
           [sample_thread_103] (ThreadList.mkEntry 101 7 8 0)
           (mkMBI 0x7ff000 0x700000 0x3000 MEM_COMMIT 4 MEM_PRIVATE)).
  - reflexivity.
  - reflexivity.
  - reflexivity.
  - reflexivity.
  - reflexivity.
Defined.

(** ** Byte frequencies *)

Section Frequencies.

Import Entropy.

Lemma increment_length i : forall a, length (increment i a) = length a.
Proof.
  induction i as [|i IH]; intros [|x a]; cbn [increment length]; auto.
Qed.

Lemma nth_increment_same i : forall a,
  (i < length a)%nat -> nth i (increment i a) 0 = wrap_size_t (nth i a 0 + 1).
Proof.
  induction i as [|i IH]; intros [|x a] H; cbn [length] in H; try lia;
    cbn [increment nth]; [reflexivity|]. apply IH. lia.
Qed.

Lemma nth_increment_other i : forall a j,
  i <> j -> nth j (increment i a) 0 = nth j a 0.
Proof.
  induction i as [|i IH]; intros [|x a] [|j] H; cbn [increment nth]; auto;
    try contradiction; try (apply IH; lia).
Qed.

Lemma nth_le_total a : forall i,
  Forall (fun x => 0 <= x) a -> 0 <= nth i a 0 <= total a.
Proof.
  induction a as [|x a IH]; intros i H.
  - destruct i; cbn; lia.
  - inversion H as [|? ? Hx Ha]; subst. unfold total in *. cbn [fold_right].
    assert (0 <= fold_right Z.add 0 a) by (specialize (IH 0%nat Ha); destruct a; cbn in *; lia).
    destruct i as [|i]; cbn [nth]; [lia|]. specialize (IH i Ha). lia.
Qed.

Lemma total_increment i : forall a,
  (i < length a)%nat -> Forall (fun x => 0 <= x) a -> total a + 1 < size_t_modulus ->
  total (increment i a) = total a + 1 /\ Forall (fun x => 0 <= x) (increment i a).
Proof.
  induction i as [|i IH]; intros [|x a] Hi Hpos Hmax; cbn [length] in Hi; try lia;
    inversion Hpos as [|? ? Hx Ha]; subst; unfold total in *;
    cbn [increment fold_right] in *.
  - pose proof (nth_le_total a 0 Ha) as Hn. unfold total in Hn.
    rewrite wrap_size_t_small by lia. split; [lia|]. constructor; [lia|exact Ha].
  - destruct (IH a ltac:(lia) Ha) as [Ht Hp].
    { pose proof (nth_le_total a 0 Ha) as Hn. unfold total in Hn. lia. }
    split; [lia|]. constructor; assumption.
Qed.

Lemma to_nat_bounded b : (Byte.to_nat b < NUM_VALUES)%nat.
Proof. pose proof (Byte.to_nat_bounded b). unfold NUM_VALUES. lia. Qed.

Lemma to_nat_injective b c : Byte.to_nat b = Byte.to_nat c -> b = c.
Proof.
  intros H. pose proof (Byte.of_to_nat b) as Hb.
  rewrite H, Byte.of_to_nat in Hb. congruence.
Qed.

Lemma occurrences_cons b c data :
  occurrences b (c :: data) = (if Byte.byte_eq_dec c b then 1 else 0) + occurrences b data.
Proof.
  unfold occurrences. cbn [count_occ]. destruct (Byte.byte_eq_dec c b); lia.
Qed.

(** The counting loop adds to each counter the number of times its byte
    stands in the bytes visited. *)
Lemma calculate_frequencies_spec size : forall ctx data,
  (size <= length data)%nat ->
  length (freq ctx) = NUM_VALUES ->
  Forall (fun x => 0 <= x) (freq ctx) ->
  total (freq ctx) + Z.of_nat size < size_t_modulus ->
  let ctx' := entropy_calculate_frequencies ctx data size in
  (forall b, nth (Byte.to_nat b) (freq ctx') 0
             = nth (Byte.to_nat b) (freq ctx) 0 + occurrences b (firstn size data)) /\
  total (freq ctx') = total (freq ctx) + Z.of_nat size /\
  length (freq ctx') = NUM_VALUES /\
  Forall (fun x => 0 <= x) (freq ctx').
Proof.
  induction size as [|size IH]; intros ctx data Hsize Hlen Hpos Hmax; cbn zeta.
  - replace (entropy_calculate_frequencies ctx data 0) with ctx
      by (destruct data; reflexivity).
    cbn [firstn]. split; [|split; [lia|split; assumption]].
    intros b. unfold occurrences. cbn [count_occ]. lia.
  - destruct data as [|c data]; cbn [length] in Hsize; [lia|].
    cbn [entropy_calculate_frequencies firstn].
    pose proof (to_nat_bounded c) as Hc.
    destruct (total_increment (Byte.to_nat c) (freq ctx) ltac:(lia) Hpos ltac:(lia))
      as [Ht Hp].
    destruct (IH {| freq := increment (Byte.to_nat c) (freq ctx) |} data
                ltac:(lia)) as (H1 & H2 & H3 & H4); cbn [freq].
    { now rewrite increment_length. }
    { exact Hp. }
    { lia. }
    cbn [freq] in *. split; [|split; [lia|split; assumption]].
    intros b. rewrite H1, occurrences_cons.
    destruct (Byte.byte_eq_dec c b) as [->|Hne].
    + rewrite nth_increment_same by lia.
      pose proof (nth_le_total (freq ctx) (Byte.to_nat b) Hpos).
      rewrite wrap_size_t_small by lia. lia.
    + rewrite nth_increment_other; [lia|].
      intros E. apply to_nat_injective in E. contradiction.
Qed.

End Frequencies.

(** X15.  After [entropy_init], counting over [size] bytes of [data] (fewer
    than 2^64) leaves in [freq[b]], for every byte value [b], the number of
    times [b] stands among those bytes, so that the counters add up to
    [size]; a second call adds the counts of its own bytes to the first. *)
Theorem frequencies_count_the_bytes
    (data1 data2 : list byte) (size1 size2 : nat)
    (Hsize1 : (size1 <= length data1)%nat)
    (Hsize2 : (size2 <= length data2)%nat)
    (Hmax : Z.of_nat size1 + Z.of_nat size2 < size_t_modulus) :
  let once := Entropy.entropy_calculate_frequencies Entropy.entropy_init data1 size1 in
  let twice := Entropy.entropy_calculate_frequencies once data2 size2 in
  (forall b, nth (Byte.to_nat b) (Entropy.freq once) 0
             = Entropy.occurrences b (firstn size1 data1)) /\
  Entropy.total (Entropy.freq once) = Z.of_nat size1 /\
  (forall b, nth (Byte.to_nat b) (Entropy.freq twice) 0
             = Entropy.occurrences b (firstn size1 data1 ++ firstn size2 data2)) /\
  Entropy.total (Entropy.freq twice) = Z.of_nat size1 + Z.of_nat size2.
Proof.
  intros once twice.
  assert (Hinit_pos : Forall (fun x => 0 <= x) (Entropy.freq Entropy.entropy_init)).
  { apply Forall_forall. intros x Hx. apply repeat_spec in Hx. lia. }
  assert (Hinit_total : Entropy.total (Entropy.freq Entropy.entropy_init) = 0)
    by reflexivity.
  assert (Hinit_nth : forall i, nth i (Entropy.freq Entropy.entropy_init) 0 = 0).
  { intros i. unfold Entropy.entropy_init. cbn [Entropy.freq].
    destruct (nth_in_or_default i (repeat 0 Entropy.NUM_VALUES) 0) as [Hin|E];
      [now apply repeat_spec in Hin|exact E]. }
  destruct (calculate_frequencies_spec size1 Entropy.entropy_init data1 Hsize1
              (repeat_length _ _) Hinit_pos ltac:(rewrite Hinit_total; lia))
    as (A1 & A2 & A3 & A4).
  fold once in A1, A2, A3, A4.
  destruct (calculate_frequencies_spec size2 once data2 Hsize2 A3 A4
              ltac:(rewrite A2, Hinit_total; lia)) as (B1 & B2 & _).
  fold twice in B1, B2.
  repeat split.
  - intros b. rewrite A1, Hinit_nth. lia.
  - lia.
  - intros b. rewrite B1, A1, Hinit_nth. unfold Entropy.occurrences.
    rewrite count_occ_app. lia.
  - lia.
Qed.

Lemma frequencies_count_the_bytes_witness :
  let once := Entropy.entropy_calculate_frequencies Entropy.entropy_init
                [byte_A; Byte.x00; byte_A] 3 in
  let twice := Entropy.entropy_calculate_frequencies once [byte_A; Byte.x42] 1 in
  (forall b, nth (Byte.to_nat b) (Entropy.freq once) 0
             = Entropy.occurrences b (firstn 3 [byte_A; Byte.x00; byte_A])) /\
  Entropy.total (Entropy.freq once) = Z.of_nat 3 /\
  (forall b, nth (Byte.to_nat b) (Entropy.freq twice) 0
             = Entropy.occurrences b
                 (firstn 3 [byte_A; Byte.x00; byte_A] ++ firstn 1 [byte_A; Byte.x42])) /\
  Entropy.total (Entropy.freq twice) = Z.of_nat 3 + Z.of_nat 1.
Proof.
  apply (frequencies_count_the_bytes [byte_A; Byte.x00; byte_A] [byte_A; Byte.x42] 3 1).
  - cbn [length]. lia.
  - cbn [length]. lia.
  - reflexivity.
Defined.

(** ** The heap traversal *)

Section HeapRange.

Import HeapWalk.

Variables (list_blocks calculate_entropy : bool).

Lemma sample_block_bytes_range st v st' out :
  sample_block_bytes st v = (Some st', out) ->
  start_address st' = start_address st /\
  end_address st' = end_address st /\
  last_block_size st' = last_block_size st.
Proof.
  unfold sample_block_bytes. intros H.
  destruct (_ && negb _); [discriminate|].
  destruct (_ && _); injection H as <- _; cbn; auto.
Qed.

(** Lines 636-640 as seen from outside the body of the loop. *)
Lemma visit_block_range st v st' out :
  visit_block list_blocks calculate_entropy st v = (Some st', out) ->
  start_address st' = Z.min (start_address st) (dwAddress (he v)) /\
  end_address st'
    = (if end_address st <? dwAddress (he v) then dwAddress (he v) else end_address st) /\
  last_block_size st'
    = (if end_address st <? dwAddress (he v) then dwBlockSize (he v)
       else last_block_size st).
Proof.
  unfold visit_block. intros H.
  assert (Htrack : forall s,
    start_address (track_range s (he v)) = Z.min (start_address s) (dwAddress (he v)) /\
    end_address (track_range s (he v))
      = (if end_address s <? dwAddress (he v) then dwAddress (he v) else end_address s) /\
    last_block_size (track_range s (he v))
      = (if end_address s <? dwAddress (he v) then dwBlockSize (he v)
         else last_block_size s)).
  { intros s. unfold track_range. destruct (end_address s <? dwAddress (he v)); cbn; auto. }
  destruct calculate_entropy.
  - destruct (sample_block_bytes st v) as [[s|] o] eqn:Hs; [|discriminate].
    injection H as <- _. destruct (sample_block_bytes_range _ _ _ _ Hs) as (E1 & E2 & E3).
    rewrite <- E1, <- E2, <- E3. apply Htrack.
  - injection H as <- _. apply Htrack.
Qed.

Lemma visit_block_completes st v :
  never_out_of_memory calculate_entropy [v] ->
  exists st' out, visit_block list_blocks calculate_entropy st v = (Some st', out).
Proof.
  intros [->|Hok]; unfold visit_block; [eauto|].
  destruct calculate_entropy; [|eauto].
  inversion Hok as [|? ? Hv _]; subst. unfold sample_block_bytes. rewrite Hv.
  rewrite andb_false_r. destruct (_ && _); eauto.
Qed.

Lemma walk_blocks_completes vs : forall st,
  never_out_of_memory calculate_entropy vs ->
  exists st' out, walk_blocks list_blocks calculate_entropy st vs = (Some st', out).
Proof.
  induction vs as [|v vs IH]; intros st Hok; cbn [walk_blocks]; [eauto|].
  assert (H1 : never_out_of_memory calculate_entropy [v]).
  { destruct Hok as [E|Hall]; [now left|right].
    inversion Hall; subst. now repeat constructor. }
  assert (H2 : never_out_of_memory calculate_entropy vs).
  { destruct Hok as [E|Hall]; [now left|right]. now inversion Hall. }
  destruct (visit_block_completes st v H1) as (st1 & out1 & ->).
  destruct (IH st1 H2) as (st' & out' & ->). eauto.
Qed.

Lemma walk_blocks_app l1 : forall st l2,
  walk_blocks list_blocks calculate_entropy st (l1 ++ l2) =
  match walk_blocks list_blocks calculate_entropy st l1 with
  | (Some st1, out1) =>
      let '(r, out2) := walk_blocks list_blocks calculate_entropy st1 l2 in
      (r, out1 ++ out2)
  | (None, out1) => (None, out1)
  end.
Proof.
  induction l1 as [|v l1 IH]; intros st l2; cbn [app walk_blocks].
  - destruct (walk_blocks _ _ st l2); reflexivity.
  - destruct (visit_block _ _ st v) as [[st1|] out1]; [|reflexivity].
    rewrite IH.
    destruct (walk_blocks _ _ st1 l1) as [[st2|] out2]; [|reflexivity].
    destruct (walk_blocks _ _ st2 l2) as [r out3]. now rewrite app_assoc.
Qed.

(** The start address ends as the lowest address seen. *)
Lemma walk_blocks_start vs : forall st st' out,
  walk_blocks list_blocks calculate_entropy st vs = (Some st', out) ->
  start_address st' <= start_address st /\
  (forall v, In v vs -> start_address st' <= dwAddress (he v)) /\
  (start_address st' = start_address st \/
   exists v, In v vs /\ start_address st' = dwAddress (he v)).
Proof.
  induction vs as [|v vs IH]; intros st st' out H; cbn [walk_blocks] in H.
  - injection H as <- _. split; [lia|]. split; [intros v []|now left].
  - destruct (visit_block _ _ st v) as [[st1|] out1] eqn:Hv; [|discriminate].
    destruct (walk_blocks _ _ st1 vs) as [r out2] eqn:Hw.
    injection H as -> _. destruct (IH _ _ _ Hw) as (H1 & H2 & H3).
    destruct (visit_block_range _ _ _ _ Hv) as (E & _).
    split; [lia|]. split.
    + intros w [<-|Hw']; [lia|now apply H2].
    + destruct H3 as [E3|(w & Hin & E3)].
      * destruct (Z.min_spec (start_address st) (dwAddress (he v))) as [[_ Em]|[_ Em]].
        -- left. lia.
        -- right. exists v. split; [now left|lia].
      * right. exists w. split; [now right|exact E3].
Qed.

(** Blocks that are not above the current end leave the end as it is. *)
Lemma walk_blocks_top_kept vs : forall st st' out,
  walk_blocks list_blocks calculate_entropy st vs = (Some st', out) ->
  (forall v, In v vs -> dwAddress (he v) <= end_address st) ->
  end_address st' = end_address st /\ last_block_size st' = last_block_size st.
Proof.
  induction vs as [|v vs IH]; intros st st' out H Hbelow; cbn [walk_blocks] in H.
  - now injection H as <- _.
  - destruct (visit_block _ _ st v) as [[st1|] out1] eqn:Hv; [|discriminate].
    destruct (walk_blocks _ _ st1 vs) as [r out2] eqn:Hw.
    injection H as -> _. destruct (visit_block_range _ _ _ _ Hv) as (_ & E2 & E3).
    pose proof (Hbelow v (or_introl eq_refl)) as Hle.
    destruct (Z.ltb_spec (end_address st) (dwAddress (he v))); [lia|].
    destruct (IH _ _ _ Hw) as [F1 F2].
    { intros w Hin. rewrite E2. apply Hbelow. now right. }
    split; congruence.
Qed.

(** Blocks below a bound leave the end below it. *)
Lemma walk_blocks_below vs : forall st st' out bound,
  walk_blocks list_blocks calculate_entropy st vs = (Some st', out) ->
  (forall v, In v vs -> dwAddress (he v) < bound) ->
  end_address st < bound -> end_address st' < bound.
Proof.
  induction vs as [|v vs IH]; intros st st' out bound H Hbelow H0; cbn [walk_blocks] in H.
  - now injection H as <- _.
  - destruct (visit_block _ _ st v) as [[st1|] out1] eqn:Hv; [|discriminate].
    destruct (walk_blocks _ _ st1 vs) as [r out2] eqn:Hw.
    injection H as -> _. destruct (visit_block_range _ _ _ _ Hv) as (_ & E2 & _).
    pose proof (Hbelow v (or_introl eq_refl)) as Hlt.
    apply (IH _ _ _ bound Hw).
    + intros w Hin. apply Hbelow. now right.
    + rewrite E2. destruct (_ <? _); lia.
Qed.

End HeapRange.

(** X16.  When the first block the snapshot returns for a heap is its
    highest one (at least as high as every other; always so for a heap of
    one block), the "End Address" printed is the start of that block: its
    size is not added, and the "Size" printed is the distance from the
    lowest block start to the highest, 0 for a heap of one block.  The
    "Start Address" is the lowest block start. *)
Theorem highest_block_first_is_not_measured
    (list_blocks calculate_entropy : bool) (ctx : Entropy.entropy_context)
    (total : Z) (h : HeapWalk.heap) (first : HeapWalk.visit)
    (rest : list HeapWalk.visit)
    (Hvisits : HeapWalk.visits h = first :: rest)
    (Hmem : never_out_of_memory calculate_entropy (HeapWalk.visits h))
    (Htop : forall v, In v rest ->
              HeapWalk.dwAddress (HeapWalk.he v)
                <= HeapWalk.dwAddress (HeapWalk.he first))
    (Haddr : forall v, In v (HeapWalk.visits h) ->
               0 <= HeapWalk.dwAddress (HeapWalk.he v) < size_t_modulus) :
  exists state' out tail lowest,
    HeapWalk.walk_heap list_blocks calculate_entropy ctx total h =
      (Some state',
       HeapWalk.HeapId (HeapWalk.th32HeapID h) :: out
         ++ HeapWalk.Range lowest (HeapWalk.dwAddress (HeapWalk.he first))
              (HeapWalk.dwAddress (HeapWalk.he first) - lowest)
         :: tail) /\
    (forall v, In v (HeapWalk.visits h) -> lowest <= HeapWalk.dwAddress (HeapWalk.he v)) /\
    (exists v, In v (HeapWalk.visits h) /\ lowest = HeapWalk.dwAddress (HeapWalk.he v)).
Proof.
  unfold HeapWalk.walk_heap. rewrite Hvisits in *.
  match goal with |- context [HeapWalk.walk_blocks _ _ ?s _] => set (st0 := s) end.
  destruct (walk_blocks_completes list_blocks calculate_entropy (first :: rest) st0 Hmem)
    as (st & out & Hwalk).
  rewrite Hwalk.
  destruct (walk_blocks_top_kept _ _ _ _ _ _ Hwalk) as [Eend Elast].
  { intros v [<-|Hin]; subst st0; cbn [HeapWalk.end_address]; [lia|now apply Htop]. }
  destruct (walk_blocks_start _ _ _ _ _ _ Hwalk) as (Hle & Hall & Hex).
  subst st0. cbn [HeapWalk.end_address HeapWalk.last_block_size HeapWalk.start_address]
    in Eend, Elast, Hle, Hex.
  assert (Hlow : exists v, In v (first :: rest) /\
                           HeapWalk.start_address st = HeapWalk.dwAddress (HeapWalk.he v)).
  { destruct Hex as [E|Hex]; [exists first; split; [now left|exact E]|exact Hex]. }
  destruct Hlow as (low & Hlin & Elow).
  pose proof (Haddr low Hlin) as Hlowr. pose proof (Haddr first (or_introl eq_refl)) as Hf.
  rewrite Eend, Elast, Z.add_0_r, (wrap_size_t_small _ Hf).
  rewrite wrap_size_t_small by lia.
  do 4 eexists. split; [reflexivity|]. split; [exact Hall|]. exists low. now split.
Qed.

Lemma highest_block_first_is_not_measured_witness :
  exists state' out tail lowest,
    HeapWalk.walk_heap true true Entropy.entropy_init 0 one_block_heap =
      (Some state',
       HeapWalk.HeapId (HeapWalk.th32HeapID one_block_heap) :: out
         ++ HeapWalk.Range lowest 0x5000 (0x5000 - lowest) :: tail) /\
    (forall v, In v (HeapWalk.visits one_block_heap) ->
               lowest <= HeapWalk.dwAddress (HeapWalk.he v)) /\
    (exists v, In v (HeapWalk.visits one_block_heap) /\
               lowest = HeapWalk.dwAddress (HeapWalk.he v)).
Proof.
  apply (highest_block_first_is_not_measured true true Entropy.entropy_init 0
           one_block_heap
           (HeapWalk.mkVisit (HeapWalk.mkHeapEntry 0x5000 0x100) true
              (mkRead true 0x100 (repeat byte_A 0x100))) []).
  - reflexivity.
  - right. repeat constructor.
  - intros v [].
  - intros v [<-|[]]. split; [vm_compute; congruence|reflexivity].
Defined.

(** X17.  When some block of the heap lies above the first one returned,
    the "End Address" printed is the end of the highest block (its start
    plus its size; of several blocks at the highest address, the one
    returned first), the "Start Address" is the lowest block start, and the
    "Size" is their difference. *)
Theorem heap_range_ends_after_the_highest_block
    (list_blocks calculate_entropy : bool) (ctx : Entropy.entropy_context)
    (total : Z) (h : HeapWalk.heap) (first top : HeapWalk.visit)
    (before after : list HeapWalk.visit)
    (Hvisits : HeapWalk.visits h = (first :: before) ++ top :: after)
    (Hmem : never_out_of_memory calculate_entropy (HeapWalk.visits h))
    (Hbefore : forall v, In v (first :: before) ->
                 HeapWalk.dwAddress (HeapWalk.he v)
                   < HeapWalk.dwAddress (HeapWalk.he top))
    (Hafter : forall v, In v after ->
                HeapWalk.dwAddress (HeapWalk.he v)
                  <= HeapWalk.dwAddress (HeapWalk.he top))
    (Haddr : forall v, In v (HeapWalk.visits h) ->
               0 <= HeapWalk.dwAddress (HeapWalk.he v))
    (Hsize : 0 <= HeapWalk.dwBlockSize (HeapWalk.he top))
    (Hfits : HeapWalk.dwAddress (HeapWalk.he top)
               + HeapWalk.dwBlockSize (HeapWalk.he top) < size_t_modulus) :
  exists state' out tail lowest,
    HeapWalk.walk_heap list_blocks calculate_entropy ctx total h =
      (Some state',
       HeapWalk.HeapId (HeapWalk.th32HeapID h) :: out
         ++ HeapWalk.Range lowest
              (HeapWalk.dwAddress (HeapWalk.he top)
                 + HeapWalk.dwBlockSize (HeapWalk.he top))
              (HeapWalk.dwAddress (HeapWalk.he top)
                 + HeapWalk.dwBlockSize (HeapWalk.he top) - lowest)
         :: tail) /\
    (forall v, In v (HeapWalk.visits h) -> lowest <= HeapWalk.dwAddress (HeapWalk.he v)) /\
    (exists v, In v (HeapWalk.visits h) /\ lowest = HeapWalk.dwAddress (HeapWalk.he v)).
Proof.
  unfold HeapWalk.walk_heap. rewrite Hvisits in *. cbn [app].
  match goal with |- context [HeapWalk.walk_blocks _ _ ?s _] => set (st0 := s) end.
  change (first :: before ++ top :: after) with ((first :: before) ++ top :: after) in *.
  destruct (walk_blocks_completes list_blocks calculate_entropy _ st0 Hmem)
    as (st & out & Hwalk).
  rewrite Hwalk.
  destruct (walk_blocks_start _ _ _ _ _ _ Hwalk) as (Hle & Hall & Hex).
  (* the three stretches of the walk *)
  rewrite walk_blocks_app in Hwalk.
  destruct (HeapWalk.walk_blocks _ _ st0 (first :: before)) as [[st1|] out1] eqn:W1;
    [|discriminate].
  pose proof (walk_blocks_below _ _ _ _ _ _ _ W1 Hbefore) as Hlt.
  specialize (Hlt ltac:(subst st0; cbn [HeapWalk.end_address];
                        apply Hbefore; now left)).
  cbn [HeapWalk.walk_blocks] in Hwalk.
  destruct (HeapWalk.visit_block _ _ st1 top) as [[st2|] out2] eqn:W2; [|discriminate].
  destruct (visit_block_range _ _ _ _ _ _ W2) as (_ & E2 & E3).
  destruct (Z.ltb_spec (HeapWalk.end_address st1)
              (HeapWalk.dwAddress (HeapWalk.he top))); [|lia].
  destruct (HeapWalk.walk_blocks _ _ st2 after) as [r out3] eqn:W3.
  injection Hwalk as -> _.
  destruct (walk_blocks_top_kept _ _ _ _ _ _ W3) as [Eend Elast].
  { intros v Hin. rewrite E2. now apply Hafter. }
  subst st0. cbn [HeapWalk.start_address] in Hle, Hex.
  assert (Hlow : exists v, In v ((first :: before) ++ top :: after) /\
                           HeapWalk.start_address st = HeapWalk.dwAddress (HeapWalk.he v)).
  { destruct Hex as [E|Hex]; [exists first; split; [now left|exact E]|exact Hex]. }
  destruct Hlow as (low & Hlin & Elow).
  pose proof (Haddr low Hlin) as Hlowr.
  pose proof (Hall top ltac:(apply in_or_app; right; now left)) as Htopge.
  rewrite Eend, Elast, E2, E3.
  rewrite (wrap_size_t_small (_ + _)) by lia.
  rewrite wrap_size_t_small by lia.
  do 4 eexists. split; [reflexivity|]. split; [exact Hall|]. exists low. now split.
Qed.

Lemma heap_range_ends_after_the_highest_block_witness :
  exists state' out tail lowest,
    HeapWalk.walk_heap false true Entropy.entropy_init 0 sample_heap =
      (Some state',
       HeapWalk.HeapId (HeapWalk.th32HeapID sample_heap) :: out
         ++ HeapWalk.Range lowest (0x3000 + 0x40) (0x3000 + 0x40 - lowest) :: tail) /\
    (forall v, In v (HeapWalk.visits sample_heap) ->
               lowest <= HeapWalk.dwAddress (HeapWalk.he v)) /\
    (exists v, In v (HeapWalk.visits sample_heap) /\
               lowest = HeapWalk.dwAddress (HeapWalk.he v)).
Proof.
  apply (heap_range_ends_after_the_highest_block false true Entropy.entropy_init 0
           sample_heap
           (HeapWalk.mkVisit (HeapWalk.mkHeapEntry 0x1000 0x20) true
              (mkRead true 0x20 (repeat byte_A 0x20)))
           (HeapWalk.mkVisit (HeapWalk.mkHeapEntry 0x3000 0x40) true
              (mkRead true 0x40 (repeat Byte.x00 0x40)))
           []
           [HeapWalk.mkVisit (HeapWalk.mkHeapEntry 0x2000 0x10) true
              (mkRead false 0 [])]).
  - reflexivity.
  - right. repeat constructor.
  - intros v [<-|[]]. reflexivity.
  - intros v [<-|[]]. vm_compute; congruence.
  - intros v [<-|[<-|[<-|[]]]]; vm_compute; congruence.
  - vm_compute; congruence.
  - reflexivity.
Defined.

Section HeapEntropy.

Import HeapWalk.

Variable list_blocks : bool.

Lemma bytes_sampled_nonneg vs :
  Forall visit_ok vs -> 0 <= bytes_sampled vs.
Proof.
  induction 1 as [|v vs (_ & Hs & _) _ IH]; [reflexivity|].
  cbn [bytes_sampled fold_right]. fold (bytes_sampled vs).
  destruct (_ && _); lia.
Qed.

Lemma store_buffer_length w old : (length w <= length (store_buffer w old))%nat.
Proof. unfold store_buffer. rewrite length_app. lia. Qed.

Lemma visit_block_lines calculate_entropy st v r out :
  visit_block list_blocks calculate_entropy st v = (r, out) -> Forall block_line out.
Proof.
  unfold visit_block, sample_block_bytes. intros H.
  destruct list_blocks, calculate_entropy;
    repeat match type of H with
           | context [if ?b then _ else _] => destruct b
           end; injection H as _ <-; repeat constructor.
Qed.

Lemma walk_blocks_lines calculate_entropy vs : forall st r out,
  walk_blocks list_blocks calculate_entropy st vs = (r, out) -> Forall block_line out.
Proof.
  induction vs as [|v vs IH]; intros st r out H; cbn [walk_blocks] in H.
  - injection H as _ <-. constructor.
  - destruct (visit_block _ _ st v) as [[st1|] out1] eqn:Hv.
    + destruct (walk_blocks _ _ st1 vs) as [r2 out2] eqn:Hw.
      injection H as _ <-. apply Forall_app. split.
      * eapply visit_block_lines; eauto.
      * eapply IH; eauto.
    + injection H as _ <-. eapply visit_block_lines; eauto.
Qed.

Lemma track_range_e_ctx s e : e_ctx (track_range s e) = e_ctx s.
Proof. unfold track_range. destruct (end_address s <? dwAddress e); reflexivity. Qed.

Lemma track_range_total s e :
  total_size_blocks (track_range s e) = total_size_blocks s.
Proof. unfold track_range. destruct (end_address s <? dwAddress e); reflexivity. Qed.

Lemma firstn_store_buffer w old n :
  length w = n -> firstn n (store_buffer w old) = w.
Proof.
  intros <-. unfold store_buffer.
  rewrite firstn_app, firstn_all, Nat.sub_diag. cbn [firstn]. apply app_nil_r.
Qed.

Lemma occurrences_app b l1 l2 :
  Entropy.occurrences b (l1 ++ l2) = Entropy.occurrences b l1 + Entropy.occurrences b l2.
Proof. unfold Entropy.occurrences. rewrite count_occ_app. lia. Qed.

(** With entropy asked for, the walk over the blocks of a heap adds the
    bytes of the blocks read in full both to the counters and to the running
    total; each counter grows by the number of times its byte stands in the
    bytes those reads returned. *)
Lemma walk_blocks_samples vs : forall st,
  Forall visit_ok vs ->
  length (Entropy.freq (e_ctx st)) = Entropy.NUM_VALUES ->
  Forall (fun x => 0 <= x) (Entropy.freq (e_ctx st)) ->
  0 <= total_size_blocks st ->
  Entropy.total (Entropy.freq (e_ctx st)) + bytes_sampled vs < size_t_modulus ->
  total_size_blocks st + bytes_sampled vs < size_t_modulus ->
  exists st' out,
    walk_blocks list_blocks true st vs = (Some st', out) /\
    total_size_blocks st' = total_size_blocks st + bytes_sampled vs /\
    Entropy.total (Entropy.freq (e_ctx st'))
      = Entropy.total (Entropy.freq (e_ctx st)) + bytes_sampled vs /\
    length (Entropy.freq (e_ctx st')) = Entropy.NUM_VALUES /\
    forall b, nth (Byte.to_nat b) (Entropy.freq (e_ctx st')) 0
              = nth (Byte.to_nat b) (Entropy.freq (e_ctx st)) 0
                + Entropy.occurrences b (sampled_data vs).
Proof.
  induction vs as [|v vs IH]; intros st Hok Hlen Hpos Ht HF HT; cbn [walk_blocks].
  - do 2 eexists. split; [reflexivity|]. cbn [bytes_sampled fold_right].
    split; [lia|]. split; [lia|]. split; [exact Hlen|].
    intros b. cbn. lia.
  - inversion Hok as [|? ? (Hre & Hsz & Hwr) Hrest]; subst.
    pose proof (bytes_sampled_nonneg vs Hrest) as Hnn.
    cbn [bytes_sampled fold_right] in HF, HT |- *. fold (bytes_sampled vs) in *.
    cbn [sampled_data flat_map]. fold (sampled_data vs).
    unfold visit_block, sample_block_bytes. rewrite Hre, andb_false_r.
    destruct (res (read v) && (bytes_read (read v) =? dwBlockSize (he v))) eqn:Hfull.
    + apply andb_true_iff in Hfull. destruct Hfull as [_ Hbr].
      apply Z.eqb_eq in Hbr.
      pose proof (store_buffer_length (written (read v)) (ent_buffer st)) as Hbuf.
      destruct (calculate_frequencies_spec (Z.to_nat (dwBlockSize (he v))) (e_ctx st)
                  (store_buffer (written (read v)) (ent_buffer st))
                  ltac:(lia) Hlen Hpos ltac:(lia)) as (C1 & C2 & C3 & C4).
      rewrite firstn_store_buffer in C1 by congruence.
      match goal with
      | |- context [walk_blocks _ _ (track_range ?s _) _] => set (st1 := s)
      end.
      assert (Ectx : e_ctx (track_range st1 (he v))
                     = Entropy.entropy_calculate_frequencies (e_ctx st)
                         (store_buffer (written (read v)) (ent_buffer st))
                         (Z.to_nat (dwBlockSize (he v))))
        by (rewrite track_range_e_ctx; reflexivity).
      assert (Etot : total_size_blocks (track_range st1 (he v))
                     = total_size_blocks st + dwBlockSize (he v)).
      { rewrite track_range_total. subst st1. cbn [total_size_blocks].
        apply wrap_size_t_small. lia. }
      destruct (IH (track_range st1 (he v)) Hrest) as (st' & out & Hw & E1 & E2 & E3 & E4);
        rewrite ?Ectx, ?Etot; try assumption; try lia.
      rewrite Hw. do 2 eexists. split; [reflexivity|].
      rewrite Ectx in E2, E4.
      split; [rewrite E1, Etot; lia|]. split; [rewrite E2, C2; lia|].
      split; [exact E3|].
      intros b. rewrite E4, C1, occurrences_app. lia.
    + match goal with
      | |- context [walk_blocks _ _ (track_range ?s _) _] => set (st1 := s)
      end.
      assert (Ectx : e_ctx (track_range st1 (he v)) = e_ctx st)
        by (rewrite track_range_e_ctx; reflexivity).
      assert (Etot : total_size_blocks (track_range st1 (he v)) = total_size_blocks st)
        by (rewrite track_range_total; reflexivity).
      destruct (IH (track_range st1 (he v)) Hrest) as (st' & out & Hw & E1 & E2 & E3 & E4);
        rewrite ?Ectx, ?Etot; try assumption; try lia.
      rewrite Hw. do 2 eexists. split; [reflexivity|].
      rewrite Ectx in E2, E4.
      split; [rewrite E1, Etot; lia|]. split; [rewrite E2; lia|].
      split; [exact E3|].
      intros b. rewrite E4. cbn [app]. lia.
Qed.

(** One heap with entropy asked for: the frequencies handed to
    [entropy_compute] are those of this heap alone, the size handed to it is
    the running total. *)
Lemma walk_heap_samples ctx total h :
  visits h <> [] -> Forall visit_ok (visits h) ->
  0 <= total -> total + bytes_sampled (visits h) < size_t_modulus ->
  exists ctx' mid,
    walk_heap list_blocks true ctx total h =
      (Some (ctx', total + bytes_sampled (visits h)),
       HeapId (th32HeapID h) :: mid
         ++ [EntropyOf (Entropy.freq ctx') (total + bytes_sampled (visits h))]) /\
    Entropy.total (Entropy.freq ctx') = bytes_sampled (visits h) /\
    (forall l, In l mid -> match l with HeapId _ | EntropyOf _ _ => False | _ => True end) /\
    length (Entropy.freq ctx') = Entropy.NUM_VALUES /\
    forall b, nth (Byte.to_nat b) (Entropy.freq ctx') 0
              = Entropy.occurrences b (sampled_data (visits h)).
Proof.
  intros Hne Hok Ht HT. unfold walk_heap.
  destruct (visits h) as [|first rest] eqn:Hv; [contradiction|].
  match goal with |- context [walk_blocks _ _ ?s _] => set (st0 := s) end.
  pose proof (bytes_sampled_nonneg _ Hok) as Hnn.
  assert (Hzero : Entropy.total (Entropy.freq (e_ctx st0)) = 0) by reflexivity.
  assert (Hnth : forall i, nth i (Entropy.freq (e_ctx st0)) 0 = 0).
  { intros i. subst st0. cbn [e_ctx]. unfold Entropy.entropy_init. cbn [Entropy.freq].
    destruct (nth_in_or_default i (repeat 0 Entropy.NUM_VALUES) 0) as [Hin|E];
      [now apply repeat_spec in Hin|exact E]. }
  destruct (walk_blocks_samples (first :: rest) st0 Hok)
    as (st & out & Hwalk & E1 & E2 & E3 & E4).
  - apply repeat_length.
  - apply Forall_forall. intros x Hx. apply repeat_spec in Hx. lia.
  - exact Ht.
  - rewrite Hzero. lia.
  - exact HT.
  - rewrite Hwalk. rewrite Hzero in E2.
    change (total_size_blocks st0) with total in E1.
    rewrite E1. eexists. eexists (out ++ [_]).
    split; [rewrite <- app_assoc; reflexivity|]. split; [lia|].
    split; [|split; [exact E3|intros b; rewrite E4, Hnth; lia]].
    intros l Hl. apply in_app_or in Hl. destruct Hl as [Hl|[<-|[]]]; [|exact I].
    pose proof (walk_blocks_lines _ _ _ _ _ Hwalk) as Hlines.
    rewrite Forall_forall in Hlines. specialize (Hlines l Hl).
    destruct l; cbn in Hlines; tauto.
Qed.

Lemma heaps_sampled_nonneg pre :
  (forall h, In h pre -> Forall visit_ok (visits h)) -> 0 <= heaps_sampled pre.
Proof.
  induction pre as [|g pre IH]; intros Hok; [reflexivity|].
  cbn [heaps_sampled fold_right]. fold (heaps_sampled pre).
  pose proof (bytes_sampled_nonneg _ (Hok g (or_introl eq_refl))).
  assert (0 <= heaps_sampled pre); [|lia].
  apply IH. intros g' Hg. apply Hok. now right.
Qed.

(** Heaps whose blocks are all in order are walked to the end; what follows
    them starts from the running total they leave. *)
Lemma walk_heaps_prefix pre : forall ctx total,
  (forall h, In h pre -> Forall visit_ok (visits h)) ->
  0 <= total -> total + heaps_sampled pre < size_t_modulus ->
  exists ctx' out, forall rest,
    walk_heaps list_blocks true ctx total (pre ++ rest) =
    (fst (walk_heaps list_blocks true ctx' (total + heaps_sampled pre) rest),
     out ++ snd (walk_heaps list_blocks true ctx' (total + heaps_sampled pre) rest)).
Proof.
  induction pre as [|h pre IH]; intros ctx total Hok Ht HT.
  - exists ctx, []. intros rest. cbn [app heaps_sampled fold_right].
    rewrite Z.add_0_r. now destruct (walk_heaps _ _ _ _ rest).
  - cbn [heaps_sampled fold_right] in *. fold (heaps_sampled pre) in *.
    pose proof (bytes_sampled_nonneg _ (Hok h (or_introl eq_refl))) as Hnn.
    pose proof (heaps_sampled_nonneg pre (fun g Hg => Hok g (or_intror Hg))) as Hpre.
    assert (Hstep : exists ctx1 out1,
      walk_heap list_blocks true ctx total h
        = (Some (ctx1, total + bytes_sampled (visits h)), out1)).
    { destruct (visits h) as [|first tl] eqn:Hv.
      - unfold walk_heap. rewrite Hv. cbn [bytes_sampled fold_right].
        rewrite Z.add_0_r. eauto.
      - destruct (walk_heap_samples ctx total h) as (ctx1 & mid & E & _);
          try rewrite Hv; try discriminate; try lia.
        + rewrite <- Hv. apply Hok. now left.
        + rewrite Hv in E. eauto. }
    destruct Hstep as (ctx1 & out1 & Hstep).
    destruct (IH ctx1 (total + bytes_sampled (visits h))) as (ctx' & out & E);
      [intros g Hg; apply Hok; now right|lia|lia|].
    exists ctx', (out1 ++ out). intros rest.
    cbn [app walk_heaps]. rewrite Hstep, E, Z.add_assoc.
    destruct (walk_heaps _ _ ctx' _ rest) as [c o]. cbn [fst snd].
    now rewrite app_assoc.
Qed.

End HeapEntropy.

(** X18.  With entropy asked for (command [the]), the frequencies handed to
    [entropy_compute] for a heap are those of the blocks of that heap read
    in full, since [entropy_init] runs at each heap: the array has its 256
    counters, and the counter of each byte value is the number of times that
    byte stands in the bytes those reads returned.  The size handed to it is
    [total_size_blocks], which is never reset: it is the number of bytes
    sampled in all the heaps visited so far.  From the second heap on, the
    size exceeds the sum of the frequencies by the bytes of the earlier
    heaps. *)
Theorem entropy_size_runs_over_all_heaps
    (pre post : list HeapWalk.heap) (h : HeapWalk.heap)
    (garbage : Entropy.entropy_context) (list_blocks : bool)
    (Hpre : forall g, In g pre -> Forall visit_ok (HeapWalk.visits g))
    (Hh : Forall visit_ok (HeapWalk.visits h))
    (Hne : HeapWalk.visits h <> [])
    (Hmax : heaps_sampled pre + HeapWalk.bytes_sampled (HeapWalk.visits h)
              < size_t_modulus) :
  exists before mid f after,
    snd (HeapWalk.traverse_heap_list (Some (pre ++ h :: post)) true garbage
           list_blocks true)
    = before ++ HeapWalk.HeapId (HeapWalk.th32HeapID h) :: mid
        ++ HeapWalk.EntropyOf f
             (heaps_sampled pre + HeapWalk.bytes_sampled (HeapWalk.visits h))
        :: after /\
    (forall l, In l mid ->
       match l with
       | HeapWalk.HeapId _ | HeapWalk.EntropyOf _ _ => False
       | _ => True
       end) /\
    length f = Entropy.NUM_VALUES /\
    (forall b, nth (Byte.to_nat b) f 0
               = Entropy.occurrences b (sampled_data (HeapWalk.visits h))) /\
    Entropy.total f = HeapWalk.bytes_sampled (HeapWalk.visits h).
Proof.
  pose proof (bytes_sampled_nonneg _ Hh) as Hnn.
  unfold HeapWalk.traverse_heap_list.
  destruct (pre ++ h :: post) as [|g0 gs] eqn:Hheaps; [destruct pre; discriminate|].
  rewrite <- Hheaps.
  pose proof (heaps_sampled_nonneg pre Hpre) as Hpre0.
  destruct (walk_heaps_prefix list_blocks pre garbage 0 Hpre
              ltac:(lia) ltac:(lia)) as (ctx' & out & E).
  rewrite E. cbn [HeapWalk.walk_heaps]. rewrite Z.add_0_l.
  destruct (walk_heap_samples list_blocks ctx' (heaps_sampled pre) h Hne Hh Hpre0 Hmax)
    as (ctx1 & mid & Hwalk & Htotal & Hmid & Hlen & Hcount).
  rewrite Hwalk.
  destruct (HeapWalk.walk_heaps list_blocks true ctx1 _ post) as [completed out'].
  cbn [fst snd app].
  exists out, mid, (Entropy.freq ctx1).
  destruct completed; cbn [snd]; eexists;
    (split; [|split; [exact Hmid|split; [exact Hlen|split; [exact Hcount|exact Htotal]]]]);
    rewrite <- ?app_assoc; cbn [app]; rewrite <- ?app_assoc; reflexivity.
Qed.

Lemma entropy_size_runs_over_all_heaps_witness :
  exists before mid f after,
    snd (HeapWalk.traverse_heap_list (Some ([one_block_heap] ++ sample_heap :: []))
           true Entropy.entropy_init false true)
    = before ++ HeapWalk.HeapId (HeapWalk.th32HeapID sample_heap) :: mid
        ++ HeapWalk.EntropyOf f
             (heaps_sampled [one_block_heap]
                + HeapWalk.bytes_sampled (HeapWalk.visits sample_heap))
        :: after /\
    (forall l, In l mid ->
       match l with
       | HeapWalk.HeapId _ | HeapWalk.EntropyOf _ _ => False
       | _ => True
       end) /\
    length f = Entropy.NUM_VALUES /\
    (forall b, nth (Byte.to_nat b) f 0
               = Entropy.occurrences b (sampled_data (HeapWalk.visits sample_heap))) /\
    Entropy.total f = HeapWalk.bytes_sampled (HeapWalk.visits sample_heap).
Proof.
  apply (entropy_size_runs_over_all_heaps [one_block_heap] [] sample_heap
           Entropy.entropy_init false).
  - intros g [<-|[]]. repeat constructor; vm_compute; congruence.
  - repeat constructor; vm_compute; congruence.
  - discriminate.
  - reflexivity.
Defined.

Section HeapAbort.

Import HeapWalk.

Variable list_blocks : bool.

Lemma track_range_max s e : max_block_size (track_range s e) = max_block_size s.
Proof. unfold track_range. destruct (end_address s <? dwAddress e); reflexivity. Qed.

(** The buffer is never larger than the largest block seen. *)
Lemma walk_blocks_max_below vs : forall st st' out bound,
  walk_blocks list_blocks true st vs = (Some st', out) ->
  (forall w, In w vs -> dwBlockSize (he w) < bound) ->
  max_block_size st < bound -> max_block_size st' < bound.
Proof.
  induction vs as [|v vs IH]; intros st st' out bound H Hb H0; cbn [walk_blocks] in H.
  - now injection H as <- _.
  - destruct (visit_block _ _ st v) as [[st1|] out1] eqn:Hv; [|discriminate].
    destruct (walk_blocks _ _ st1 vs) as [r out2] eqn:Hw.
    injection H as -> _. apply (IH _ _ _ bound Hw).
    + intros w Hin. apply Hb. now right.
    + pose proof (Hb v (or_introl eq_refl)) as Hlt.
      unfold visit_block in Hv.
      destruct (sample_block_bytes st v) as [[s|] o] eqn:Hs; [|discriminate].
      injection Hv as <- _. rewrite track_range_max.
      unfold sample_block_bytes in Hs.
      destruct (_ && negb _); [discriminate|].
      destruct (_ && _); injection Hs as <- _; cbn [max_block_size];
        destruct (_ <? _); lia.
Qed.

(** A block larger than all before it, for which [realloc] fails, ends the
    walk over its heap. *)
Lemma walk_blocks_starved before v after st :
  Forall (fun w => realloc_ok w = true) before ->
  (forall w, In w before -> dwBlockSize (he w) < dwBlockSize (he v)) ->
  max_block_size st < dwBlockSize (he v) ->
  realloc_ok v = false ->
  exists mid,
    walk_blocks list_blocks true st (before ++ v :: after)
      = (None, mid ++ [AllocationFailed]) /\
    Forall block_line mid.
Proof.
  intros Hok Hgrow H0 Hfail. rewrite walk_blocks_app.
  destruct (walk_blocks_completes list_blocks true before st (or_intror Hok))
    as (st1 & out1 & Hw).
  rewrite Hw.
  pose proof (walk_blocks_max_below _ _ _ _ _ Hw Hgrow H0) as Hmax.
  pose proof (walk_blocks_lines list_blocks _ _ _ _ _ Hw) as Hlines.
  cbn [walk_blocks]. unfold visit_block, sample_block_bytes.
  apply Z.ltb_lt in Hmax. rewrite Hmax, Hfail. cbn [negb andb].
  exists (out1 ++ (if list_blocks
                   then [BlockLine (dwAddress (he v)) (dwBlockSize (he v))] else [])).
  split; [now rewrite <- !app_assoc|].
  apply Forall_app. split; [exact Hlines|].
  destruct list_blocks; repeat constructor.
Qed.

End HeapAbort.

(** X19.  With entropy asked for, a block that is larger than every block
    before it in its heap and for which [realloc] gives no buffer ends the
    whole traversal: the message of line 620 is the last line printed,
    neither the range nor the entropy of that heap is printed, the heaps that
    follow are not visited (the output is the same whatever they are), the
    closing empty line is not printed, and the value returned is 0, the same
    as after a complete traversal. *)
Theorem failed_allocation_abandons_the_traversal
    (pre : list HeapWalk.heap) (h : HeapWalk.heap)
    (before after : list HeapWalk.visit) (v : HeapWalk.visit)
    (garbage : Entropy.entropy_context) (list_blocks : bool)
    (Hpre : forall g, In g pre -> Forall visit_ok (HeapWalk.visits g))
    (Hmax : heaps_sampled pre < size_t_modulus)
    (Hvisits : HeapWalk.visits h = before ++ v :: after)
    (Hbefore : Forall (fun w => HeapWalk.realloc_ok w = true) before)
    (Hgrow : forall w, In w before ->
               HeapWalk.dwBlockSize (HeapWalk.he w)
                 < HeapWalk.dwBlockSize (HeapWalk.he v))
    (Hpos : 0 < HeapWalk.dwBlockSize (HeapWalk.he v))
    (Hfail : HeapWalk.realloc_ok v = false) :
  exists earlier mid,
    Forall block_line mid /\
    forall post,
      HeapWalk.traverse_heap_list (Some (pre ++ h :: post)) true garbage
        list_blocks true
      = (0, earlier ++ HeapWalk.HeapId (HeapWalk.th32HeapID h) :: mid
              ++ [HeapWalk.AllocationFailed]).
Proof.
  destruct (walk_heaps_prefix list_blocks pre garbage 0 Hpre
              ltac:(lia) ltac:(lia)) as (ctx' & out & E).
  assert (Hheap : exists mid, Forall block_line mid /\
    HeapWalk.walk_heap list_blocks true ctx' (0 + heaps_sampled pre) h
      = (None, HeapWalk.HeapId (HeapWalk.th32HeapID h) :: mid
                 ++ [HeapWalk.AllocationFailed])).
  { unfold HeapWalk.walk_heap.
    destruct (HeapWalk.visits h) as [|first rest] eqn:Hv;
      [destruct before; discriminate|].
    match goal with |- context [HeapWalk.walk_blocks _ _ ?s _] => set (st0 := s) end.
    rewrite Hvisits.
    destruct (walk_blocks_starved list_blocks before v after st0 Hbefore Hgrow Hpos Hfail)
      as (mid & Hw & Hlines).
    rewrite Hw. now exists mid. }
  destruct Hheap as (mid & Hlines & Hheap).
  exists out, mid. split; [exact Hlines|]. intros post.
  unfold HeapWalk.traverse_heap_list.
  destruct (pre ++ h :: post) as [|g0 gs] eqn:Hheaps; [destruct pre; discriminate|].
  rewrite <- Hheaps, E. cbn [HeapWalk.walk_heaps]. rewrite Hheap.
  cbn [fst snd app]. reflexivity.
Qed.

Lemma failed_allocation_abandons_the_traversal_witness :
  exists earlier mid,
    Forall block_line mid /\
    forall post,
      HeapWalk.traverse_heap_list (Some ([one_block_heap] ++ starved_heap :: post))
        true Entropy.entropy_init false true
      = (0, earlier ++ HeapWalk.HeapId (HeapWalk.th32HeapID starved_heap) :: mid
              ++ [HeapWalk.AllocationFailed]).
Proof.
  apply (failed_allocation_abandons_the_traversal [one_block_heap] starved_heap
           [HeapWalk.mkVisit (HeapWalk.mkHeapEntry 0x1000 0x20) true
              (mkRead true 0x20 (repeat byte_A 0x20))]
           [HeapWalk.mkVisit (HeapWalk.mkHeapEntry 0x3000 0x10) true
              (mkRead true 0x10 (repeat Byte.x00 0x10))]
           (HeapWalk.mkVisit (HeapWalk.mkHeapEntry 0x2000 0x40) false
              (mkRead true 0x40 (repeat Byte.x00 0x40)))
           Entropy.entropy_init false).
  - intros g [<-|[]]. repeat constructor; vm_compute; congruence.
  - reflexivity.
  - reflexivity.
  - repeat constructor.
  - intros w [<-|[]]. reflexivity.
  - reflexivity.
  - reflexivity.
Defined.

(** ** The trace of a whole scan *)

Section ScanTrace.

Variables (cfg : scan_config) (pattern : list byte) (pattern_len : Z).
Variable ReadProcessMemory : Z -> Z -> read_outcome.




End ScanTrace.



(** ** The warning of print_error *)

Section Trimming.

Import PrintError.

Lemma skip_line_spec line c rest : forall p,
  Forall (fun x => in_line x = true) line -> in_line c = false ->
  skip_line (line ++ c :: rest) p = Some (p + length line)%nat.
Proof.
  induction line as [|x line IH]; intros p Hline Hc; cbn [app skip_line length].
  - rewrite Hc. f_equal. lia.
  - inversion Hline as [|? ? Hx Hrest]; subst. rewrite Hx, IH by assumption.
    f_equal. lia.
Qed.

Lemma poke_app line c rest :
  poke (length line) (line ++ c :: rest) = line ++ 0 :: rest.
Proof.
  induction line as [|x line IH]; cbn [app length poke]; [reflexivity|].
  now rewrite IH.
Qed.

(** The do-while clears the end of the line as far as the characters it
    trims reach, and the terminator after it. *)
Lemma trim_end_spec line : forall c rest,
  exists s d,
    line = s ++ d /\
    Forall (fun x => trimmed x = true) d /\
    (s = [] \/ trimmed (last s 0) = false) /\
    trim_end (line ++ c :: rest) (length line)
      = s ++ repeat 0 (S (length d)) ++ rest.
Proof.
  induction line as [|x l IH] using rev_ind; intros c rest.
  - exists [], []. repeat split; auto.
  - rewrite length_app, Nat.add_1_r. cbn [length trim_end].
    replace (poke (S (length l)) ((l ++ [x]) ++ c :: rest))
      with (l ++ x :: 0 :: rest).
    2:{ replace (S (length l)) with (length (l ++ [x]))
          by (rewrite length_app; cbn [length]; lia).
        rewrite poke_app. now rewrite <- app_assoc. }
    rewrite nth_middle.
    destruct (trimmed x) eqn:Hx.
    + destruct (IH x (0 :: rest)) as (s & d & El & Hd & Hs & Ht).
      exists s, (d ++ [x]). split; [now rewrite El, app_assoc|].
      split; [apply Forall_app; split; [exact Hd|now constructor]|].
      split; [exact Hs|]. rewrite Ht. f_equal.
      rewrite length_app, Nat.add_1_r.
      change (repeat 0 (S (S (length d)))) with (0 :: repeat 0 (S (length d))).
      rewrite (repeat_cons (S (length d)) 0), <- app_assoc. reflexivity.
    + exists (l ++ [x]), []. split; [now rewrite app_nil_r|].
      split; [constructor|]. split; [right; now rewrite last_last|].
      now rewrite <- app_assoc.
Qed.

Lemma c_string_line s rest :
  Forall (fun x => in_line x = true) s -> c_string (s ++ 0 :: rest) = s.
Proof.
  induction 1 as [|x s Hx _ IH]; cbn [app c_string]; [reflexivity|].
  destruct (Z.eqb_spec x 0) as [->|_]; [discriminate|]. now rewrite IH.
Qed.

End Trimming.

(** X21.  When the buffer holds a line (characters above 31, or tabs)
    followed by any other character, such as the line break or the null that
    ends the system message, the warning shows the message with its error
    number and, of the line, the part [s] that is left when the periods and
    the characters below 33 that end it are cut: what is cut holds nothing
    else, and [s] is empty or ends in a character that is kept. *)
Theorem print_error_shows_the_trimmed_line
    (msg : string) (eNum : Z) (line rest : list Z) (c : Z)
    (Hline : Forall (fun x => PrintError.in_line x = true) line)
    (Hc : PrintError.in_line c = false) :
  exists s d,
    line = s ++ d /\
    Forall (fun x => PrintError.trimmed x = true) d /\
    (s = [] \/ PrintError.trimmed (last s 0) = false) /\
    PrintError.print_error msg eNum (line ++ c :: rest)
      = Some (PrintError.mkWarning msg eNum s).
Proof.
  destruct (trim_end_spec line c rest) as (s & d & El & Hd & Hs & Ht).
  exists s, d. split; [exact El|]. split; [exact Hd|]. split; [exact Hs|].
  unfold PrintError.print_error.
  rewrite (skip_line_spec line c rest 0 Hline Hc). cbn [Nat.add].
  rewrite Ht. cbn [repeat app].
  rewrite c_string_line; [reflexivity|].
  rewrite El in Hline. apply Forall_app in Hline. apply Hline.
Qed.

Lemma print_error_shows_the_trimmed_line_witness :
  exists s d,
    access_is_denied_line = s ++ d /\
    Forall (fun x => PrintError.trimmed x = true) d /\
    (s = [] \/ PrintError.trimmed (last s 0) = false) /\
    PrintError.print_error "OpenProcess" 5 (access_is_denied_line ++ 13 :: [10; 0])
      = Some (PrintError.mkWarning "OpenProcess" 5 s).
Proof.
  apply (print_error_shows_the_trimmed_line "OpenProcess" 5 access_is_denied_line
           [10; 0] 13).
  - repeat constructor.
  - reflexivity.
Defined.

(** ** The process and module listings *)

Section Listings.

Import ProcessList.

Lemma process_body_shows v :
  process_names (process_body v) = [szExeFile (pe32 v)] /\
  priority_classes (process_body v)
    = (if negb (class_of v =? 0) then [class_of v] else []) /\
  length (filter is_failed (process_body v))
    = (if negb (class_of v =? 0)%Z then 0 else 1)%nat.
Proof.
  unfold process_body, class_of.
  destruct (opened v); cbn [negb]; [|repeat split].
  destruct (GetPriorityClass v =? 0); repeat split.
Qed.

Lemma process_loop_shows vs :
  process_names (flat_map process_body vs) = map (fun v => szExeFile (pe32 v)) vs /\
  priority_classes (flat_map process_body vs)
    = filter (fun c => negb (c =? 0)) (map class_of vs) /\
  (length (filter is_failed (flat_map process_body vs))
   + length (priority_classes (flat_map process_body vs)) = length vs)%nat.
Proof.
  induction vs as [|v vs (IH1 & IH2 & IH3)]; [repeat split|].
  destruct (process_body_shows v) as (E1 & E2 & E3).
  cbn [flat_map map filter length].
  unfold process_names, priority_classes in *.
  rewrite !flat_map_app, filter_app, !length_app, E1, E2, E3, IH1, IH2.
  rewrite IH2 in IH3.
  split; [reflexivity|]. split.
  - destruct (negb (class_of v =? 0)); reflexivity.
  - destruct (negb (class_of v =? 0)); cbn [length app]; lia.
Qed.

Lemma shown_bases_rows ms :
  ModuleList.shown_bases (map ModuleList.module_row ms ++ [ModuleList.Blank])
  = map (fun me => ModuleList.to_DWORD (ModuleList.modBaseAddr me)) ms.
Proof.
  induction ms as [|me ms IH]; [reflexivity|].
  cbn [map app]. unfold ModuleList.shown_bases in *. cbn [flat_map].
  now rewrite IH.
Qed.

End Listings.

(** X22.  When the snapshot holds at least one process, [list_processes]
    returns TRUE and shows the processes by name in the order of the
    snapshot; the priority classes it shows are, in order, the nonzero
    answers of GetPriorityClass for the processes that could be opened (a
    process never inherits the class of an earlier one, [dwPriorityClass]
    being cleared at each turn); and every process comes with either one
    failure note or one priority class line, never both and never neither. *)
Theorem process_listing_shows_own_priority :
  forall (v : ProcessList.visit) (vs : list ProcessList.visit),
    let result := ProcessList.list_processes (Some (v :: vs)) in
    fst result = true /\
    ProcessList.process_names (snd result)
      = map (fun w => ProcessList.szExeFile (ProcessList.pe32 w)) (v :: vs) /\
    ProcessList.priority_classes (snd result)
      = filter (fun c => negb (c =? 0)) (map ProcessList.class_of (v :: vs)) /\
    (length (filter ProcessList.is_failed (snd result))
     + length (ProcessList.priority_classes (snd result))
     = length (v :: vs))%nat.
Proof.
  intros v vs result. subst result. unfold ProcessList.list_processes.
  cbn [fst snd]. split; [reflexivity|]. apply process_loop_shows.
Qed.

(** X23.  When the snapshot holds at least one module, [list_process_modules]
    returns TRUE and shows one base address per module in the order of the
    snapshot; the address shown is the base address cut to 32 bits: it lies
    below 4 GiB, differs from the base address by a multiple of 4 GiB, and is
    the base address itself exactly when that lies below 4 GiB. *)
Theorem module_bases_are_shown_cut_to_32_bits :
  forall (m : ModuleList.MODULEENTRY32) (ms : list ModuleList.MODULEENTRY32),
    let result := ModuleList.list_process_modules (Some (m :: ms)) in
    fst result = true /\
    length (ModuleList.shown_bases (snd result)) = length (m :: ms) /\
    forall i me, nth_error (m :: ms) i = Some me ->
      exists shown,
        nth_error (ModuleList.shown_bases (snd result)) i = Some shown /\
        0 <= shown < 2 ^ 32 /\
        (exists k, ModuleList.modBaseAddr me = shown + k * 2 ^ 32) /\
        (shown = ModuleList.modBaseAddr me <-> 0 <= ModuleList.modBaseAddr me < 2 ^ 32).
Proof.
  intros m ms result. subst result. unfold ModuleList.list_process_modules.
  cbn [fst snd]. rewrite shown_bases_rows. split; [reflexivity|].
  split; [apply length_map|].
  intros i me Hi. exists (ModuleList.to_DWORD (ModuleList.modBaseAddr me)).
  split; [now rewrite nth_error_map, Hi|].
  unfold ModuleList.to_DWORD.
  pose proof (Z.mod_pos_bound (ModuleList.modBaseAddr me) (2 ^ 32) ltac:(lia)) as Hb.
  split; [exact Hb|]. split.
  - exists (ModuleList.modBaseAddr me / 2 ^ 32).
    pose proof (Z.div_mod (ModuleList.modBaseAddr me) (2 ^ 32) ltac:(lia)). lia.
  - split; [intros E; rewrite <- E; exact Hb|intros H; now apply Z.mod_small].
Qed.

(** ** What the parser reads of a line *)

Lemma char_at_append cmd suffix i :
  (i < String.length cmd)%nat -> char_at (cmd ++ suffix) i = char_at cmd i.
Proof.
  intros Hi. unfold char_at. now rewrite <- append_correct1.
Qed.

(** X24.  Of a line that does not start with [p], [parse_command] reads the
    first three characters and nothing more: text that follows them changes
    neither the command returned, nor the context, nor the lines put.  So
    a line parses as its first three characters do: [the] and [thb] are
    accepted with anything after them. *)
Theorem text_after_three_characters_is_ignored
    (env : parser_env) (ctx : process_context) (cmd suffix : string)
    (Hp : char_at cmd 0 <> "p"%char)
    (Hlen : (3 <= String.length cmd)%nat) :
  parse_command env ctx (cmd ++ suffix) = parse_command env ctx cmd.
Proof.
  unfold parse_command.
  rewrite !char_at_append by lia.
  destruct (Ascii.eqb_spec (char_at cmd 0) "p"); [contradiction|reflexivity].
Qed.

Lemma text_after_three_characters_is_ignored_witness :
  parse_command sample_env sample_ctx ("the" ++ " 0x1234")
  = parse_command sample_env sample_ctx "the".
Proof.
  apply (text_after_three_characters_is_ignored sample_env sample_ctx "the" " 0x1234").
  - discriminate.
  - cbn. lia.
Defined.
